(** * mcp-voice-hooks: hook decision engine, utterance queues and session registry

    A shallow embedding of [src/session-manager.ts] (class [SessionManager])
    and of the decision core of [src/unified-server.ts] ([UtteranceQueue],
    [dequeueUtterancesCore], [waitForUtteranceCore], [handleHookRequest],
    [registerSessionFromRequest] and the [/api/speak] handler), followed by
    the properties of the specification that concern them.

    Conventions of the embedding:
    - a JavaScript string is the list of its UTF-16 code units ([jsstring]);
    - a [Date] is its [getTime()] value, an integer number of milliseconds
      (invalid dates are outside the model);
    - [undefined] / [null] is [None];
    - the clock ([Date.now()], [new Date()]) and [randomUUID()] are inputs of
      the operation that reads them;
    - a JavaScript [Map] is an association list in insertion order;
    - module-level mutable variables are the fields of [ServerState];
    - what the server writes to its clients is appended to [outbox]; the
      session-list push of the registry's change callback, the WebSocket
      hub and [debugLog] are not modelled. *)

From Stdlib Require Import String Ascii.
From Stdlib Require Import ZArith List Bool Lia.
From Stdlib Require Import Sorting.Permutation Sorting.Sorted.
Import ListNotations.
Open Scope Z_scope.

(* ================================================================== *)
(** * JavaScript strings and numbers *)

Definition jsstring := list Z.

(** An ASCII literal as a JavaScript string. *)
Definition lit (s : string) : jsstring :=
  map (fun a => Z.of_nat (nat_of_ascii a)) (list_ascii_of_string s).

Fixpoint jseqb (a b : jsstring) : bool :=
  match a, b with
  | [], [] => true
  | x :: a', y :: b' => (x =? y) && jseqb a' b'
  | _, _ => false
  end.

(** Truthiness of [string | undefined]: [undefined] and the empty string are
    falsy. *)
Definition truthy (o : option jsstring) : bool :=
  match o with
  | Some (_ :: _) => true
  | _ => false
  end.

(** [a || b] on an optional string with a string default. *)
Definition orElse (o : option jsstring) (d : jsstring) : jsstring :=
  match o with
  | Some (c :: s) => c :: s
  | _ => d
  end.

(** [a || b] where both sides may be [undefined]. *)
Definition orElseOpt (o d : option jsstring) : option jsstring :=
  if truthy o then o else d.

(** Code units removed by [String.prototype.trim]: WhiteSpace and
    LineTerminator of ECMAScript. *)
Definition isWhiteSpace (c : Z) : bool :=
  (c =? 9) || (c =? 10) || (c =? 11) || (c =? 12) || (c =? 13) || (c =? 32)
  || (c =? 160) || (c =? 5760) || ((8192 <=? c) && (c <=? 8202))
  || (c =? 8232) || (c =? 8233) || (c =? 8239) || (c =? 8287)
  || (c =? 12288) || (c =? 65279).

Fixpoint trimStart (s : jsstring) : jsstring :=
  match s with
  | [] => []
  | c :: r => if isWhiteSpace c then trimStart r else s
  end.

Definition trim (s : jsstring) : jsstring :=
  rev (trimStart (rev (trimStart s))).

(** [!text || !text.trim()] *)
Definition textMissing (text : option jsstring) : bool :=
  match text with
  | None => true
  | Some s => negb (truthy (Some s)) || negb (truthy (Some (trim s)))
  end.

(** Digit of [Number.prototype.toString(radix)]: [0-9] then [a-z]. *)
Definition digitChar (d : Z) : Z := if d <? 10 then 48 + d else 87 + d.

Fixpoint radixDigits (fuel : nat) (base n : Z) (acc : jsstring) : jsstring :=
  match fuel with
  | O => acc
  | S f =>
      let acc' := digitChar (n mod base) :: acc in
      if n / base =? 0 then acc' else radixDigits f base (n / base) acc'
  end.

(** [n.toString(base)] for an integer [n]; the fuel bounds the number of
    digits. *)
Definition numToString (base n : Z) : jsstring :=
  let m := Z.abs n in
  let ds := radixDigits (S (Z.to_nat (Z.log2 m))) base m [] in
  if n <? 0 then 45 :: ds else ds.

(** Template-literal interpolation of an integer: [`${n}`]. *)
Definition showNum (n : Z) : jsstring := numToString 10 n.

(** [arr.length] as a number. *)
Definition len {A : Type} (l : list A) : Z := Z.of_nat (length l).

(** [ToInt32]: wrap to a signed 32-bit integer. *)
Definition toInt32 (z : Z) : Z := (z + 2147483648) mod 4294967296 - 2147483648.

(** [Array.prototype.sort(cmp)]: a stable sort; [x] goes before [y] when
    [cmp x y <= 0] and [x] came first. *)
Fixpoint sortInsert {A : Type} (cmp : A -> A -> Z) (x : A) (l : list A) : list A :=
  match l with
  | [] => [x]
  | y :: r => if cmp x y <=? 0 then x :: y :: r else y :: sortInsert cmp x r
  end.

Fixpoint jsSort {A : Type} (cmp : A -> A -> Z) (l : list A) : list A :=
  match l with
  | [] => []
  | x :: r => sortInsert cmp x (jsSort cmp r)
  end.

(** [parts.join(sep)] *)
Fixpoint join (sep : jsstring) (parts : list jsstring) : jsstring :=
  match parts with
  | [] => []
  | [p] => p
  | p :: rest => p ++ sep ++ join sep rest
  end.

(** [s.split('/')] for a one-code-unit separator. *)
Fixpoint splitOn (sep : Z) (s : jsstring) : list jsstring :=
  match s with
  | [] => [[]]
  | c :: r =>
      if c =? sep then [] :: splitOn sep r
      else match splitOn sep r with
           | [] => [[c]]
           | p :: ps => (c :: p) :: ps
           end
  end.

Fixpoint startsWith (p s : jsstring) : bool :=
  match p, s with
  | [], _ => true
  | x :: p', y :: s' => (x =? y) && startsWith p' s'
  | _ :: _, [] => false
  end.

(* ================================================================== *)
(** * Utterances and the utterance queue ([class UtteranceQueue]) *)

Inductive Status := pending | delivered | responded.

Definition status_eqb (a b : Status) : bool :=
  match a, b with
  | pending, pending | delivered, delivered | responded, responded => true
  | _, _ => false
  end.

Record Utterance := mkUtterance {
  u_id : jsstring;
  u_text : jsstring;
  u_timestamp : Z;
  u_status : Status
}.

Definition setStatus (s : Status) (u : Utterance) : Utterance :=
  mkUtterance (u_id u) (u_text u) (u_timestamp u) s.

(** The [utterances] array of a queue. *)
Definition UtteranceQueue := list Utterance.

(** [add(text, timestamp?)]: [uuid] is the value of [randomUUID()], [now] the
    value of [new Date()]. *)
Definition add (uuid : jsstring) (now : Z) (text : jsstring) (timestamp : option Z)
    (q : UtteranceQueue) : Utterance * UtteranceQueue :=
  let utterance :=
    mkUtterance uuid (trim text)
      (match timestamp with Some t => t | None => now end) pending in
  (utterance, q ++ [utterance]).

(** [sort((a, b) => b.timestamp - a.timestamp)] *)
Definition newestFirst (a b : Utterance) : Z := u_timestamp b - u_timestamp a.

(** [sort((a, b) => a.timestamp - b.timestamp)] *)
Definition oldestFirst (a b : Utterance) : Z := u_timestamp a - u_timestamp b.

(** [getRecent(limit)]: sorts the array in place and returns a prefix. *)
Definition getRecent (limit : nat) (q : UtteranceQueue) : list Utterance * UtteranceQueue :=
  let sorted := jsSort newestFirst q in
  (firstn limit sorted, sorted).

(** [markDelivered(id)]: [find] returns the first utterance with that id. *)
Fixpoint markDelivered (id : jsstring) (q : UtteranceQueue) : UtteranceQueue :=
  match q with
  | [] => []
  | u :: r =>
      if jseqb (u_id u) id then setStatus delivered u :: r
      else u :: markDelivered id r
  end.

Definition clear (q : UtteranceQueue) : UtteranceQueue := [].

(** [utterances.filter(u => u.status === s)] *)
Definition withStatus (s : Status) (q : UtteranceQueue) : list Utterance :=
  filter (fun u => status_eqb (u_status u) s) q.

(** [utterances.find(u => u.id === id)] as a presence test. *)
Definition hasId (id : jsstring) (q : UtteranceQueue) : bool :=
  existsb (fun u => jseqb (u_id u) id) q.

(** Modelled from the spec: [InMemoryUtteranceQueue] of [utterance-queue.ts]
    is not among the sources.  Section 4.1 of the specification gives it the
    operations of [UtteranceQueue]; the server reads its [utterances] array
    and calls its [markDelivered], which finds the utterance by id and sets
    its status to delivered, and does nothing when the id is absent. *)
Definition InMemoryUtteranceQueue := UtteranceQueue.

(* ================================================================== *)
(** * The session registry ([class SessionManager]) *)

Record Metadata := mkMetadata {
  workingDirectory : option jsstring;
  userAgent : option jsstring;
  clientVersion : option jsstring
}.

Record SessionInfo := mkSessionInfo {
  s_id : jsstring;
  projectPath : option jsstring;
  projectName : option jsstring;
  lastActivity : Z;
  isActive : bool;
  utteranceQueue : InMemoryUtteranceQueue;
  metadata : Metadata
}.

Record SessionData := mkSessionData {
  d_sessionId : option jsstring;
  d_projectPath : option jsstring;
  d_workingDirectory : option jsstring;
  d_userAgent : option jsstring;
  d_clientVersion : option jsstring;
  d_transcriptPath : option jsstring
}.

(** [Map<string, SessionInfo>], in insertion order. *)
Definition SessionMap := list (jsstring * SessionInfo).

Fixpoint mapGet (k : jsstring) (m : SessionMap) : option SessionInfo :=
  match m with
  | [] => None
  | (k', v) :: r => if jseqb k' k then Some v else mapGet k r
  end.

(** [set] keeps the position of an existing key and appends a new one. *)
Fixpoint mapSet (k : jsstring) (v : SessionInfo) (m : SessionMap) : SessionMap :=
  match m with
  | [] => [(k, v)]
  | (k', v') :: r => if jseqb k' k then (k', v) :: r else (k', v') :: mapSet k v r
  end.

Fixpoint mapDelete (k : jsstring) (m : SessionMap) : SessionMap :=
  match m with
  | [] => []
  | (k', v') :: r => if jseqb k' k then r else (k', v') :: mapDelete k r
  end.

(** [Array.from(map.values())] *)
Definition mapValues (m : SessionMap) : list SessionInfo := map snd m.

Record SessionManager := mkSessionManager {
  sessions : SessionMap;
  activeSessionId : option jsstring
}.

(** [new SessionManager()] *)
Definition emptyManager : SessionManager := mkSessionManager [] None.

Definition setIsActive (b : bool) (now : Z) (s : SessionInfo) : SessionInfo :=
  mkSessionInfo (s_id s) (projectPath s) (projectName s) now b
    (utteranceQueue s) (metadata s).

Definition setQueue (q : InMemoryUtteranceQueue) (s : SessionInfo) : SessionInfo :=
  mkSessionInfo (s_id s) (projectPath s) (projectName s) (lastActivity s)
    (isActive s) q (metadata s).

(** [simpleHash]: [hash = ((hash << 5) - hash) + char; hash = hash & hash]. *)
Definition hashStep (hash char : Z) : Z :=
  toInt32 (toInt32 (hash * 32) - hash + char).

Definition simpleHash (str : jsstring) : jsstring :=
  let hash := fold_left hashStep str 0 in
  lit "session_" ++ numToString 36 (Z.abs hash).

Definition isLineTerminator (c : Z) : bool :=
  (c =? 10) || (c =? 13) || (c =? 8232) || (c =? 8233).

(** [s.replace(/\/\.claude\/.*$/, '')]: the leftmost [/.claude/] followed by
    no line terminator up to the end of the string is cut off with all that
    follows it. *)
Fixpoint stripClaudeSuffix (s : jsstring) : jsstring :=
  match s with
  | [] => []
  | c :: r =>
      if startsWith (lit "/.claude/") s
         && negb (existsb isLineTerminator (skipn 9 s))
      then []
      else c :: stripClaudeSuffix r
  end.

Definition extractProjectPath (d : SessionData) : option jsstring :=
  if truthy (d_projectPath d) then d_projectPath d
  else
    match d_transcriptPath d with
    | Some (c :: t) =>
        let transcriptDir := stripClaudeSuffix (c :: t) in
        if negb (jseqb transcriptDir (c :: t)) then Some transcriptDir
        else d_workingDirectory d
    | _ => d_workingDirectory d
    end.

Definition extractProjectName (path : option jsstring) : option jsstring :=
  match path with
  | Some (c :: p) =>
      let normalized := map (fun x => if x =? 92 then 47 else x) (c :: p) in
      let parts := filter (fun part => 0 <? len part) (splitOn 47 normalized) in
      match rev parts with
      | lastPart :: _ => Some lastPart
      | [] => None
      end
  | _ => None
  end.

(** [generateSessionId]; [seed] is the value of [Date.now()]. *)
Definition generateSessionId (seed : Z) (d : SessionData) : jsstring :=
  match d_sessionId d with
  | Some (c :: s) => c :: s
  | _ =>
      let path := extractProjectPath d in
      let workingDir := d_workingDirectory d in
      let agent := d_userAgent d in
      let sessionKey :=
        if negb (truthy path) && negb (truthy workingDir) then
          lit "session_" ++ showNum seed ++ lit ":" ++ orElse agent (lit "unknown")
        else
          orElse path (lit "no-path") ++ lit ":"
            ++ orElse workingDir (lit "no-workdir") ++ lit ":"
            ++ orElse agent (lit "no-useragent")
      in
      simpleHash sessionKey
  end.

(** The refresh of an existing session in [registerSession]. *)
Definition refreshSession (now : Z) (d : SessionData) (path name : option jsstring)
    (s : SessionInfo) : SessionInfo :=
  let md := metadata s in
  mkSessionInfo (s_id s)
    (if truthy path then path else projectPath s)
    (if truthy path then name else projectName s)
    now true (utteranceQueue s)
    (mkMetadata
       (if truthy (d_workingDirectory d) then d_workingDirectory d else workingDirectory md)
       (if truthy (d_userAgent d) then d_userAgent d else userAgent md)
       (if truthy (d_clientVersion d) then d_clientVersion d else clientVersion md)).

(** [registerSession(sessionData)]; [seed] is the [Date.now()] read by
    [generateSessionId], [now] the [new Date()] stored as [lastActivity]. *)
Definition registerSession (seed now : Z) (d : SessionData) (sm : SessionManager)
    : jsstring * SessionManager :=
  let sessionId := generateSessionId seed d in
  let path := extractProjectPath d in
  let name := extractProjectName path in
  match mapGet sessionId (sessions sm) with
  | None =>
      let session :=
        mkSessionInfo sessionId path name now true []
          (mkMetadata (d_workingDirectory d) (d_userAgent d) (d_clientVersion d)) in
      (sessionId,
       mkSessionManager (mapSet sessionId session (sessions sm))
         (if negb (truthy (activeSessionId sm)) then Some sessionId
          else activeSessionId sm))
  | Some session =>
      (sessionId,
       mkSessionManager
         (mapSet sessionId (refreshSession now d path name session) (sessions sm))
         (activeSessionId sm))
  end.

(** [sort((a, b) => b.lastActivity.getTime() - a.lastActivity.getTime())] *)
Definition mostRecentFirst (a b : SessionInfo) : Z := lastActivity b - lastActivity a.

Definition getAllSessions (sm : SessionManager) : list SessionInfo :=
  jsSort mostRecentFirst (mapValues (sessions sm)).

Definition getSession (sessionId : jsstring) (sm : SessionManager) : option SessionInfo :=
  mapGet sessionId (sessions sm).

Definition getActiveSession (sm : SessionManager) : option SessionInfo :=
  match activeSessionId sm with
  | Some (c :: a) => mapGet (c :: a) (sessions sm)
  | _ => None
  end.

Definition setActiveSession (sessionId : jsstring) (sm : SessionManager)
    : bool * SessionManager :=
  match mapGet sessionId (sessions sm) with
  | Some session =>
      if isActive session then (true, mkSessionManager (sessions sm) (Some sessionId))
      else (false, sm)
  | None => (false, sm)
  end.

Definition getActiveUtteranceQueue (sm : SessionManager) : option InMemoryUtteranceQueue :=
  option_map utteranceQueue (getActiveSession sm).

Definition getUtteranceQueue (sessionId : jsstring) (sm : SessionManager)
    : option InMemoryUtteranceQueue :=
  option_map utteranceQueue (getSession sessionId sm).

(** [this.activeSessionId === sessionId] *)
Definition isActiveId (sm : SessionManager) (sessionId : jsstring) : bool :=
  match activeSessionId sm with
  | Some a => jseqb a sessionId
  | None => false
  end.

(** The election of a new active session: the first of the candidates, most
    recently active first. *)
Definition electActive (candidates : list SessionInfo) : option jsstring :=
  match jsSort mostRecentFirst candidates with
  | s :: _ => Some (s_id s)
  | [] => None
  end.

(** [markSessionInactive(sessionId)]; [now] is the value of [new Date()]. *)
Definition markSessionInactive (now : Z) (sessionId : jsstring) (sm : SessionManager)
    : SessionManager :=
  match mapGet sessionId (sessions sm) with
  | Some session =>
      let sessions' := mapSet sessionId (setIsActive false now session) (sessions sm) in
      if isActiveId sm sessionId then
        mkSessionManager sessions'
          (electActive
             (filter (fun s => isActive s && negb (jseqb (s_id s) sessionId))
                (mapValues sessions')))
      else mkSessionManager sessions' (activeSessionId sm)
  | None => sm
  end.

(** [removeSession(sessionId)] *)
Definition removeSession (sessionId : jsstring) (sm : SessionManager) : SessionManager :=
  match mapGet sessionId (sessions sm) with
  | Some _ =>
      let sessions' := mapDelete sessionId (sessions sm) in
      if isActiveId sm sessionId then
        mkSessionManager sessions'
          (electActive (filter (fun s => isActive s) (mapValues sessions')))
      else mkSessionManager sessions' (activeSessionId sm)
  | None => sm
  end.

(** [cleanupInactiveSessions()]; [now] is the value of [Date.now()]. *)
Definition cleanupInactiveSessions (now : Z) (sm : SessionManager) : SessionManager :=
  let thirtyMinutesAgo := now - 30 * 60 * 1000 in
  let sessionsToRemove :=
    map fst
      (filter (fun e => negb (isActive (snd e)) && (lastActivity (snd e) <? thirtyMinutesAgo))
         (sessions sm)) in
  fold_left (fun m sessionId => removeSession sessionId m) sessionsToRemove sm.

(* ================================================================== *)
(** * The server state ([unified-server.ts]) *)

(** Process-wide configuration, read once from the environment. *)
Record Config := mkConfig {
  AUTO_DELIVER_VOICE_INPUT : bool;
  AUTO_DELIVER_VOICE_INPUT_BEFORE_TOOLS : bool
}.

(** The configuration when no environment variable is set. *)
Definition defaultConfig : Config := mkConfig true false.

Definition WAIT_TIMEOUT_SECONDS : Z := 60.

Record VoicePreferences := mkPrefs {
  voiceResponsesEnabled : bool;
  voiceInputActive : bool
}.

(** What the server pushes to the connected clients or plays. *)
Inductive Notification :=
| NSpeak (text : jsstring) (sessionId sessionName : option jsstring)
| NWaitStatus (isWaiting : bool)
| NSound.

Record ServerState := mkState {
  sessionManager : SessionManager;
  queue : UtteranceQueue;
  lastToolUseTimestamp : option Z;
  lastSpeakTimestamp : option Z;
  voicePreferences : VoicePreferences;
  outbox : list Notification
}.

Definition initialState : ServerState :=
  mkState emptyManager [] None None (mkPrefs false false) [].

Definition withManager (sm : SessionManager) (st : ServerState) : ServerState :=
  mkState sm (queue st) (lastToolUseTimestamp st) (lastSpeakTimestamp st)
    (voicePreferences st) (outbox st).

Definition withQueue (q : UtteranceQueue) (st : ServerState) : ServerState :=
  mkState (sessionManager st) q (lastToolUseTimestamp st) (lastSpeakTimestamp st)
    (voicePreferences st) (outbox st).

Definition withLastToolUse (t : option Z) (st : ServerState) : ServerState :=
  mkState (sessionManager st) (queue st) t (lastSpeakTimestamp st)
    (voicePreferences st) (outbox st).

Definition withLastSpeak (t : option Z) (st : ServerState) : ServerState :=
  mkState (sessionManager st) (queue st) (lastToolUseTimestamp st) t
    (voicePreferences st) (outbox st).

Definition notify (n : Notification) (st : ServerState) : ServerState :=
  mkState (sessionManager st) (queue st) (lastToolUseTimestamp st)
    (lastSpeakTimestamp st) (voicePreferences st) (outbox st ++ [n]).

Definition notifyWaitStatus (isWaiting : bool) : ServerState -> ServerState :=
  notify (NWaitStatus isWaiting).

Definition playNotificationSound : ServerState -> ServerState := notify NSound.

(** [session.utteranceQueue.markDelivered(id)] on the session stored under
    [key]; nothing happens when there is no such session. *)
Definition markDeliveredInSession (key id : jsstring) (st : ServerState) : ServerState :=
  let sm := sessionManager st in
  match mapGet key (sessions sm) with
  | Some s =>
      withManager
        (mkSessionManager
           (mapSet key (setQueue (markDelivered id (utteranceQueue s)) s) (sessions sm))
           (activeSessionId sm))
        st
  | None => st
  end.

(** The sessions visited by [allSessions.forEach] under the test
    [!activeSession || session.id !== activeSession.id]. *)
Definition notTheActive (activeSession : option SessionInfo) (s : SessionInfo) : bool :=
  match activeSession with
  | None => true
  | Some a => negb (jseqb (s_id s) (s_id a))
  end.

(* ------------------------------------------------------------------ *)
(** ** [dequeueUtterancesCore] *)

Inductive SourceKind := global | session.

Record PendingEntry := mkEntry {
  utterance : Utterance;
  source : SourceKind;
  sessionId : option jsstring
}.

Record DequeueResult := mkDequeue {
  dq_success : bool;
  dq_error : option jsstring;
  dq_utterances : option (list (jsstring * Z))
}.

Definition sessionEntries (s : SessionInfo) : list PendingEntry :=
  map (fun u => mkEntry u session (Some (s_id s)))
    (withStatus pending (utteranceQueue s)).

Definition collectPending (st : ServerState) : list PendingEntry :=
  let sm := sessionManager st in
  let activeSession := getActiveSession sm in
  (match activeSession with
   | Some a => sessionEntries a
   | None => []
   end)
  ++ flat_map sessionEntries (filter (notTheActive activeSession) (getAllSessions sm))
  ++ map (fun u => mkEntry u global None) (withStatus pending (queue st)).

Definition entryNewestFirst (a b : PendingEntry) : Z :=
  u_timestamp (utterance b) - u_timestamp (utterance a).

(** The body of the [forEach] that marks one entry delivered in its queue. *)
Definition markEntry (st : ServerState) (e : PendingEntry) : ServerState :=
  match source e with
  | global => withQueue (markDelivered (u_id (utterance e)) (queue st)) st
  | session =>
      match sessionId e with
      | Some (c :: sid) => markDeliveredInSession (c :: sid) (u_id (utterance e)) st
      | _ => st
      end
  end.

Definition dequeueUtterancesCore (st : ServerState) : DequeueResult * ServerState :=
  if negb (voiceInputActive (voicePreferences st)) then
    (mkDequeue false
       (Some (lit "Voice input is not active. Cannot dequeue utterances when voice input is disabled."))
       None,
     st)
  else
    let allPendingUtterances := jsSort entryNewestFirst (collectPending st) in
    (mkDequeue true None
       (Some (map (fun e => (u_text (utterance e), u_timestamp (utterance e)))
                allPendingUtterances)),
     fold_left markEntry allPendingUtterances st).

(** [POST /api/dequeue-utterances]: the status code and the body. *)
Definition dequeueEndpoint (st : ServerState) : (Z * DequeueResult) * ServerState :=
  let (result, st') := dequeueUtterancesCore st in
  if negb (dq_success result) && truthy (dq_error result) then ((400, result), st')
  else ((200, result), st').

(* ------------------------------------------------------------------ *)
(** ** [waitForUtteranceCore] *)

Record WaitResult := mkWait {
  w_success : bool;
  w_error : option jsstring;
  w_utterances : option (list Utterance);
  w_message : option jsstring;
  w_count : option Z;
  w_waitTime : option Z
}.

(** One turn of the polling loop as the rest of the world drives it:
    [t_test] is the [Date.now()] read by the loop condition, [t_ret] the one
    read for [waitTime] if the turn returns, and [t_env] is what the other
    request handlers did to the state while the turn was suspended in its
    [await]s. *)
Record Tick := mkTick {
  t_test : Z;
  t_ret : Z;
  t_env : ServerState -> ServerState
}.

(** The pending utterances of every queue: active session, other sessions,
    legacy queue. *)
Definition collectPendingUtterances (st : ServerState) : list Utterance :=
  let sm := sessionManager st in
  let activeSession := getActiveSession sm in
  (match activeSession with
   | Some a => withStatus pending (utteranceQueue a)
   | None => []
   end)
  ++ flat_map (fun s => withStatus pending (utteranceQueue s))
       (filter (notTheActive activeSession) (getAllSessions sm))
  ++ withStatus pending (queue st).

(** The map entries behind [getAllSessions()], with their keys. *)
Definition getAllEntries (sm : SessionManager) : list (jsstring * SessionInfo) :=
  jsSort (fun a b => mostRecentFirst (snd a) (snd b)) (sessions sm).

Definition queueAt (key : jsstring) (st : ServerState) : UtteranceQueue :=
  match mapGet key (sessions (sessionManager st)) with
  | Some s => utteranceQueue s
  | None => []
  end.

(** The body of the [forEach] that marks one found utterance: the active
    session if it holds the id, else every other session that holds it, else
    the legacy queue. *)
Definition markFound (activeKey : option jsstring) (otherKeys : list jsstring)
    (st : ServerState) (u : Utterance) : ServerState :=
  let id := u_id u in
  let '(st1, marked1) :=
    match activeKey with
    | Some k =>
        if hasId id (queueAt k st) then (markDeliveredInSession k id st, true)
        else (st, false)
    | None => (st, false)
    end in
  let '(st2, marked2) :=
    if marked1 then (st1, true)
    else
      fold_left
        (fun acc k =>
           if hasId id (queueAt k (fst acc))
           then (markDeliveredInSession k id (fst acc), true)
           else acc)
        otherKeys (st1, false) in
  if marked2 then st2
  else if hasId id (queue st2) then withQueue (markDelivered id (queue st2)) st2
  else st2.

Definition maxWaitMs : Z := WAIT_TIMEOUT_SECONDS * 1000.

Fixpoint waitLoop (startTime : Z) (firstTime : bool) (ticks : list Tick)
    (st : ServerState) : option (WaitResult * ServerState) :=
  match ticks with
  | [] => None
  | t :: rest =>
      if t_test t - startTime <? maxWaitMs then
        if negb (voiceInputActive (voicePreferences st)) then
          Some (mkWait true None (Some []) (Some (lit "Voice input was deactivated"))
                  None (Some (t_ret t - startTime)),
                notifyWaitStatus false st)
        else
          let sm := sessionManager st in
          let activeSession := getActiveSession sm in
          let pendingUtterances := collectPendingUtterances st in
          if 0 <? len pendingUtterances then
            let sortedUtterances := jsSort oldestFirst pendingUtterances in
            let activeKey :=
              match activeSession with
              | Some _ => activeSessionId sm
              | None => None
              end in
            let otherKeys :=
              map fst (filter (fun e => notTheActive activeSession (snd e))
                         (getAllEntries sm)) in
            let st' := fold_left (markFound activeKey otherKeys) sortedUtterances st in
            Some (mkWait true None
                    (Some (map (setStatus delivered) sortedUtterances))
                    None (Some (len pendingUtterances))
                    (Some (t_ret t - startTime)),
                  notifyWaitStatus false st')
          else
            let st1 := if firstTime then playNotificationSound st else st in
            waitLoop startTime false rest (t_env t st1)
      else
        Some (mkWait true None (Some [])
                (Some (lit "No utterances found after waiting "
                         ++ showNum WAIT_TIMEOUT_SECONDS ++ lit " seconds."))
                None (Some maxWaitMs),
              notifyWaitStatus false st)
  end.

(** [waitForUtteranceCore()]; [startTime] is the first [Date.now()].  The
    result is [None] only when the schedule [ticks] ends before the loop
    does. *)
Definition waitForUtteranceCore (startTime : Z) (ticks : list Tick) (st : ServerState)
    : option (WaitResult * ServerState) :=
  if negb (voiceInputActive (voicePreferences st)) then
    Some (mkWait false
            (Some (lit "Voice input is not active. Cannot wait for utterances when voice input is disabled."))
            None None None None,
          st)
  else waitLoop startTime true ticks (notifyWaitStatus true st).

(** [POST /api/wait-for-utterances]: the status code and the body. *)
Definition waitEndpoint (startTime : Z) (ticks : list Tick) (st : ServerState)
    : option ((Z * WaitResult) * ServerState) :=
  match waitForUtteranceCore startTime ticks st with
  | Some (result, st') =>
      if negb (w_success result) && truthy (w_error result)
      then Some ((400, result), st')
      else Some ((200, result), st')
  | None => None
  end.

(* ------------------------------------------------------------------ *)
(** ** [handleHookRequest] *)

Inductive Action := tool | speak | wait | stop | postTool.

Definition action_eqb (a b : Action) : bool :=
  match a, b with
  | tool, tool | speak, speak | wait, wait | stop, stop | postTool, postTool => true
  | _, _ => false
  end.

Inductive Decision := approve | block.

Record HookResult := mkHook {
  decision : Decision;
  reason : option jsstring
}.

Definition newline : jsstring := [10].
Definition quote : jsstring := [34].

Definition getVoiceResponseReminder (st : ServerState) : jsstring :=
  if voiceResponsesEnabled (voicePreferences st) then
    newline ++ newline
      ++ lit "The user has enabled voice responses, so use the 'speak' tool to respond to the user's voice input before proceeding."
  else [].

(** [formatVoiceUtterances], on the [text] fields of its argument. *)
Definition formatVoiceUtterances (texts : list jsstring) (st : ServerState) : jsstring :=
  let utteranceTexts := join newline (map (fun t => quote ++ t ++ quote) texts) in
  lit "Assistant received voice input from the user (" ++ showNum (len texts)
    ++ lit " utterance" ++ (if len texts =? 1 then [] else lit "s") ++ lit "):"
    ++ newline ++ newline ++ utteranceTexts ++ getVoiceResponseReminder st.

(** Reason of the pending-utterance gate in manual mode. *)
Definition pendingReason (n : Z) : jsstring :=
  showNum n ++ lit " pending utterance(s) available. Use the dequeue_utterances tool to retrieve them.".

(** Reason of the delivered-but-unresponded gate. *)
Definition deliveredReason (n : Z) : jsstring :=
  showNum n ++ lit " delivered utterance(s) require voice response. Please use the speak tool to respond before proceeding.".

(** [voiceResponsesEnabled && lastToolUseTimestamp &&
     (!lastSpeakTimestamp || lastSpeakTimestamp < lastToolUseTimestamp)] *)
Definition mustSpeakAfterTool (responsesEnabled : bool) (st : ServerState) : bool :=
  responsesEnabled &&
  match lastToolUseTimestamp st with
  | Some toolUse =>
      match lastSpeakTimestamp st with
      | Some spoke => spoke <? toolUse
      | None => true
      end
  | None => false
  end.

(** The clock and the schedule a hook request runs under: [hc_now] is the
    [new Date()] stored as last tool use, [hc_waitStart] and [hc_ticks]
    drive the wait of the stop hook. *)
Record HookClock := mkClock {
  hc_now : Z;
  hc_waitStart : Z;
  hc_ticks : list Tick
}.

(** Steps 3 to 6 of [handleHookRequest], after the two gates. *)
Definition handleAction (cfg : Config) (clk : HookClock) (attemptedAction : Action)
    (responsesEnabled inputActive : bool) (st : ServerState)
    : option (HookResult * ServerState) :=
  match attemptedAction with
  | tool | postTool =>
      Some (mkHook approve None, withLastToolUse (Some (hc_now clk)) st)
  | wait =>
      if mustSpeakAfterTool responsesEnabled st then
        Some (mkHook block
                (Some (lit "Assistant must speak after using tools. Please use the speak tool to respond before waiting for utterances.")),
              st)
      else Some (mkHook approve None, st)
  | speak => Some (mkHook approve None, st)
  | stop =>
      if mustSpeakAfterTool responsesEnabled st then
        Some (mkHook block
                (Some (lit "Assistant must speak after using tools. Please use the speak tool to respond before proceeding.")),
              st)
      else if inputActive then
        if AUTO_DELIVER_VOICE_INPUT cfg then
          match waitForUtteranceCore (hc_waitStart clk) (hc_ticks clk) st with
          | Some (data, st') =>
              if negb (w_success data) && truthy (w_error data) then
                Some (mkHook approve (w_error data), st')
              else
                match w_utterances data with
                | Some (u :: us) =>
                    Some (mkHook block
                            (Some (formatVoiceUtterances (map u_text (u :: us)) st')),
                          st')
                | _ =>
                    Some (mkHook approve
                            (Some (orElse (w_message data)
                                     (lit "No utterances found during wait"))),
                          st')
                end
          | None => None
          end
        else
          Some (mkHook block
                  (Some (lit "Assistant tried to end its response, but voice input is active. Stopping is not allowed without first checking for voice input. Assistant should now use wait_for_utterance to check for voice input")),
                st)
      else Some (mkHook approve (Some (lit "No utterances since last timeout")), st)
  end.

(** Gate 2 and what follows it. *)
Definition deliveredGate (cfg : Config) (clk : HookClock) (attemptedAction : Action)
    (responsesEnabled inputActive : bool) (st : ServerState)
    : option (HookResult * ServerState) :=
  let deliveredUtterances := withStatus delivered (queue st) in
  if responsesEnabled && (0 <? len deliveredUtterances) then
    if action_eqb attemptedAction speak then Some (mkHook approve None, st)
    else Some (mkHook block (Some (deliveredReason (len deliveredUtterances))), st)
  else handleAction cfg clk attemptedAction responsesEnabled inputActive st.

(** [handleHookRequest(attemptedAction)].  The result is [None] only when
    the stop hook waits and the schedule ends before the wait does. *)
Definition handleHookRequest (cfg : Config) (clk : HookClock) (attemptedAction : Action)
    (st : ServerState) : option (HookResult * ServerState) :=
  let responsesEnabled := voiceResponsesEnabled (voicePreferences st) in
  let inputActive := voiceInputActive (voicePreferences st) in
  let pendingUtterances := withStatus pending (queue st) in
  if inputActive && (0 <? len pendingUtterances) then
    if AUTO_DELIVER_VOICE_INPUT cfg then
      if action_eqb attemptedAction tool
         && negb (AUTO_DELIVER_VOICE_INPUT_BEFORE_TOOLS cfg)
      then deliveredGate cfg clk attemptedAction responsesEnabled inputActive st
      else
        let (dequeueResult, st') := dequeueUtterancesCore st in
        match dq_utterances dequeueResult with
        | Some (u :: us) =>
            if dq_success dequeueResult then
              Some (mkHook block
                      (Some (formatVoiceUtterances (map fst (rev (u :: us))) st')),
                    st')
            else deliveredGate cfg clk attemptedAction responsesEnabled inputActive st'
        | _ => deliveredGate cfg clk attemptedAction responsesEnabled inputActive st'
        end
    else
      Some (mkHook block (Some (pendingReason (len pendingUtterances))), st)
  else deliveredGate cfg clk attemptedAction responsesEnabled inputActive st.

(* ------------------------------------------------------------------ *)
(** ** Requests: session registration and the hook endpoints *)

(** The fields of a request that the server reads. *)
Record Request := mkRequest {
  body_session_id : option jsstring;
  body_cwd : option jsstring;
  body_transcript_path : option jsstring;
  header_user_agent : option jsstring;
  header_x_claude_version : option jsstring;
  header_x_client_version : option jsstring
}.

(** [registerSessionFromRequest(req)]; [processCwd] is [process.cwd()]. *)
Definition sessionDataOfRequest (processCwd : jsstring) (req : Request) : SessionData :=
  mkSessionData
    (body_session_id req)
    None
    (Some (orElse (body_cwd req) processCwd))
    (header_user_agent req)
    (orElseOpt (header_x_claude_version req) (header_x_client_version req))
    (body_transcript_path req).

Definition registerSessionFromRequest (processCwd : jsstring) (seed now : Z)
    (req : Request) (st : ServerState) : jsstring * ServerState :=
  let (sessionId, sm) :=
    registerSession seed now (sessionDataOfRequest processCwd req) (sessionManager st) in
  (sessionId, withManager sm st).

(** [POST /api/hooks/...]: the session of the request is registered, then
    the decision is taken.  The routing table of instances and the
    WebSocket broadcast of the pre-speak endpoint are not modelled. *)
Definition hookEndpoint (cfg : Config) (processCwd : jsstring) (seed now : Z)
    (clk : HookClock) (attemptedAction : Action) (req : Request) (st : ServerState)
    : option (HookResult * ServerState) :=
  handleHookRequest cfg clk attemptedAction
    (snd (registerSessionFromRequest processCwd seed now req st)).

(* ------------------------------------------------------------------ *)
(** ** [POST /api/speak] *)

Inductive SpeakBody :=
| SpeakTextRequired
| SpeakDisabled
| SpeakOk (respondedCount : Z) (sessionId sessionName : option jsstring).

(** The session a spoken response is attributed to: the active session if
    it holds a delivered utterance, else the first session of
    [getAllSessions()] that does, else the legacy queue. *)
Definition speakingSession (st : ServerState) : option jsstring * option jsstring :=
  let sm := sessionManager st in
  let hasDelivered (q : UtteranceQueue) := 0 <? len (withStatus delivered q) in
  let fromActive :=
    match getActiveSession sm with
    | Some a =>
        if hasDelivered (utteranceQueue a) then (Some (s_id a), projectName a)
        else (None, None)
    | None => (None, None)
    end in
  let fromSessions :=
    if truthy (fst fromActive) then fromActive
    else
      match filter (fun s => hasDelivered (utteranceQueue s)) (getAllSessions sm) with
      | s :: _ => (Some (s_id s), projectName s)
      | [] => fromActive
      end in
  if truthy (fst fromSessions) then fromSessions
  else if hasDelivered (queue st) then (Some (lit "global"), Some (lit "Global Queue"))
  else fromSessions.

(** [deliveredUtterances.forEach(u => u.status = 'responded')] *)
Definition markResponded (q : UtteranceQueue) : UtteranceQueue :=
  map (fun u => if status_eqb (u_status u) delivered then setStatus responded u else u) q.

(** The handler: the status code, the body and the new state; [now] is the
    [new Date()] stored as last speak.  Writing to the clients is taken not
    to throw. *)
Definition speakHandler (now : Z) (text : option jsstring) (st : ServerState)
    : (Z * SpeakBody) * ServerState :=
  match text with
  | None => ((400, SpeakTextRequired), st)
  | Some t =>
      if textMissing text then ((400, SpeakTextRequired), st)
      else if negb (voiceResponsesEnabled (voicePreferences st)) then
        ((400, SpeakDisabled), st)
      else
        let (speakingSessionId, speakingSessionName) := speakingSession st in
        let st1 := notify (NSpeak t speakingSessionId speakingSessionName) st in
        let deliveredUtterances := withStatus delivered (queue st1) in
        let st2 := withQueue (markResponded (queue st1)) st1 in
        ((200, SpeakOk (len deliveredUtterances) speakingSessionId speakingSessionName),
         withLastSpeak (Some now) st2)
  end.

(* ================================================================== *)
(** * Predicates of the specification *)

(** Every queue of the process: the queue of each session, then the legacy
    global queue. *)
Definition allQueues (st : ServerState) : list UtteranceQueue :=
  map utteranceQueue (mapValues (sessions (sessionManager st))) ++ [queue st].

(** Some queue holds an utterance with status [s]. *)
Definition existsWithStatus (s : Status) (st : ServerState) : Prop :=
  exists q u, In q (allQueues st) /\ In u q /\ u_status u = s.

(** No queue holds a pending utterance. *)
Definition noPendingAnywhere (st : ServerState) : Prop :=
  forall q u, In q (allQueues st) -> In u q -> u_status u <> pending.

(** The keys of the registry are distinct, each session is stored under its
    own id, and no id is the empty string. *)
Definition registryWf (sm : SessionManager) : Prop :=
  NoDup (map fst (sessions sm))
  /\ Forall (fun e => s_id (snd e) = fst e /\ fst e <> []) (sessions sm).

(** Ids are unique within a queue. *)
Definition uniqueIds (q : UtteranceQueue) : Prop := NoDup (map u_id q).

Definition stateWf (st : ServerState) : Prop :=
  registryWf (sessionManager st) /\ Forall uniqueIds (allQueues st).

(** The active-session pointer is null or names a registered session whose
    [isActive] flag is set. *)
Definition activePointerValid (sm : SessionManager) : Prop :=
  activeSessionId sm = None
  \/ exists a s,
       activeSessionId sm = Some a
       /\ mapGet a (sessions sm) = Some s
       /\ isActive s = true.

(** A call on the registry, with the clock readings it makes. *)
Inductive RegistryCall :=
| CallRegister (seed now : Z) (d : SessionData)
| CallMarkInactive (now : Z) (sessionId : jsstring)
| CallRemove (sessionId : jsstring).

Definition applyCall (sm : SessionManager) (c : RegistryCall) : SessionManager :=
  match c with
  | CallRegister seed now d => snd (registerSession seed now d sm)
  | CallMarkInactive now sessionId => markSessionInactive now sessionId sm
  | CallRemove sessionId => removeSession sessionId sm
  end.

Definition runCalls (calls : list RegistryCall) (sm : SessionManager) : SessionManager :=
  fold_left applyCall calls sm.

(** Session data without any hint. *)
Definition noHints : SessionData := mkSessionData None None None None None None.

(** A list is in descending order of [key] when each element relates so to
    all that follow it. *)
Definition keyDescending {A : Type} (key : A -> Z) (a b : A) : Prop :=
  key b <= key a.


(** Session data that carries only an explicit session id. *)
Definition dataWithId (id : jsstring) : SessionData :=
  mkSessionData (Some id) None None None None None.

(** A registry in which session [s1] was registered at time 10 and
    deactivated at time 20. *)
Definition deactivatedRegistry : SessionManager :=
  markSessionInactive 20 (lit "s1")
    (snd (registerSession 0 10 (dataWithId (lit "s1")) emptyManager)).

(* ------------------------------------------------------------------ *)
(** ** Example states *)

Definition utt (id text : string) (time : Z) (s : Status) : Utterance :=
  mkUtterance (lit id) (lit text) time s.

(** A registry with the single active session [s1] holding the queue [q]. *)
Definition registryWith (q : InMemoryUtteranceQueue) : SessionManager :=
  mkSessionManager
    [(lit "s1",
      mkSessionInfo (lit "s1") None None 10 true q (mkMetadata None None None))]
    (Some (lit "s1")).

(** Voice input is active; the only utterance is pending, in the queue of
    session [s1]; the legacy queue is empty. *)
Definition pendingInSession : ServerState :=
  mkState (registryWith [utt "u1" "hello" 100 pending]) [] None None
    (mkPrefs false true) [].

(** Voice responses are enabled; the only utterance is delivered, in the
    queue of session [s1]; the legacy queue is empty. *)
Definition deliveredInSession : ServerState :=
  mkState (registryWith [utt "u1" "hello" 100 delivered]) [] None None
    (mkPrefs true false) [].

(** Voice input is active and voice responses are enabled; the legacy queue
    holds one delivered and one pending utterance. *)
Definition pendingAndDelivered : ServerState :=
  mkState emptyManager
    [utt "u1" "first" 100 delivered; utt "u2" "second" 200 pending]
    None None (mkPrefs true true) [].

(** Voice input is active; the legacy queue holds one pending utterance. *)
Definition onePending : ServerState :=
  mkState emptyManager [utt "u1" "hello" 100 pending] None None
    (mkPrefs false true) [].

(** Auto-delivery disabled. *)
Definition manualConfig : Config := mkConfig false false.

(** Auto-delivery enabled, also before tools. *)
Definition eagerConfig : Config := mkConfig true true.

(** A clock for requests that do not wait. *)
Definition plainClock : HookClock := mkClock 1000 1000 [].

(** The texts that the auto-delivery of the pending gate quotes: those of
    every pending utterance of every queue, oldest first. *)
Definition autoDeliveredTexts (st : ServerState) : list jsstring :=
  map (fun e => u_text (utterance e))
    (rev (jsSort entryNewestFirst (collectPending st))).

(* ------------------------------------------------------------------ *)
(** ** The effect of a dequeue *)

(** A pending utterance becomes delivered; any other is left as it is. *)
Definition deliverPending (u : Utterance) : Utterance :=
  if status_eqb (u_status u) pending then setStatus delivered u else u.

(** The state in which every pending utterance of every queue has been
    marked delivered in the queue that holds it, and nothing else has
    changed. *)
Definition deliverEverywhere (st : ServerState) : ServerState :=
  let sm := sessionManager st in
  mkState
    (mkSessionManager
       (map (fun e =>
               (fst e, setQueue (map deliverPending (utteranceQueue (snd e))) (snd e)))
          (sessions sm))
       (activeSessionId sm))
    (map deliverPending (queue st))
    (lastToolUseTimestamp st) (lastSpeakTimestamp st) (voicePreferences st)
    (outbox st).

(** The pending utterances of every queue. *)
Definition allPending (st : ServerState) : list Utterance :=
  flat_map (withStatus pending) (allQueues st).

(** [a] may come before [b] in a newest-first list. *)
Definition notOlder (a b : Utterance) : Prop := u_timestamp b <= u_timestamp a.

(** The ids marked in the legacy queue by a run of [markEntry]. *)
Definition globalIds (es : list PendingEntry) : list jsstring :=
  map (fun e => u_id (utterance e))
    (filter (fun e => match source e with global => true | session => false end) es).

(** The ids marked in the queue of the session stored under [k]. *)
Definition sessionIds (k : jsstring) (es : list PendingEntry) : list jsstring :=
  map (fun e => u_id (utterance e))
    (filter (fun e =>
               match source e, sessionId e with
               | session, Some (c :: sid) => jseqb (c :: sid) k
               | _, _ => false
               end) es).

Definition markAll (ids : list jsstring) (q : UtteranceQueue) : UtteranceQueue :=
  fold_left (fun q' i => markDelivered i q') ids q.

(** The state after a run of [markEntry], queue by queue. *)
Definition markedState (es : list PendingEntry) (st : ServerState) : ServerState :=
  let sm := sessionManager st in
  mkState
    (mkSessionManager
       (map (fun e =>
               (fst e,
                setQueue (markAll (sessionIds (fst e) es) (utteranceQueue (snd e)))
                  (snd e)))
          (sessions sm))
       (activeSessionId sm))
    (markAll (globalIds es) (queue st))
    (lastToolUseTimestamp st) (lastSpeakTimestamp st) (voicePreferences st)
    (outbox st).

(** The utterances with an id of [ids] set to delivered. *)
Definition deliverIds (ids : list jsstring) (q : UtteranceQueue) : UtteranceQueue :=
  map (fun u => if existsb (jseqb (u_id u)) ids then setStatus delivered u else u) q.

(** The sessions in the order in which [dequeueUtterancesCore] visits
    them: the active session, then the others, most recently active
    first. *)
Definition visitedSessions (sm : SessionManager) : list SessionInfo :=
  (match getActiveSession sm with Some a => [a] | None => [] end)
  ++ filter (notTheActive (getActiveSession sm)) (getAllSessions sm).

(** A session queue with a pending and a delivered utterance, and a legacy
    queue with a pending one; voice input is active. *)
Definition pendingInTwoQueues : ServerState :=
  mkState
    (registryWith [utt "a1" "one" 100 pending; utt "a2" "two" 300 delivered])
    [utt "g1" "three" 200 pending]
    None None (mkPrefs false true) [].

(* ------------------------------------------------------------------ *)
(** ** The outcomes of a wait *)

Definition inactiveWaitResult : WaitResult :=
  mkWait false
    (Some (lit "Voice input is not active. Cannot wait for utterances when voice input is disabled."))
    None None None None.

Definition deactivatedResult (waitTime : Z) : WaitResult :=
  mkWait true None (Some []) (Some (lit "Voice input was deactivated")) None
    (Some waitTime).

Definition timeoutResult : WaitResult :=
  mkWait true None (Some [])
    (Some (lit "No utterances found after waiting 60 seconds.")) None (Some 60000).

(** What a turn that finds nothing leaves behind: the sound on the first
    turn, then whatever the other handlers did during the sleep. *)
Definition afterTurn (firstTime : bool) (t : Tick) (st : ServerState) : ServerState :=
  t_env t (if firstTime then playNotificationSound st else st).

(** The state in which the loop stands after the turns [ticks], none of
    which has returned. *)
Fixpoint afterQuiet (firstTime : bool) (ticks : list Tick) (st : ServerState)
    : ServerState :=
  match ticks with
  | [] => st
  | t :: rest => afterQuiet false rest (afterTurn firstTime t st)
  end.

(** Each of the turns [ticks] starts before the timeout, sees voice input
    active and finds no pending utterance in any queue. *)
Fixpoint quietTurns (startTime : Z) (firstTime : bool) (ticks : list Tick)
    (st : ServerState) : Prop :=
  match ticks with
  | [] => True
  | t :: rest =>
      t_test t - startTime < maxWaitMs
      /\ voiceInputActive (voicePreferences st) = true
      /\ collectPendingUtterances st = []
      /\ quietTurns startTime false rest (afterTurn firstTime t st)
  end.

(** A tick that changes nothing and reads the clock at [now]. *)
Definition idleTick (now : Z) : Tick := mkTick now now (fun st => st).

(** A tick during which the browser stops listening. *)
Definition micOffTick (now : Z) : Tick :=
  mkTick now now
    (fun st =>
       mkState (sessionManager st) (queue st) (lastToolUseTimestamp st)
         (lastSpeakTimestamp st)
         (mkPrefs (voiceResponsesEnabled (voicePreferences st)) false)
         (outbox st)).

(** Voice input is active and every queue is empty. *)
Definition listening : ServerState :=
  mkState emptyManager [] None None (mkPrefs false true) [].

(** Voice responses are enabled; the legacy queue and the queue of session
    [s1] each hold a delivered utterance. *)
Definition deliveredInBoth : ServerState :=
  mkState (registryWith [utt "a1" "one" 100 delivered])
    [utt "g1" "two" 200 delivered; utt "g2" "three" 300 pending]
    None None (mkPrefs true false) [].

(* ================================================================== *)
(** * Further definitions for the properties of the code *)

(** A character of [Number.prototype.toString(36)]: [0-9] or [a-z]. *)
Definition isBase36 (c : Z) : Prop := 48 <= c <= 57 \/ 97 <= c <= 122.

(** Any mutating call on the registry, with the clock readings it makes. *)
Inductive RegistryOp :=
| OpRegister (seed now : Z) (d : SessionData)
| OpSetActive (sessionId : jsstring)
| OpMarkInactive (now : Z) (sessionId : jsstring)
| OpRemove (sessionId : jsstring)
| OpCleanup (now : Z).

Definition applyOp (sm : SessionManager) (op : RegistryOp) : SessionManager :=
  match op with
  | OpRegister seed now d => snd (registerSession seed now d sm)
  | OpSetActive sessionId => snd (setActiveSession sessionId sm)
  | OpMarkInactive now sessionId => markSessionInactive now sessionId sm
  | OpRemove sessionId => removeSession sessionId sm
  | OpCleanup now => cleanupInactiveSessions now sm
  end.

Definition runOps (ops : list RegistryOp) (sm : SessionManager) : SessionManager :=
  fold_left applyOp ops sm.

(** The entries that [cleanupInactiveSessions] removes at time [now]. *)
Definition expired (now : Z) (e : jsstring * SessionInfo) : bool :=
  negb (isActive (snd e)) && (lastActivity (snd e) <? now - 30 * 60 * 1000).

(** [a] may come before [b] in a most-recent-first list of sessions. *)
Definition notLessRecent (a b : SessionInfo) : Prop := lastActivity b <= lastActivity a.

(** A registry with an expired session [old], a recent inactive session
    [idle] and the active session [live], read at time 2000000. *)
Definition agedRegistry : SessionManager :=
  mkSessionManager
    [(lit "old", mkSessionInfo (lit "old") None None 100 false [] (mkMetadata None None None));
     (lit "idle", mkSessionInfo (lit "idle") None None 1900000 false [] (mkMetadata None None None));
     (lit "live", mkSessionInfo (lit "live") None None 50 true [] (mkMetadata None None None))]
    (Some (lit "live")).

(** A registry with the active sessions [a] (pointer), [b] and [c], last
    active at 10, 30 and 20. *)
Definition threeSessions : SessionManager :=
  mkSessionManager
    [(lit "a", mkSessionInfo (lit "a") None None 10 true [] (mkMetadata None None None));
     (lit "b", mkSessionInfo (lit "b") None None 30 true [] (mkMetadata None None None));
     (lit "c", mkSessionInfo (lit "c") None None 20 true [] (mkMetadata None None None))]
    (Some (lit "a")).

(* ------------------------------------------------------------------ *)
(** ** Further endpoints of [unified-server.ts] *)

Definition withPrefs (p : VoicePreferences) (st : ServerState) : ServerState :=
  mkState (sessionManager st) (queue st) (lastToolUseTimestamp st)
    (lastSpeakTimestamp st) p (outbox st).

(** [POST /api/voice-preferences]; [enabled] is [!!voiceResponsesEnabled]. *)
Definition setVoiceResponses (enabled : bool) (st : ServerState) : ServerState :=
  withPrefs (mkPrefs enabled (voiceInputActive (voicePreferences st))) st.

(** [POST /api/voice-input-state]; [active] is [!!active]. *)
Definition setVoiceInput (active : bool) (st : ServerState) : ServerState :=
  withPrefs (mkPrefs (voiceResponsesEnabled (voicePreferences st)) active) st.

(** The [close] handler of [GET /api/tts-events]; [remaining] is the size
    of [ttsClients] after the client has been deleted from it. *)
Definition onClientClose (remaining : nat) (st : ServerState) : ServerState :=
  match remaining with
  | O =>
      if voiceInputActive (voicePreferences st)
         || voiceResponsesEnabled (voicePreferences st)
      then withPrefs (mkPrefs false false) st
      else st
  | S _ => st
  end.

(** [GET /api/has-pending-utterances]: [hasPending] and [pendingCount]. *)
Definition hasPendingUtterances (st : ServerState) : bool * Z :=
  let pendingCount := len (withStatus pending (queue st)) in
  (0 <? pendingCount, pendingCount).

(** [GET /api/utterances/status]: [total], [pending], [delivered]. *)
Definition utterancesStatus (st : ServerState) : Z * Z * Z :=
  (len (queue st), len (withStatus pending (queue st)),
   len (withStatus delivered (queue st))).

(** [DELETE /api/utterances]: the cleared count and the new state. *)
Definition clearUtterances (st : ServerState) : Z * ServerState :=
  (len (queue st), withQueue (clear (queue st)) st).

Inductive ValidateBody :=
| VInvalidAction
| VDenied (requiredAction reason : jsstring)
| VAllowed.

(** [POST /api/validate-action]: the status code and the body. *)
Definition validateAction (action : option jsstring) (st : ServerState)
    : Z * ValidateBody :=
  let isToolUse := match action with Some a => jseqb a (lit "tool-use") | None => false end in
  let isStop := match action with Some a => jseqb a (lit "stop") | None => false end in
  if negb (truthy action) || negb (isToolUse || isStop) then (400, VInvalidAction)
  else
    let pendingUtterances := withStatus pending (queue st) in
    if voiceInputActive (voicePreferences st) && (0 <? len pendingUtterances) then
      (200,
       VDenied (lit "dequeue_utterances")
         (showNum (len pendingUtterances)
            ++ lit " pending utterance(s) must be dequeued first. Please use dequeue_utterances to process them."))
    else
      let deliveredUtterances := withStatus delivered (queue st) in
      if voiceResponsesEnabled (voicePreferences st) && (0 <? len deliveredUtterances) then
        (200, VDenied (lit "speak") (deliveredReason (len deliveredUtterances)))
      else if isStop && voiceInputActive (voicePreferences st) && (0 <? len (queue st)) then
        (200,
         VDenied (lit "wait_for_utterance")
           (lit "Assistant tried to end its response. Stopping is not allowed without first checking for voice input. Assistant should now use wait_for_utterance to check for voice input"))
      else (200, VAllowed).














(** Every utterance of every queue has an id of its own. *)
Definition idsDistinctEverywhere (st : ServerState) : Prop :=
  NoDup (map u_id (concat (allQueues st))).

(** [a] may come before [b] in an oldest-first list. *)
Definition notNewer (a b : Utterance) : Prop := u_timestamp a <= u_timestamp b.

(** The ids held by each session queue, by key, and by the legacy queue. *)
Definition idShape (st : ServerState)
    : list (jsstring * list jsstring) * list jsstring :=
  (map (fun e => (fst e, map u_id (utteranceQueue (snd e))))
     (sessions (sessionManager st)),
   map u_id (queue st)).

(** The body of the inner [forEach] of [markFound] over the other
    sessions. *)
Definition markOther (id : jsstring) (acc : ServerState * bool) (k : jsstring)
    : ServerState * bool :=
  if hasId id (queueAt k (fst acc))
  then (markDeliveredInSession k id (fst acc), true)
  else acc.

(** The comparison of [waitForUtteranceCore], on entries. *)
Definition entryOldestFirst (a b : PendingEntry) : Z :=
  oldestFirst (utterance a) (utterance b).

(** The keys that [waitForUtteranceCore] passes to [markFound]. *)
Definition waitActiveKey (sm : SessionManager) : option jsstring :=
  match getActiveSession sm with
  | Some _ => activeSessionId sm
  | None => None
  end.

Definition waitOtherKeys (sm : SessionManager) : list jsstring :=
  map fst (filter (fun e => notTheActive (getActiveSession sm) (snd e))
             (getAllEntries sm)).
(* ================================================================== *)
(** * Strings, maps and sorting: basic facts *)

Lemma jseqb_eq : forall a b, jseqb a b = true <-> a = b.
Proof.
  induction a as [|x a IH]; destruct b as [|y b]; simpl; split; intro H;
    try reflexivity; try discriminate.
  - apply andb_true_iff in H. destruct H as [Hx Ha].
    apply Z.eqb_eq in Hx. apply IH in Ha. congruence.
  - inversion H; subst. rewrite Z.eqb_refl. simpl. apply IH. reflexivity.
Qed.

Lemma jseqb_refl : forall a, jseqb a a = true.
Proof. intro a. apply jseqb_eq. reflexivity. Qed.

Lemma jseqb_neq : forall a b, jseqb a b = false <-> a <> b.
Proof.
  intros a b. split.
  - intros H E. apply jseqb_eq in E. congruence.
  - intro N. destruct (jseqb a b) eqn:E; [|reflexivity].
    apply jseqb_eq in E. contradiction.
Qed.

Lemma jseqb_sym : forall a b, jseqb a b = jseqb b a.
Proof.
  intros a b. destruct (jseqb a b) eqn:E.
  - apply jseqb_eq in E. subst. symmetry. apply jseqb_refl.
  - symmetry. apply jseqb_neq. apply jseqb_neq in E. congruence.
Qed.

Lemma sortInsert_perm : forall (A : Type) (cmp : A -> A -> Z) x l,
  Permutation (sortInsert cmp x l) (x :: l).
Proof.
  intros A cmp x l. induction l as [|y r IH]; simpl.
  - apply Permutation_refl.
  - destruct (cmp x y <=? 0).
    + apply Permutation_refl.
    + eapply Permutation_trans; [apply perm_skip, IH | apply perm_swap].
Qed.

Lemma jsSort_perm : forall (A : Type) (cmp : A -> A -> Z) l,
  Permutation (jsSort cmp l) l.
Proof.
  intros A cmp l. induction l as [|x r IH]; simpl.
  - apply perm_nil.
  - eapply Permutation_trans; [apply sortInsert_perm | apply perm_skip, IH].
Qed.

Lemma jsSort_In : forall (A : Type) (cmp : A -> A -> Z) l x,
  In x (jsSort cmp l) <-> In x l.
Proof.
  intros A cmp l x. split; apply Permutation_in.
  - apply jsSort_perm.
  - apply Permutation_sym, jsSort_perm.
Qed.

Lemma mapGet_In : forall k m s, mapGet k m = Some s -> In (k, s) m.
Proof.
  intros k m s. induction m as [|[k' v] r IH]; simpl; intro H; [discriminate|].
  destruct (jseqb k' k) eqn:E.
  - apply jseqb_eq in E. inversion H; subst. left. reflexivity.
  - right. apply IH, H.
Qed.

Lemma mapGet_None_keys : forall k m, mapGet k m = None -> ~ In k (map fst m).
Proof.
  intros k m. induction m as [|[k' v] r IH]; simpl; intros H N; [contradiction|].
  destruct (jseqb k' k) eqn:E; [discriminate|].
  destruct N as [N|N].
  - apply jseqb_neq in E. contradiction.
  - apply (IH H N).
Qed.

Lemma In_mapGet : forall k s m,
  NoDup (map fst m) -> In (k, s) m -> mapGet k m = Some s.
Proof.
  intros k s m. induction m as [|[k' v] r IH]; simpl; intros ND H; [contradiction|].
  inversion ND as [|? ? Hnot ND']; subst.
  destruct H as [H|H].
  - inversion H; subst. rewrite jseqb_refl. reflexivity.
  - destruct (jseqb k' k) eqn:E.
    + apply jseqb_eq in E. subst. exfalso. apply Hnot.
      apply (in_map fst) in H. exact H.
    + apply IH; assumption.
Qed.

Lemma mapGet_mapSet_same : forall k v m, mapGet k (mapSet k v m) = Some v.
Proof.
  intros k v m. induction m as [|[k' v'] r IH]; simpl.
  - rewrite jseqb_refl. reflexivity.
  - destruct (jseqb k' k) eqn:E; simpl; rewrite E; [reflexivity | exact IH].
Qed.

Lemma mapGet_mapSet_other : forall k k2 v m,
  k2 <> k -> mapGet k2 (mapSet k v m) = mapGet k2 m.
Proof.
  intros k k2 v m N. induction m as [|[k' v'] r IH]; simpl.
  - destruct (jseqb k k2) eqn:E; [|reflexivity].
    apply jseqb_eq in E. congruence.
  - destruct (jseqb k' k) eqn:E; simpl.
    + apply jseqb_eq in E. subst k'.
      destruct (jseqb k k2) eqn:E2; [|reflexivity].
      apply jseqb_eq in E2. congruence.
    + rewrite IH. reflexivity.
Qed.

Lemma mapGet_mapDelete_other : forall k k2 m,
  k2 <> k -> mapGet k2 (mapDelete k m) = mapGet k2 m.
Proof.
  intros k k2 m N. induction m as [|[k' v'] r IH]; simpl; [reflexivity|].
  destruct (jseqb k' k) eqn:E; simpl.
  - apply jseqb_eq in E. subst k'.
    destruct (jseqb k k2) eqn:E2; [|reflexivity].
    apply jseqb_eq in E2. congruence.
  - rewrite IH. reflexivity.
Qed.

Lemma mapSet_keys_present : forall k v s m,
  mapGet k m = Some s -> map fst (mapSet k v m) = map fst m.
Proof.
  intros k v s m. induction m as [|[k' v'] r IH]; simpl; intro H; [discriminate|].
  destruct (jseqb k' k) eqn:E; simpl; [reflexivity|].
  rewrite IH by exact H. reflexivity.
Qed.

Lemma mapSet_keys_absent : forall k v m,
  mapGet k m = None -> map fst (mapSet k v m) = map fst m ++ [k].
Proof.
  intros k v m. induction m as [|[k' v'] r IH]; simpl; intro H; [reflexivity|].
  destruct (jseqb k' k) eqn:E; [discriminate|]. simpl.
  rewrite IH by exact H. reflexivity.
Qed.

Lemma mapSet_In : forall k v m e,
  In e (mapSet k v m) -> In e m \/ snd e = v /\ (fst e = k).
Proof.
  intros k v m e. induction m as [|[k' v'] r IH]; simpl; intro H.
  - destruct H as [H|[]]. subst e. right. split; reflexivity.
  - destruct (jseqb k' k) eqn:E; simpl in H.
    + apply jseqb_eq in E. subst k'. destruct H as [H|H].
      * subst e. right. split; reflexivity.
      * left. right. exact H.
    + destruct H as [H|H].
      * left. left. exact H.
      * destruct (IH H) as [H'|H']; [left; right; exact H' | right; exact H'].
Qed.

Lemma mapDelete_In : forall k m e, In e (mapDelete k m) -> In e m.
Proof.
  intros k m e. induction m as [|[k' v'] r IH]; simpl; intro H; [contradiction|].
  destruct (jseqb k' k); simpl in H.
  - right. exact H.
  - destruct H as [H|H]; [left; exact H | right; apply IH, H].
Qed.

Lemma mapDelete_NoDup : forall k m,
  NoDup (map fst m) -> NoDup (map fst (mapDelete k m)).
Proof.
  intros k m. induction m as [|[k' v'] r IH]; simpl; intro ND; [constructor|].
  inversion ND as [|? ? Hnot ND']; subst.
  destruct (jseqb k' k); simpl; [exact ND'|].
  constructor; [|apply IH, ND'].
  intro Hin. apply Hnot. apply in_map_iff in Hin. destruct Hin as [e [He Hin]].
  apply mapDelete_In in Hin. apply in_map_iff. exists e. split; assumption.
Qed.

Lemma sortInsert_map : forall (A B : Type) (f : A -> B) (cmp : B -> B -> Z) x l,
  map f (sortInsert (fun a b => cmp (f a) (f b)) x l) = sortInsert cmp (f x) (map f l).
Proof.
  intros A B f cmp x l. induction l as [|y r IH]; simpl; [reflexivity|].
  destruct (cmp (f x) (f y) <=? 0); simpl; [reflexivity | rewrite IH; reflexivity].
Qed.

Lemma jsSort_map : forall (A B : Type) (f : A -> B) (cmp : B -> B -> Z) l,
  map f (jsSort (fun a b => cmp (f a) (f b)) l) = jsSort cmp (map f l).
Proof.
  intros A B f cmp l. induction l as [|x r IH]; simpl; [reflexivity|].
  rewrite sortInsert_map, IH. reflexivity.
Qed.

(** The sorted entries carry the sessions of [getAllSessions], in its
    order. *)
Lemma getAllEntries_values : forall sm,
  map snd (getAllEntries sm) = getAllSessions sm.
Proof.
  intro sm. unfold getAllEntries, getAllSessions, mapValues.
  apply (jsSort_map _ _ snd mostRecentFirst).
Qed.

(** [add] with an id that the queue does not hold keeps the ids unique. *)
Lemma add_uniqueIds : forall uuid now text timestamp q,
  uniqueIds q -> ~ In uuid (map u_id q) ->
  uniqueIds (snd (add uuid now text timestamp q)).
Proof.
  intros uuid now text timestamp q U Hfresh. unfold add, uniqueIds in *. simpl.
  rewrite map_app. simpl.
  apply (Permutation_NoDup (Permutation_cons_append (map u_id q) uuid)).
  constructor; assumption.
Qed.

(* ================================================================== *)
(** * The session registry: well-formedness and the active pointer *)

Lemma generateSessionId_nonempty : forall seed d, generateSessionId seed d <> [].
Proof.
  intros seed d. unfold generateSessionId.
  destruct (d_sessionId d) as [[|c s]|]; try discriminate;
    unfold simpleHash; simpl; discriminate.
Qed.

Lemma registryWf_set_present : forall k v s m a a',
  registryWf (mkSessionManager m a) ->
  mapGet k m = Some s ->
  s_id v = s_id s ->
  registryWf (mkSessionManager (mapSet k v m) a').
Proof.
  intros k v s m a a' [ND F] Hget Hid. unfold registryWf in *. simpl in *. split.
  - rewrite (mapSet_keys_present k v s m Hget). exact ND.
  - apply Forall_forall. intros e He.
    rewrite Forall_forall in F.
    destruct (mapSet_In _ _ _ _ He) as [Hin|[Hv Hk]].
    + apply F, Hin.
    + specialize (F (k, s) (mapGet_In _ _ _ Hget)). simpl in F.
      rewrite Hv, Hk, Hid. exact F.
Qed.

Lemma registryWf_set_absent : forall k v m a a',
  registryWf (mkSessionManager m a) ->
  mapGet k m = None ->
  s_id v = k -> k <> [] ->
  registryWf (mkSessionManager (mapSet k v m) a').
Proof.
  intros k v m a a' [ND F] Hget Hid Hne. unfold registryWf in *. simpl in *. split.
  - rewrite (mapSet_keys_absent k v m Hget).
    apply NoDup_app_remove_l with (l := @nil jsstring).
    simpl. apply Permutation_NoDup with (l := k :: map fst m).
    + apply Permutation_cons_append.
    + constructor; [apply mapGet_None_keys, Hget | exact ND].
  - apply Forall_forall. intros e He.
    rewrite Forall_forall in F.
    destruct (mapSet_In _ _ _ _ He) as [Hin|[Hv Hk]].
    + apply F, Hin.
    + rewrite Hv, Hk. split; assumption.
Qed.

Lemma registryWf_delete : forall k m a a',
  registryWf (mkSessionManager m a) ->
  registryWf (mkSessionManager (mapDelete k m) a').
Proof.
  intros k m a a' [ND F]. unfold registryWf in *. simpl in *. split.
  - apply mapDelete_NoDup, ND.
  - apply Forall_forall. intros e He. rewrite Forall_forall in F.
    apply F. eapply mapDelete_In, He.
Qed.

Lemma registerSession_wf : forall seed now d sm,
  registryWf sm -> registryWf (snd (registerSession seed now d sm)).
Proof.
  intros seed now d [m a] Hwf. unfold registerSession. simpl.
  destruct (mapGet (generateSessionId seed d) m) as [s|] eqn:Hget; simpl.
  - eapply registryWf_set_present; eauto.
  - eapply registryWf_set_absent; eauto. apply generateSessionId_nonempty.
Qed.

Lemma markSessionInactive_wf : forall now k sm,
  registryWf sm -> registryWf (markSessionInactive now k sm).
Proof.
  intros now k [m a] Hwf. unfold markSessionInactive. simpl.
  destruct (mapGet k m) as [s|] eqn:Hget; [|exact Hwf].
  destruct (isActiveId _ k); eapply registryWf_set_present; eauto.
Qed.

Lemma removeSession_wf : forall k sm,
  registryWf sm -> registryWf (removeSession k sm).
Proof.
  intros k [m a] Hwf. unfold removeSession. simpl.
  destruct (mapGet k m) as [s|] eqn:Hget; [|exact Hwf].
  destruct (isActiveId _ k); eapply registryWf_delete; eauto.
Qed.

Lemma electActive_In : forall candidates a,
  electActive candidates = Some a ->
  exists s, In s candidates /\ s_id s = a.
Proof.
  intros candidates a. unfold electActive.
  destruct (jsSort mostRecentFirst candidates) as [|s r] eqn:E; [discriminate|].
  intro H. inversion H; subst. exists s. split; [|reflexivity].
  apply (jsSort_In _ mostRecentFirst). rewrite E. left. reflexivity.
Qed.

(** A session elected among the active values of a well-formed map is
    registered under its id and active. *)
Lemma elected_valid : forall m a0 (keep : SessionInfo -> bool) a,
  registryWf (mkSessionManager m a0) ->
  (forall s, keep s = true -> isActive s = true) ->
  electActive (filter keep (mapValues m)) = Some a ->
  exists s, mapGet a m = Some s /\ isActive s = true.
Proof.
  intros m a0 keep a [ND F] Hkeep Hel. simpl in *.
  destruct (electActive_In _ _ Hel) as [s [Hin Hid]].
  apply filter_In in Hin. destruct Hin as [Hin Hk].
  unfold mapValues in Hin. apply in_map_iff in Hin.
  destruct Hin as [[k v] [Hv Hin]]. simpl in Hv. subst v.
  rewrite Forall_forall in F. destruct (F _ Hin) as [Hkey _]. simpl in Hkey.
  exists s. split; [|apply Hkeep, Hk].
  apply In_mapGet; [exact ND|]. rewrite <- Hid, Hkey. exact Hin.
Qed.

Lemma isActiveId_true : forall sm k,
  isActiveId sm k = true -> activeSessionId sm = Some k.
Proof.
  intros [m a] k. unfold isActiveId. simpl.
  destruct a as [a|]; [|discriminate]. intro H. apply jseqb_eq in H. congruence.
Qed.

Lemma isActiveId_false : forall sm k a,
  isActiveId sm k = false -> activeSessionId sm = Some a -> a <> k.
Proof.
  intros [m a0] k a. unfold isActiveId. simpl. intros H E. subst a0.
  apply jseqb_neq in H. exact H.
Qed.

Lemma registerSession_pointer : forall seed now d sm,
  activePointerValid sm ->
  activePointerValid (snd (registerSession seed now d sm)).
Proof.
  intros seed now d [m a] Hv. unfold registerSession. simpl.
  set (sid := generateSessionId seed d).
  destruct (mapGet sid m) as [s|] eqn:Hget; simpl.
  - destruct Hv as [Hn|[a1 [s1 [Ha [Hg Hact]]]]]; simpl in *.
    + left. exact Hn.
    + right. exists a1. subst a.
      destruct (jseqb a1 sid) eqn:E.
      * apply jseqb_eq in E. subst a1. eexists. split; [reflexivity|].
        split; [apply mapGet_mapSet_same | reflexivity].
      * apply jseqb_neq in E. exists s1. split; [reflexivity|].
        split; [|exact Hact]. simpl.
        rewrite mapGet_mapSet_other by exact E. exact Hg.
  - right. destruct (truthy a) eqn:Ht; simpl.
    + destruct Hv as [Hn|[a1 [s1 [Ha [Hg Hact]]]]]; simpl in *.
      * subst a. discriminate.
      * exists a1, s1. split; [exact Ha|]. split; [|exact Hact]. simpl.
        rewrite mapGet_mapSet_other; [exact Hg|].
        intro E. subst a1. congruence.
    + eexists. eexists. split; [reflexivity|].
      split; [apply mapGet_mapSet_same | reflexivity].
Qed.

Lemma markSessionInactive_pointer : forall now k sm,
  registryWf sm -> activePointerValid sm ->
  activePointerValid (markSessionInactive now k sm).
Proof.
  intros now k sm Hwf Hv.
  pose proof (markSessionInactive_wf now k sm Hwf) as Hwf'.
  destruct sm as [m a]. unfold markSessionInactive in *. simpl in *.
  destruct (mapGet k m) as [s|] eqn:Hget; [|exact Hv].
  destruct (isActiveId (mkSessionManager m a) k) eqn:Hid.
  - match goal with
    | |- activePointerValid (mkSessionManager ?m' (electActive ?c)) =>
        destruct (electActive c) as [a'|] eqn:Hel
    end; [|left; reflexivity].
    right. exists a'.
    eapply elected_valid in Hel; [| exact Hwf' |].
    + destruct Hel as [s' [Hg Hact]]. exists s'. auto.
    + intros s0 H0. apply andb_true_iff in H0. tauto.
  - destruct Hv as [Hn|[a1 [s1 [Ha [Hg Hact]]]]]; simpl in *.
    + left. exact Hn.
    + right. exists a1, s1. split; [exact Ha|]. split; [|exact Hact]. simpl.
      rewrite mapGet_mapSet_other; [exact Hg|].
      eapply isActiveId_false; eauto.
Qed.

Lemma removeSession_pointer : forall k sm,
  registryWf sm -> activePointerValid sm ->
  activePointerValid (removeSession k sm).
Proof.
  intros k sm Hwf Hv.
  pose proof (removeSession_wf k sm Hwf) as Hwf'.
  destruct sm as [m a]. unfold removeSession in *. simpl in *.
  destruct (mapGet k m) as [s|] eqn:Hget; [|exact Hv].
  destruct (isActiveId (mkSessionManager m a) k) eqn:Hid.
  - match goal with
    | |- activePointerValid (mkSessionManager ?m' (electActive ?c)) =>
        destruct (electActive c) as [a'|] eqn:Hel
    end; [|left; reflexivity].
    right. exists a'.
    eapply elected_valid in Hel; [| exact Hwf' |].
    + destruct Hel as [s' [Hg Hact]]. exists s'. auto.
    + intros s0 H0. exact H0.
  - destruct Hv as [Hn|[a1 [s1 [Ha [Hg Hact]]]]]; simpl in *.
    + left. exact Hn.
    + right. exists a1, s1. split; [exact Ha|]. split; [|exact Hact]. simpl.
      rewrite mapGet_mapDelete_other; [exact Hg|].
      eapply isActiveId_false; eauto.
Qed.

Lemma applyCall_inv : forall c sm,
  registryWf sm /\ activePointerValid sm ->
  registryWf (applyCall sm c) /\ activePointerValid (applyCall sm c).
Proof.
  intros c sm [Hwf Hv]. destruct c as [seed now d|now k|k]; simpl.
  - split; [apply registerSession_wf, Hwf | apply registerSession_pointer, Hv].
  - split; [apply markSessionInactive_wf, Hwf
           | apply markSessionInactive_pointer; assumption].
  - split; [apply removeSession_wf, Hwf | apply removeSession_pointer; assumption].
Qed.

Lemma runCalls_inv : forall calls sm,
  registryWf sm /\ activePointerValid sm ->
  registryWf (runCalls calls sm) /\ activePointerValid (runCalls calls sm).
Proof.
  induction calls as [|c cs IH]; intros sm H; simpl; [exact H|].
  apply IH, applyCall_inv, H.
Qed.

Lemma emptyManager_inv : registryWf emptyManager /\ activePointerValid emptyManager.
Proof.
  split; [split; simpl; constructor | left; reflexivity].
Qed.

(** C8.  After any sequence of [registerSession], [markSessionInactive] and
    [removeSession] calls on the empty registry, whatever their arguments
    and clock readings, the active-session pointer is null or is the key of
    a registered session whose [isActive] flag is true. *)
Theorem active_session_invariant : forall calls,
  activePointerValid (runCalls calls emptyManager).
Proof.
  intro calls. apply (runCalls_inv calls emptyManager emptyManager_inv).
Qed.

(* ================================================================== *)
(** * Registration of sessions *)

(** C10.  When the id that [registerSession] computes is already in the
    registry, the call returns that id, the session stored under it has
    [isActive = true] afterwards, whatever the flag was before (so a session
    deactivated by [markSessionInactive] is active again after its next
    request), its queue is kept, and the active-session pointer is the one
    from before the call. *)
Theorem register_existing_reactivates : forall seed now d sm s,
  getSession (generateSessionId seed d) sm = Some s ->
  fst (registerSession seed now d sm) = generateSessionId seed d
  /\ (exists s',
        getSession (generateSessionId seed d) (snd (registerSession seed now d sm))
          = Some s'
        /\ isActive s' = true
        /\ s_id s' = s_id s
        /\ utteranceQueue s' = utteranceQueue s)
  /\ activeSessionId (snd (registerSession seed now d sm)) = activeSessionId sm.
Proof.
  intros seed now d sm s Hget. unfold getSession in *. unfold registerSession.
  rewrite Hget. simpl. split; [reflexivity|]. split; [|reflexivity].
  eexists. split; [apply mapGet_mapSet_same|]. simpl. auto.
Qed.

(** Session [s1], deactivated and no longer the active session, is active
    again after its next registration; the pointer stays null. *)
Lemma register_existing_reactivates_witness :
  (exists s, getSession (lit "s1") deactivatedRegistry = Some s /\ isActive s = false)
  /\ activeSessionId deactivatedRegistry = None
  /\ (exists s',
        getSession (lit "s1")
          (snd (registerSession 0 30 (dataWithId (lit "s1")) deactivatedRegistry))
          = Some s'
        /\ isActive s' = true)
  /\ activeSessionId
       (snd (registerSession 0 30 (dataWithId (lit "s1")) deactivatedRegistry))
     = None.
Proof.
  split; [eexists; split; reflexivity|]. split; [reflexivity|].
  destruct (register_existing_reactivates 0 30 (dataWithId (lit "s1"))
              deactivatedRegistry
              (mkSessionInfo (lit "s1") None None 20 false []
                 (mkMetadata None None None))
              eq_refl) as [_ [[s' [Hg [Ha _]]] Hp]].
  split; [exists s'; split; [exact Hg | exact Ha] | exact Hp].
Defined.

(** C9.  Two [registerSession] calls without any hint whose [Date.now()]
    readings fall in the same millisecond compute the same session id: the
    second call refreshes the session of the first, and the registry holds
    one session afterwards. *)
Theorem anonymous_registrations_collide :
  let first := registerSession 1700000000000 1700000000000 noHints emptyManager in
  let second := registerSession 1700000000000 1700000000000 noHints (snd first) in
  fst first = lit "session_eahcjz"
  /\ fst second = lit "session_eahcjz"
  /\ length (sessions (snd second)) = 1%nat.
Proof. vm_compute. repeat split. Qed.

(** Whatever the clock reads, the id of a call without hints is a function
    of the [Date.now()] reading and the user agent alone. *)
Lemma anonymous_id_same_seed : forall seed now1 now2 agent sm1 sm2,
  let d := mkSessionData None None None agent None None in
  fst (registerSession seed now1 d sm1) = fst (registerSession seed now2 d sm2).
Proof.
  intros. unfold registerSession.
  destruct (mapGet (generateSessionId seed d) (sessions sm1));
    destruct (mapGet (generateSessionId seed d) (sessions sm2)); reflexivity.
Qed.

(** A request without session id, working directory and transcript path is
    registered under the working directory of the process: two such
    requests share one session whatever the clock reads. *)
Lemma hintless_requests_share_session : forall processCwd seed1 seed2 now1 now2 agent st1 st2,
  processCwd <> [] ->
  let req := mkRequest None None None agent None None in
  fst (registerSessionFromRequest processCwd seed1 now1 req st1)
  = fst (registerSessionFromRequest processCwd seed2 now2 req st2).
Proof.
  intros processCwd seed1 seed2 now1 now2 agent st1 st2 Hne req.
  unfold registerSessionFromRequest, registerSession.
  assert (E : generateSessionId seed1 (sessionDataOfRequest processCwd req)
              = generateSessionId seed2 (sessionDataOfRequest processCwd req)).
  { unfold generateSessionId, sessionDataOfRequest, extractProjectPath. simpl.
    destruct processCwd as [|c p]; [contradiction|]. simpl. reflexivity. }
  rewrite E.
  destruct (mapGet _ (sessions (sessionManager st1)));
    destruct (mapGet _ (sessions (sessionManager st2))); reflexivity.
Qed.

(* ================================================================== *)
(** * The hook decision *)

Lemma jsSort_nil_inv : forall (A : Type) (cmp : A -> A -> Z) l,
  jsSort cmp l = [] -> l = [].
Proof.
  intros A cmp l H. apply Permutation_nil.
  rewrite <- H. apply jsSort_perm.
Qed.

Lemma len_pos_iff : forall (A : Type) (l : list A), (0 <? len l) = true <-> l <> [].
Proof.
  intros A l. unfold len. destruct l; simpl; split; intro H;
    try discriminate; try reflexivity; congruence.
Qed.

Lemma len_zero_iff : forall (A : Type) (l : list A), (0 <? len l) = false <-> l = [].
Proof.
  intros A l. unfold len. destruct l; simpl; split; intro H;
    try discriminate; reflexivity.
Qed.

Lemma radixDigits_head : forall fuel base n acc,
  exists k r, radixDigits (S fuel) base n acc = digitChar (k mod base) :: r.
Proof.
  induction fuel as [|f IH]; intros base n acc.
  - exists n, acc. simpl. destruct (n / base =? 0); reflexivity.
  - change (radixDigits (S (S f)) base n acc)
      with (if n / base =? 0 then digitChar (n mod base) :: acc
            else radixDigits (S f) base (n / base) (digitChar (n mod base) :: acc)).
    destruct (n / base =? 0).
    + exists n, acc. reflexivity.
    + apply IH.
Qed.

(** A number is printed with a sign or a decimal digit in front. *)
Lemma showNum_head : forall n,
  exists c r, showNum n = c :: r /\ (c = 45 \/ 48 <= c <= 57).
Proof.
  intro n. unfold showNum, numToString.
  destruct (radixDigits_head (Z.to_nat (Z.log2 (Z.abs n))) 10 (Z.abs n) [])
    as [k [r Hr]].
  cbv zeta. rewrite Hr. destruct (n <? 0).
  - eexists. eexists. split; [reflexivity | left; reflexivity].
  - eexists. eexists. split; [reflexivity|]. right.
    unfold digitChar. pose proof (Z.mod_pos_bound k 10 ltac:(lia)) as B.
    destruct (k mod 10 <? 10) eqn:E; [lia|]. apply Z.ltb_ge in E. lia.
Qed.

(** The message of an auto-delivery starts with a letter, the reasons of
    the manual pending gate and of the delivered gate with a number. *)
Lemma formatVoiceUtterances_head : forall texts st,
  exists r, formatVoiceUtterances texts st = 65 :: r.
Proof.
  intros texts st. unfold formatVoiceUtterances.
  eexists. change (lit "Assistant received voice input from the user (")
    with (65 :: lit "ssistant received voice input from the user (").
  reflexivity.
Qed.

Lemma formatted_not_deliveredReason : forall texts st m,
  formatVoiceUtterances texts st <> deliveredReason m.
Proof.
  intros texts st m H.
  destruct (formatVoiceUtterances_head texts st) as [r Hr].
  destruct (showNum_head m) as [c [r' [Hs Hc]]].
  unfold deliveredReason in H. rewrite Hr, Hs in H. simpl in H.
  inversion H. lia.
Qed.

Lemma formatted_not_pendingReason : forall texts st n,
  formatVoiceUtterances texts st <> pendingReason n.
Proof.
  intros texts st n H.
  destruct (formatVoiceUtterances_head texts st) as [r Hr].
  destruct (showNum_head n) as [c [r' [Hs Hc]]].
  unfold pendingReason in H. rewrite Hr, Hs in H. simpl in H.
  inversion H. lia.
Qed.

(** The two numbered reasons end differently. *)
Lemma pendingReason_not_deliveredReason : forall n m,
  pendingReason n <> deliveredReason m.
Proof.
  intros n m H. apply (f_equal (@rev Z)) in H.
  unfold pendingReason, deliveredReason in H.
  rewrite !rev_app_distr in H.
  match type of H with
  | rev ?a ++ _ = rev ?b ++ _ =>
      let x := eval vm_compute in (rev a) in
      let y := eval vm_compute in (rev b) in
      change (rev a) with x in H; change (rev b) with y in H
  end.
  simpl in H. discriminate H.
Qed.

(** The pending-utterance gate in manual mode, on the legacy queue: every
    action is blocked with the instruction to dequeue, and the state is
    left as it was. *)
Lemma pending_gate_manual : forall cfg clk a st,
  voiceInputActive (voicePreferences st) = true ->
  AUTO_DELIVER_VOICE_INPUT cfg = false ->
  withStatus pending (queue st) <> [] ->
  handleHookRequest cfg clk a st
  = Some (mkHook block (Some (pendingReason (len (withStatus pending (queue st))))), st).
Proof.
  intros cfg clk a st Hin Hauto Hpend. unfold handleHookRequest.
  rewrite Hin, Hauto. apply len_pos_iff in Hpend. rewrite Hpend. reflexivity.
Qed.

Lemma collectPending_nonempty : forall st,
  withStatus pending (queue st) <> [] -> collectPending st <> [].
Proof.
  intros st H E. unfold collectPending in E.
  apply app_eq_nil in E. destruct E as [_ E].
  apply app_eq_nil in E. destruct E as [_ E].
  apply map_eq_nil in E. contradiction.
Qed.

(** The pending-utterance gate in auto mode, on the legacy queue: except
    for a tool invocation with the sub-toggle off, the pending utterances
    of every queue are dequeued and quoted oldest first. *)
Lemma pending_gate_auto : forall cfg clk a st,
  voiceInputActive (voicePreferences st) = true ->
  AUTO_DELIVER_VOICE_INPUT cfg = true ->
  (a <> tool \/ AUTO_DELIVER_VOICE_INPUT_BEFORE_TOOLS cfg = true) ->
  withStatus pending (queue st) <> [] ->
  autoDeliveredTexts st <> []
  /\ handleHookRequest cfg clk a st
     = Some (mkHook block
               (Some (formatVoiceUtterances (autoDeliveredTexts st)
                        (snd (dequeueUtterancesCore st)))),
             snd (dequeueUtterancesCore st)).
Proof.
  intros cfg clk a st Hin Hauto Hcase Hpend.
  pose proof (collectPending_nonempty st Hpend) as Hne.
  unfold autoDeliveredTexts.
  destruct (jsSort entryNewestFirst (collectPending st)) as [|e es] eqn:Es.
  { apply jsSort_nil_inv in Es. contradiction. }
  split.
  { intro E. apply map_eq_nil in E.
    apply (f_equal (@rev PendingEntry)) in E. rewrite rev_involutive in E.
    discriminate E. }
  unfold handleHookRequest.
  rewrite Hin, Hauto. apply len_pos_iff in Hpend. rewrite Hpend. simpl andb.
  cbv iota.
  assert (Hskip : action_eqb a tool && negb (AUTO_DELIVER_VOICE_INPUT_BEFORE_TOOLS cfg)
                  = false).
  { destruct Hcase as [Ha|Hb].
    - destruct a; try reflexivity. contradiction.
    - rewrite Hb. apply andb_false_r. }
  rewrite Hskip.
  unfold dequeueUtterancesCore. rewrite Hin. simpl negb. cbv iota.
  rewrite Es. cbn [dq_utterances dq_success map snd].
  change ((u_text (utterance e), u_timestamp (utterance e))
            :: map (fun e0 => (u_text (utterance e0), u_timestamp (utterance e0))) es)
    with (map (fun e0 => (u_text (utterance e0), u_timestamp (utterance e0))) (e :: es)).
  rewrite <- map_rev, map_map. reflexivity.
Qed.

(** The delivered-but-unresponded gate, on the legacy queue, when the
    pending gate is not entered. *)
Lemma delivered_gate : forall cfg clk a st,
  voiceResponsesEnabled (voicePreferences st) = true ->
  (voiceInputActive (voicePreferences st) = false
   \/ withStatus pending (queue st) = []
   \/ (AUTO_DELIVER_VOICE_INPUT cfg = true
       /\ AUTO_DELIVER_VOICE_INPUT_BEFORE_TOOLS cfg = false /\ a = tool)) ->
  withStatus delivered (queue st) <> [] ->
  handleHookRequest cfg clk a st
  = Some (if action_eqb a speak then mkHook approve None
          else mkHook block
                 (Some (deliveredReason (len (withStatus delivered (queue st))))),
          st).
Proof.
  intros cfg clk a st Hresp Hgate Hdel. unfold handleHookRequest.
  apply len_pos_iff in Hdel.
  assert (G : deliveredGate cfg clk a (voiceResponsesEnabled (voicePreferences st))
                (voiceInputActive (voicePreferences st)) st
              = Some (if action_eqb a speak then mkHook approve None
                      else mkHook block
                             (Some (deliveredReason
                                      (len (withStatus delivered (queue st))))),
                      st)).
  { unfold deliveredGate. rewrite Hresp, Hdel. simpl.
    destruct (action_eqb a speak); reflexivity. }
  destruct Hgate as [Hin|[Hp|[Hauto [Hbt Ha]]]].
  - rewrite Hin. simpl. rewrite Hin in G. exact G.
  - rewrite Hp. simpl. rewrite andb_false_r. exact G.
  - subst a. rewrite Hauto, Hbt. simpl.
    destruct (voiceInputActive (voicePreferences st)
              && (0 <? len (withStatus pending (queue st)))); exact G.
Qed.

(** C1.  With voice input active, auto-delivery disabled and a pending
    utterance in the queue of a session (none in the legacy queue), the
    decision is not the block that asks for an explicit dequeue: tool,
    post-tool, pre-speak and pre-wait are approved, and stop is blocked with
    the instruction to wait.  The pending gate reads the legacy queue
    only. *)
Theorem pending_gate_misses_session_queues :
  voiceInputActive (voicePreferences pendingInSession) = true
  /\ AUTO_DELIVER_VOICE_INPUT manualConfig = false
  /\ existsWithStatus pending pendingInSession
  /\ handleHookRequest manualConfig plainClock tool pendingInSession
     = Some (mkHook approve None, withLastToolUse (Some 1000) pendingInSession)
  /\ handleHookRequest manualConfig plainClock postTool pendingInSession
     = Some (mkHook approve None, withLastToolUse (Some 1000) pendingInSession)
  /\ handleHookRequest manualConfig plainClock speak pendingInSession
     = Some (mkHook approve None, pendingInSession)
  /\ handleHookRequest manualConfig plainClock wait pendingInSession
     = Some (mkHook approve None, pendingInSession)
  /\ handleHookRequest manualConfig plainClock stop pendingInSession
     = Some (mkHook block
               (Some (lit "Assistant tried to end its response, but voice input is active. Stopping is not allowed without first checking for voice input. Assistant should now use wait_for_utterance to check for voice input")),
             pendingInSession).
Proof.
  split; [reflexivity|]. split; [reflexivity|]. split.
  - exists [utt "u1" "hello" 100 pending], (utt "u1" "hello" 100 pending).
    split; [left; reflexivity|]. split; [left; reflexivity | reflexivity].
  - repeat split; vm_compute; reflexivity.
Qed.

(** C2.  With voice responses enabled, no pending utterance anywhere and a
    delivered utterance in the queue of a session (none in the legacy
    queue), no action is blocked for a spoken response: tool, post-tool,
    pre-wait and stop are approved.  The delivered gate reads the legacy
    queue only. *)
Theorem delivered_gate_misses_session_queues :
  voiceResponsesEnabled (voicePreferences deliveredInSession) = true
  /\ existsWithStatus delivered deliveredInSession
  /\ noPendingAnywhere deliveredInSession
  /\ handleHookRequest defaultConfig plainClock tool deliveredInSession
     = Some (mkHook approve None, withLastToolUse (Some 1000) deliveredInSession)
  /\ handleHookRequest defaultConfig plainClock postTool deliveredInSession
     = Some (mkHook approve None, withLastToolUse (Some 1000) deliveredInSession)
  /\ handleHookRequest defaultConfig plainClock wait deliveredInSession
     = Some (mkHook approve None, deliveredInSession)
  /\ handleHookRequest defaultConfig plainClock stop deliveredInSession
     = Some (mkHook approve (Some (lit "No utterances since last timeout")),
             deliveredInSession).
Proof.
  split; [reflexivity|]. split.
  - exists [utt "u1" "hello" 100 delivered], (utt "u1" "hello" 100 delivered).
    split; [left; reflexivity|]. split; [left; reflexivity | reflexivity].
  - split.
    + intros q u Hq Hu. simpl in Hq.
      destruct Hq as [Hq|[Hq|[]]]; subst q; simpl in Hu.
      * destruct Hu as [Hu|[]]. subst u. discriminate.
      * contradiction.
    + repeat split; vm_compute; reflexivity.
Qed.

(** C4, as stated, fails under the default configuration: with a pending
    and a delivered utterance in the legacy queue, voice input active and
    voice responses enabled, a tool invocation skips the pending gate and is
    blocked by the delivered gate; the pending utterance stays pending. *)
Lemma gate_precedence_counterexample :
  handleHookRequest defaultConfig plainClock tool pendingAndDelivered
  = Some (mkHook block (Some (deliveredReason 1)), pendingAndDelivered)
  /\ deliveredReason 1 <> pendingReason 1
  /\ (forall texts st, deliveredReason 1 <> formatVoiceUtterances texts st)
  /\ withStatus pending (queue pendingAndDelivered) = [utt "u2" "second" 200 pending]
  /\ withStatus delivered (queue pendingAndDelivered) = [utt "u1" "first" 100 delivered].
Proof.
  split; [vm_compute; reflexivity|].
  split; [intro H; symmetry in H; revert H; apply pendingReason_not_deliveredReason|].
  split; [|split; reflexivity].
  intros texts st H. symmetry in H. revert H. apply formatted_not_deliveredReason.
Qed.

(** C5.  With voice input active, auto-delivery enabled, auto-delivery
    before tools disabled and the delivered gate not applying, a tool
    invocation is approved whatever is pending: the only change of state is
    the last-tool-use time, so every queue is as before and a pending
    utterance remains pending. *)
Theorem tool_skips_auto_delivery : forall cfg clk st,
  voiceInputActive (voicePreferences st) = true ->
  AUTO_DELIVER_VOICE_INPUT cfg = true ->
  AUTO_DELIVER_VOICE_INPUT_BEFORE_TOOLS cfg = false ->
  (voiceResponsesEnabled (voicePreferences st) = false
   \/ withStatus delivered (queue st) = []) ->
  handleHookRequest cfg clk tool st
  = Some (mkHook approve None, withLastToolUse (Some (hc_now clk)) st)
  /\ allQueues (withLastToolUse (Some (hc_now clk)) st) = allQueues st
  /\ forall q u,
       In q (allQueues st) -> In u q -> u_status u = pending ->
       In q (allQueues (withLastToolUse (Some (hc_now clk)) st))
       /\ In u q /\ u_status u = pending.
Proof.
  intros cfg clk st Hin Hauto Hbt Hgate. split; [|split].
  - unfold handleHookRequest. rewrite Hin, Hauto, Hbt. simpl.
    assert (G : deliveredGate cfg clk tool (voiceResponsesEnabled (voicePreferences st))
                  true st
                = Some (mkHook approve None, withLastToolUse (Some (hc_now clk)) st)).
    { unfold deliveredGate. destruct Hgate as [Hr|Hd].
      - rewrite Hr. reflexivity.
      - rewrite Hd. simpl. rewrite andb_false_r. reflexivity. }
    destruct (0 <? len (withStatus pending (queue st))); exact G.
  - reflexivity.
  - intros q u Hq Hu Hs. auto.
Qed.

(** Scenario A of the specification: the pending utterance [hello] stays
    pending while the tool invocation is approved. *)
Lemma tool_skips_auto_delivery_witness :
  handleHookRequest defaultConfig plainClock tool onePending
  = Some (mkHook approve None, withLastToolUse (Some 1000) onePending)
  /\ withStatus pending (queue (withLastToolUse (Some 1000) onePending))
     = [utt "u1" "hello" 100 pending].
Proof.
  split; [|reflexivity].
  exact (proj1 (tool_skips_auto_delivery defaultConfig plainClock onePending
                  eq_refl eq_refl eq_refl (or_introl eq_refl))).
Defined.

(* ================================================================== *)
(** * Dequeue *)

Section SortByKey.
Variable A : Type.
Variable key : A -> Z.
Variable cmp : A -> A -> Z.
Hypothesis cmp_key : forall a b, cmp a b = key b - key a.

Lemma sortInsert_sorted : forall x l,
  StronglySorted (keyDescending key) l ->
  StronglySorted (keyDescending key) (sortInsert cmp x l).
Proof.
  intros x l. induction l as [|y r IH]; intro S; simpl.
  - constructor; constructor.
  - inversion S as [|? ? Sr Fr]; subst.
    destruct (cmp x y <=? 0) eqn:E.
    + apply Z.leb_le in E. rewrite cmp_key in E.
      constructor; [exact S|]. constructor; [unfold keyDescending; lia|].
      eapply Forall_impl; [|exact Fr]. unfold keyDescending. intros b Hb. lia.
    + apply Z.leb_gt in E. rewrite cmp_key in E.
      constructor; [apply IH, Sr|].
      apply (Permutation_Forall (Permutation_sym (sortInsert_perm A cmp x r))).
      constructor; [unfold keyDescending; lia | exact Fr].
Qed.

Lemma jsSort_sorted : forall l, StronglySorted (keyDescending key) (jsSort cmp l).
Proof.
  induction l as [|x r IH]; simpl; [constructor | apply sortInsert_sorted, IH].
Qed.

End SortByKey.

Lemma StronglySorted_map : forall (A B : Type) (f : A -> B) (R : B -> B -> Prop) l,
  StronglySorted (fun a b => R (f a) (f b)) l -> StronglySorted R (map f l).
Proof.
  intros A B f R l. induction 1 as [|a l S IH F]; simpl; constructor.
  - exact IH.
  - apply Forall_map. exact F.
Qed.

(** The result of the sort in [dequeueUtterancesCore] is newest first. *)
Lemma dequeue_sorted : forall es,
  StronglySorted notOlder (map utterance (jsSort entryNewestFirst es)).
Proof.
  intro es. apply StronglySorted_map.
  apply (jsSort_sorted PendingEntry (fun e => u_timestamp (utterance e))).
  intros a b. reflexivity.
Qed.

Lemma values_unique : forall (m : SessionMap) (k : jsstring) (a b : SessionInfo),
  NoDup (map fst m) -> In (k, a) m -> In (k, b) m -> a = b.
Proof.
  intros m k a b ND Ha Hb.
  apply (In_mapGet k a m ND) in Ha. apply (In_mapGet k b m ND) in Hb. congruence.
Qed.

Lemma registryWf_value_key : forall sm s,
  registryWf sm -> In s (mapValues (sessions sm)) ->
  In (s_id s, s) (sessions sm) /\ s_id s <> [].
Proof.
  intros sm s [ND F] Hin. unfold mapValues in Hin. apply in_map_iff in Hin.
  destruct Hin as [[k v] [Hv Hin]]. simpl in Hv. subst v.
  rewrite Forall_forall in F. destruct (F _ Hin) as [Hk Hne]. simpl in *.
  rewrite Hk. split; assumption.
Qed.

(** Two registered sessions with the same id are the same session. *)
Lemma registryWf_same_id : forall sm a b,
  registryWf sm ->
  In a (mapValues (sessions sm)) -> In b (mapValues (sessions sm)) ->
  s_id a = s_id b -> a = b.
Proof.
  intros sm a b Hwf Ha Hb E.
  destruct (registryWf_value_key sm a Hwf Ha) as [Ha' _].
  destruct (registryWf_value_key sm b Hwf Hb) as [Hb' _].
  rewrite E in Ha'. destruct Hwf as [ND _].
  exact (values_unique (sessions sm) (s_id b) a b ND Ha' Hb').
Qed.

Lemma getActiveSession_In : forall sm a,
  getActiveSession sm = Some a -> In a (mapValues (sessions sm)).
Proof.
  intros sm a. unfold getActiveSession.
  destruct (activeSessionId sm) as [[|c k]|]; try discriminate.
  intro H. apply mapGet_In in H. unfold mapValues.
  apply in_map_iff. exists (c :: k, a). split; [reflexivity | exact H].
Qed.

(** Splitting a list of sessions with distinct ids into one of them and
    the others. *)
Lemma split_off_session : forall (l : list SessionInfo) a,
  (forall x y, In x l -> In y l -> s_id x = s_id y -> x = y) ->
  NoDup l ->
  In a l ->
  Permutation (a :: filter (notTheActive (Some a)) l) l.
Proof.
  induction l as [|x r IH]; intros a Huniq ND Hin; [contradiction|].
  inversion ND as [|? ? Hx NDr]; subst.
  assert (Huniq' : forall x0 y, In x0 r -> In y r -> s_id x0 = s_id y -> x0 = y).
  { intros x0 y H0 H1. apply Huniq; right; assumption. }
  simpl. destruct (jseqb (s_id x) (s_id a)) eqn:E; simpl.
  - apply jseqb_eq in E.
    assert (x = a) by (apply Huniq; [left; reflexivity | exact Hin | exact E]).
    subst x. apply perm_skip.
    assert (F : filter (notTheActive (Some a)) r = r).
    { apply forallb_filter_id. apply forallb_forall. intros y Hy. simpl.
      apply negb_true_iff, jseqb_neq. intro Ey.
      assert (y = a) by (apply Huniq; [right; exact Hy | left; reflexivity | exact Ey]).
      subst y. contradiction. }
    rewrite F. apply Permutation_refl.
  - destruct Hin as [Hin|Hin].
    + subst x. rewrite jseqb_refl in E. discriminate.
    + eapply Permutation_trans; [apply perm_swap|].
      apply perm_skip. apply IH; assumption.
Qed.

Lemma map_flat_map : forall (A B C : Type) (f : B -> C) (g : A -> list B) l,
  map f (flat_map g l) = flat_map (fun x => map f (g x)) l.
Proof.
  intros A B C f g l. induction l as [|x r IH]; simpl; [reflexivity|].
  rewrite map_app, IH. reflexivity.
Qed.

Lemma flat_map_map : forall (A B C : Type) (f : B -> list C) (g : A -> B) l,
  flat_map f (map g l) = flat_map (fun x => f (g x)) l.
Proof.
  intros A B C f g l. induction l as [|x r IH]; simpl; [reflexivity|].
  rewrite IH. reflexivity.
Qed.

Lemma sessionEntries_utterances : forall s,
  map utterance (sessionEntries s) = withStatus pending (utteranceQueue s).
Proof.
  intro s. unfold sessionEntries. rewrite map_map. simpl. apply map_id.
Qed.

Lemma registryWf_values_NoDup : forall sm,
  registryWf sm -> NoDup (mapValues (sessions sm)).
Proof.
  intros sm [ND F]. unfold mapValues.
  apply (NoDup_map_inv s_id). rewrite map_map.
  rewrite (map_ext_in (fun x => s_id (snd x)) fst); [exact ND|].
  intros e He. rewrite Forall_forall in F. apply F, He.
Qed.

(** The sessions that [dequeueUtterancesCore] and [waitForUtteranceCore]
    visit, the active one first, are the registered sessions, each once. *)
Lemma visited_sessions_perm : forall sm,
  registryWf sm ->
  Permutation (visitedSessions sm) (mapValues (sessions sm)).
Proof.
  intros sm Hwf. unfold visitedSessions, getAllSessions.
  destruct (getActiveSession sm) as [a|] eqn:Ha; simpl.
  - eapply Permutation_trans; [|apply (jsSort_perm _ mostRecentFirst)].
    apply split_off_session.
    + intros x y Hx Hy. apply jsSort_In in Hx. apply jsSort_In in Hy.
      apply (registryWf_same_id sm); assumption.
    + apply (Permutation_NoDup (Permutation_sym (jsSort_perm _ mostRecentFirst _))).
      apply registryWf_values_NoDup, Hwf.
    + apply jsSort_In. apply getActiveSession_In, Ha.
  - rewrite forallb_filter_id; [apply jsSort_perm|].
    apply forallb_forall. intros; reflexivity.
Qed.

(** [dequeueUtterancesCore] collects every pending utterance of every
    queue, each once. *)
Lemma collectPending_perm : forall st,
  registryWf (sessionManager st) ->
  Permutation (map utterance (collectPending st)) (allPending st).
Proof.
  intros st Hwf. unfold collectPending, allPending, allQueues.
  rewrite !map_app, flat_map_app, map_flat_map, flat_map_map, map_map.
  simpl. rewrite app_nil_r, map_id.
  rewrite (flat_map_ext _ (fun s => withStatus pending (utteranceQueue s)))
    by (intro s; apply sessionEntries_utterances).
  rewrite app_assoc. apply Permutation_app_tail.
  pose proof (visited_sessions_perm (sessionManager st) Hwf) as P.
  unfold visitedSessions in P.
  apply (Permutation_flat_map (fun s => withStatus pending (utteranceQueue s))) in P.
  rewrite flat_map_app in P.
  eapply Permutation_trans; [|exact P].
  destruct (getActiveSession (sessionManager st)) as [a|]; simpl.
  - rewrite sessionEntries_utterances, app_nil_r. apply Permutation_refl.
  - apply Permutation_refl.
Qed.

Lemma collectPending_visited : forall st,
  collectPending st
  = flat_map sessionEntries (visitedSessions (sessionManager st))
    ++ map (fun u => mkEntry u global None) (withStatus pending (queue st)).
Proof.
  intro st. unfold collectPending, visitedSessions.
  rewrite flat_map_app, <- app_assoc. f_equal.
  destruct (getActiveSession (sessionManager st)); simpl;
    [rewrite app_nil_r|]; reflexivity.
Qed.

(** The entries of the sessions are those of the pending utterances of the
    registered sessions. *)
Lemma collectPending_session : forall st e,
  registryWf (sessionManager st) ->
  (In e (collectPending st) /\ source e = session
   <-> exists s u,
         In s (mapValues (sessions (sessionManager st)))
         /\ In u (withStatus pending (utteranceQueue s))
         /\ e = mkEntry u session (Some (s_id s))).
Proof.
  intros st e Hwf. rewrite collectPending_visited.
  pose proof (visited_sessions_perm _ Hwf) as P. split.
  - intros [Hin Hsrc]. apply in_app_or in Hin. destruct Hin as [Hin|Hin].
    + apply in_flat_map in Hin. destruct Hin as [s [Hs He]].
      unfold sessionEntries in He. apply in_map_iff in He.
      destruct He as [u [Hu Hin]]. exists s, u.
      split; [apply (Permutation_in _ P), Hs|]. split; [exact Hin | congruence].
    + apply in_map_iff in Hin. destruct Hin as [u [Hu _]].
      subst e. discriminate.
  - intros [s [u [Hs [Hu He]]]]. subst e. split; [|reflexivity].
    apply in_or_app. left. apply in_flat_map. exists s.
    split; [apply (Permutation_in _ (Permutation_sym P)), Hs|].
    unfold sessionEntries. apply in_map_iff. exists u. split; [reflexivity | exact Hu].
Qed.

Lemma collectPending_global : forall st e,
  (In e (collectPending st) /\ source e = global
   <-> exists u, In u (withStatus pending (queue st)) /\ e = mkEntry u global None).
Proof.
  intros st e. rewrite collectPending_visited. split.
  - intros [Hin Hsrc]. apply in_app_or in Hin. destruct Hin as [Hin|Hin].
    + apply in_flat_map in Hin. destruct Hin as [s [_ He]].
      unfold sessionEntries in He. apply in_map_iff in He.
      destruct He as [u [Hu _]]. subst e. discriminate.
    + apply in_map_iff in Hin. destruct Hin as [u [Hu Hin]]. exists u. auto.
  - intros [u [Hu He]]. subst e. split; [|reflexivity].
    apply in_or_app. right. apply in_map_iff. exists u. auto.
Qed.

(* ------------------------------------------------------------------ *)
(** ** Marking in one queue *)

Lemma markDelivered_ids : forall i q, map u_id (markDelivered i q) = map u_id q.
Proof.
  intros i q. induction q as [|u r IH]; simpl; [reflexivity|].
  destruct (jseqb (u_id u) i); simpl; [reflexivity | rewrite IH; reflexivity].
Qed.

Lemma markDelivered_map : forall i q,
  uniqueIds q ->
  markDelivered i q
  = map (fun u => if jseqb (u_id u) i then setStatus delivered u else u) q.
Proof.
  intros i q. unfold uniqueIds. induction q as [|u r IH]; simpl; intro ND;
    [reflexivity|].
  inversion ND as [|? ? Hnot ND']; subst.
  destruct (jseqb (u_id u) i) eqn:E.
  - f_equal. symmetry. rewrite <- (map_id r) at 2. apply map_ext_in.
    intros v Hv. destruct (jseqb (u_id v) i) eqn:Ev; [|reflexivity].
    apply jseqb_eq in E. apply jseqb_eq in Ev. exfalso. apply Hnot.
    rewrite E, <- Ev. apply in_map, Hv.
  - rewrite IH by exact ND'. reflexivity.
Qed.

Lemma markAll_deliverIds : forall ids q,
  uniqueIds q -> markAll ids q = deliverIds ids q.
Proof.
  induction ids as [|i ids IH]; intros q U; unfold markAll, deliverIds in *; simpl.
  - symmetry. apply map_id.
  - rewrite IH by (unfold uniqueIds; rewrite markDelivered_ids; exact U).
    rewrite markDelivered_map by exact U. rewrite map_map.
    apply map_ext. intro u.
    destruct (jseqb (u_id u) i); simpl.
    + destruct (existsb (jseqb (u_id u)) ids); reflexivity.
    + reflexivity.
Qed.

Lemma uniqueIds_inj : forall q u v,
  uniqueIds q -> In u q -> In v q -> u_id u = u_id v -> u = v.
Proof.
  unfold uniqueIds. induction q as [|x r IH]; intros u v ND Hu Hv E; [contradiction|].
  simpl in ND. inversion ND as [|? ? Hnot ND']; subst.
  destruct Hu as [Hu|Hu]; destruct Hv as [Hv|Hv]; subst.
  - reflexivity.
  - exfalso. apply Hnot. rewrite E. apply in_map, Hv.
  - exfalso. apply Hnot. rewrite <- E. apply in_map, Hu.
  - apply IH; assumption.
Qed.

Lemma withStatus_In : forall s q u,
  In u (withStatus s q) <-> In u q /\ u_status u = s.
Proof.
  intros s q u. unfold withStatus. rewrite filter_In.
  split; intros [H1 H2]; (split; [exact H1|]).
  - destruct (u_status u), s; simpl in H2; try discriminate; reflexivity.
  - rewrite H2. destruct s; reflexivity.
Qed.

(** Marking exactly the ids of the pending utterances of a queue delivers
    its pending utterances and touches nothing else. *)
Lemma deliverIds_exact : forall ids q,
  uniqueIds q ->
  (forall i, In i ids <-> exists u, In u (withStatus pending q) /\ u_id u = i) ->
  deliverIds ids q = map deliverPending q.
Proof.
  intros ids q U Hids. unfold deliverIds. apply map_ext_in. intros u Hu.
  unfold deliverPending.
  destruct (existsb (jseqb (u_id u)) ids) eqn:E.
  - apply existsb_exists in E. destruct E as [i [Hi Ei]].
    apply jseqb_eq in Ei. apply Hids in Hi. destruct Hi as [v [Hv Hvi]].
    apply withStatus_In in Hv. destruct Hv as [Hv Hs].
    assert (v = u) by (apply (uniqueIds_inj q); congruence).
    subst v. rewrite Hs. reflexivity.
  - destruct (u_status u) eqn:Es; try reflexivity.
    exfalso. assert (Hin : In (u_id u) ids).
    { apply Hids. exists u. split; [|reflexivity].
      apply withStatus_In. split; assumption. }
    assert (existsb (jseqb (u_id u)) ids = true).
    { apply existsb_exists. exists (u_id u). split; [exact Hin | apply jseqb_refl]. }
    congruence.
Qed.

(* ------------------------------------------------------------------ *)
(** ** Marking across the queues *)

Lemma mapSet_map : forall k v s (m : SessionMap),
  NoDup (map fst m) -> mapGet k m = Some s ->
  mapSet k v m = map (fun e => if jseqb (fst e) k then (fst e, v) else e) m.
Proof.
  intros k v s m. induction m as [|[k' v'] r IH]; simpl; intros ND Hget;
    [discriminate|].
  inversion ND as [|? ? Hnot ND']; subst.
  destruct (jseqb k' k) eqn:E.
  - f_equal. rewrite <- (map_id r) at 1. apply map_ext_in.
    intros e He. destruct (jseqb (fst e) k) eqn:Ee; [|reflexivity].
    apply jseqb_eq in E. apply jseqb_eq in Ee. exfalso. apply Hnot.
    rewrite E, <- Ee. apply in_map, He.
  - f_equal. apply IH; assumption.
Qed.

Lemma mapGet_None_In : forall k (m : SessionMap) e,
  mapGet k m = None -> In e m -> jseqb k (fst e) = false.
Proof.
  intros k m e Hget Hin. apply jseqb_neq. intro E.
  apply (mapGet_None_keys k m Hget). rewrite E. apply in_map, Hin.
Qed.

Lemma sessionIds_cons : forall k' u key es,
  key <> [] ->
  sessionIds k' (mkEntry u session (Some key) :: es)
  = if jseqb key k' then u_id u :: sessionIds k' es else sessionIds k' es.
Proof.
  intros k' u key es Hne. unfold sessionIds. cbn [filter source sessionId].
  destruct key as [|c k]; [contradiction|].
  destruct (jseqb (c :: k) k'); reflexivity.
Qed.

Lemma markedState_step : forall e es st,
  NoDup (map fst (sessions (sessionManager st))) ->
  markedState es (markEntry st e) = markedState (e :: es) st.
Proof.
  intros [u src sid] es st ND. unfold markEntry.
  cbn [source sessionId utterance].
  destruct src.
  - reflexivity.
  - destruct sid as [[|c k]|]; try reflexivity.
    unfold markDeliveredInSession.
    destruct (mapGet (c :: k) (sessions (sessionManager st))) as [s|] eqn:Hget.
    + unfold markedState.
      cbn [sessionManager withManager sessions activeSessionId queue
           lastToolUseTimestamp lastSpeakTimestamp voicePreferences outbox].
      f_equal. f_equal.
      rewrite (mapSet_map _ _ s _ ND Hget), map_map.
      apply map_ext_in. intros [k' s'] Hin. cbn [fst snd].
      rewrite sessionIds_cons by discriminate.
      rewrite (jseqb_sym (c :: k) k').
      destruct (jseqb k' (c :: k)) eqn:E; cbn [fst snd]; [|reflexivity].
      apply jseqb_eq in E. subst k'.
      assert (s' = s)
        by (eapply values_unique; [exact ND | exact Hin | apply mapGet_In, Hget]).
      subst s'. reflexivity.
    + unfold markedState. f_equal. f_equal.
      apply map_ext_in. intros e' Hin.
      rewrite sessionIds_cons by discriminate.
      rewrite (mapGet_None_In _ _ _ Hget Hin). reflexivity.
Qed.

Lemma markEntry_keys : forall e st,
  map fst (sessions (sessionManager (markEntry st e)))
  = map fst (sessions (sessionManager st)).
Proof.
  intros [u src sid] st. unfold markEntry. simpl.
  destruct src; [reflexivity|].
  destruct sid as [[|c k]|]; try reflexivity.
  unfold markDeliveredInSession.
  destruct (mapGet (c :: k) (sessions (sessionManager st))) as [s|] eqn:Hget;
    [|reflexivity].
  simpl. eapply mapSet_keys_present, Hget.
Qed.

Lemma markedState_nil : forall st, markedState [] st = st.
Proof.
  intros [[m a] q t1 t2 p o]. unfold markedState, markAll. simpl.
  f_equal. f_equal. rewrite <- (map_id m) at 2. apply map_ext.
  intros [k [i pp pn la ia uq md]]. reflexivity.
Qed.

(** The run of [markEntry] over the entries, queue by queue. *)
Lemma fold_markEntry : forall es st,
  NoDup (map fst (sessions (sessionManager st))) ->
  fold_left markEntry es st = markedState es st.
Proof.
  induction es as [|e es IH]; intros st ND; simpl.
  - symmetry. apply markedState_nil.
  - rewrite IH by (rewrite markEntry_keys; exact ND).
    apply markedState_step, ND.
Qed.

Lemma sessionIds_In : forall k es i,
  In i (sessionIds k es)
  <-> exists e, In e es /\ source e = session /\ sessionId e = Some k
                /\ k <> [] /\ u_id (utterance e) = i.
Proof.
  intros k es i. unfold sessionIds. rewrite in_map_iff. split.
  - intros [e [Hi He]]. apply filter_In in He. destruct He as [Hin Hm].
    exists e. destruct (source e); [discriminate|].
    destruct (sessionId e) as [[|c sid]|]; try discriminate.
    apply jseqb_eq in Hm. subst k. repeat split; auto. discriminate.
  - intros [e [Hin [Hs [Hk [Hne Hi]]]]]. exists e. split; [exact Hi|].
    apply filter_In. split; [exact Hin|]. rewrite Hs, Hk.
    destruct k; [contradiction | apply jseqb_refl].
Qed.

Lemma globalIds_In : forall es i,
  In i (globalIds es)
  <-> exists e, In e es /\ source e = global /\ u_id (utterance e) = i.
Proof.
  intros es i. unfold globalIds. rewrite in_map_iff. split.
  - intros [e [Hi He]]. apply filter_In in He. destruct He as [Hin Hm].
    exists e. destruct (source e) eqn:Es; [auto | discriminate].
  - intros [e [Hin [Hs Hi]]]. exists e. split; [exact Hi|].
    apply filter_In. split; [exact Hin|]. rewrite Hs. reflexivity.
Qed.

(** After the entries collected from a well-formed state have been marked,
    in any order, every pending utterance is delivered in its queue. *)
Lemma markedState_collected : forall st es,
  stateWf st ->
  Permutation es (collectPending st) ->
  markedState es st = deliverEverywhere st.
Proof.
  intros st es [Hwf Hq] P. unfold markedState, deliverEverywhere.
  rewrite Forall_forall in Hq.
  assert (Hin : forall e, In e es <-> In e (collectPending st)).
  { intro e. split; apply Permutation_in; [exact P | apply Permutation_sym, P]. }
  f_equal.
  - f_equal. apply map_ext_in. intros [k s] Hks. simpl.
    assert (Hs : In s (mapValues (sessions (sessionManager st)))).
    { unfold mapValues. apply in_map_iff. exists (k, s). auto. }
    assert (U : uniqueIds (utteranceQueue s)).
    { apply Hq. unfold allQueues. apply in_or_app. left. apply in_map, Hs. }
    destruct (registryWf_value_key _ _ Hwf Hs) as [Hid Hne].
    assert (Hk : s_id s = k).
    { destruct Hwf as [ND F]. rewrite Forall_forall in F.
      apply (F (k, s) Hks). }
    f_equal. f_equal. rewrite markAll_deliverIds by exact U.
    apply deliverIds_exact; [exact U|]. intro i. rewrite sessionIds_In. split.
    + intros [e [He [Hsrc [Hsid [_ Hi]]]]].
      assert (C : In e (collectPending st) /\ source e = session)
        by (split; [apply Hin, He | exact Hsrc]).
      apply (collectPending_session st e Hwf) in C.
      destruct C as [s' [u [Hs' [Hu Ee]]]]. subst e. simpl in *.
      assert (s' = s).
      { apply (registryWf_same_id _ _ _ Hwf Hs' Hs). congruence. }
      subst s'. exists u. auto.
    + intros [u [Hu Hi]]. exists (mkEntry u session (Some (s_id s))).
      split.
      * apply Hin. apply (collectPending_session st _ Hwf). exists s, u. auto.
      * simpl. rewrite Hk. repeat split; auto. congruence.
  - assert (U : uniqueIds (queue st)).
    { apply Hq. unfold allQueues. apply in_or_app. right. left. reflexivity. }
    rewrite markAll_deliverIds by exact U.
    apply deliverIds_exact; [exact U|]. intro i. rewrite globalIds_In. split.
    + intros [e [He [Hsrc Hi]]].
      assert (C : In e (collectPending st) /\ source e = global)
        by (split; [apply Hin, He | exact Hsrc]).
      apply collectPending_global in C. destruct C as [u [Hu Ee]].
      subst e. exists u. auto.
    + intros [u [Hu Hi]]. exists (mkEntry u global None). split.
      * apply Hin. apply collectPending_global. exists u. auto.
      * auto.
Qed.

Lemma deliverEverywhere_noPending : forall st, noPendingAnywhere (deliverEverywhere st).
Proof.
  intros st q u Hq Hu. unfold deliverEverywhere, allQueues, mapValues in Hq.
  simpl in Hq. rewrite !map_map in Hq. simpl in Hq.
  assert (D : exists q0, q = map deliverPending q0).
  { apply in_app_or in Hq. destruct Hq as [Hq|[Hq|[]]].
    - apply in_map_iff in Hq. destruct Hq as [e [He _]]. eauto.
    - eauto. }
  destruct D as [q0 D]. subst q. apply in_map_iff in Hu.
  destruct Hu as [v [Hv _]]. subst u. unfold deliverPending.
  destruct (u_status v) eqn:E; simpl; congruence.
Qed.

(** C3.  In a well-formed state (distinct registry keys, each session
    stored under its non-empty id, ids unique within each queue):
    when voice input is not active the dequeue returns the error, leaves the
    state as it is and the endpoint answers 400; when it is active the
    dequeue returns the text and timestamp of every pending utterance of
    every session queue and of the legacy queue, each once, newest first,
    and the state afterwards is the one in which each of them is delivered
    in its own queue and nothing else has changed, so that no queue holds a
    pending utterance. *)
Theorem dequeue_exhaustive : forall st,
  stateWf st ->
  (voiceInputActive (voicePreferences st) = false ->
     dequeueUtterancesCore st
     = (mkDequeue false
          (Some (lit "Voice input is not active. Cannot dequeue utterances when voice input is disabled."))
          None,
        st)
     /\ fst (fst (dequeueEndpoint st)) = 400
     /\ snd (dequeueEndpoint st) = st)
  /\ (voiceInputActive (voicePreferences st) = true ->
      exists sorted,
        Permutation sorted (allPending st)
        /\ StronglySorted notOlder sorted
        /\ dequeueUtterancesCore st
           = (mkDequeue true None
                (Some (map (fun u => (u_text u, u_timestamp u)) sorted)),
              deliverEverywhere st)
        /\ noPendingAnywhere (deliverEverywhere st)).
Proof.
  intros st Hwf. split.
  - intro Hoff. unfold dequeueEndpoint, dequeueUtterancesCore. rewrite Hoff.
    simpl. repeat split.
  - intro Hon.
    exists (map utterance (jsSort entryNewestFirst (collectPending st))).
    split; [|split; [|split]].
    + eapply Permutation_trans;
        [apply Permutation_map, jsSort_perm | apply collectPending_perm, Hwf].
    + apply dequeue_sorted.
    + unfold dequeueUtterancesCore. rewrite Hon. simpl negb. cbv iota.
      rewrite map_map. f_equal.
      rewrite fold_markEntry by apply Hwf.
      apply markedState_collected; [exact Hwf | apply jsSort_perm].
    + apply deliverEverywhere_noPending.
Qed.

Lemma pendingInTwoQueues_wf : stateWf pendingInTwoQueues.
Proof.
  split.
  - split; simpl.
    + constructor; [intros [] | constructor].
    + constructor; [split; [reflexivity | discriminate] | constructor].
  - unfold allQueues, uniqueIds. simpl.
    repeat constructor; simpl; intuition discriminate.
Defined.

(** A dequeue over a session queue and the legacy queue. *)
Lemma dequeue_exhaustive_witness :
  exists sorted,
    Permutation sorted (allPending pendingInTwoQueues)
    /\ StronglySorted notOlder sorted
    /\ dequeueUtterancesCore pendingInTwoQueues
       = (mkDequeue true None
            (Some (map (fun u => (u_text u, u_timestamp u)) sorted)),
          deliverEverywhere pendingInTwoQueues)
    /\ noPendingAnywhere (deliverEverywhere pendingInTwoQueues).
Proof.
  exact (proj2 (dequeue_exhaustive pendingInTwoQueues pendingInTwoQueues_wf) eq_refl).
Defined.

(** The dequeue of the example returns the legacy utterance of time 200
    before the session utterance of time 100. *)
Example dequeue_two_queues :
  fst (dequeueUtterancesCore pendingInTwoQueues)
  = mkDequeue true None (Some [(lit "three", 200); (lit "one", 100)]).
Proof. vm_compute. reflexivity. Qed.

(* ================================================================== *)
(** * The precedence of the pending gate *)

Lemma StronglySorted_snoc : forall (A : Type) (R : A -> A -> Prop) l a,
  StronglySorted R l -> Forall (fun x => R x a) l -> StronglySorted R (l ++ [a]).
Proof.
  intros A R l a H. induction H as [|x l Hl IH Hx]; intro F; simpl.
  - constructor; constructor.
  - inversion F as [|? ? Rxa Fl]; subst. constructor.
    + apply IH, Fl.
    + apply Forall_app. split; [exact Hx | constructor; [exact Rxa | constructor]].
Qed.

Lemma StronglySorted_rev : forall (A : Type) (R : A -> A -> Prop) l,
  StronglySorted R l -> StronglySorted (fun a b => R b a) (rev l).
Proof.
  intros A R l H. induction H as [|x l Hl IH Hx]; simpl.
  - constructor.
  - apply StronglySorted_snoc; [exact IH|].
    apply Forall_forall. intros y Hy. apply in_rev in Hy.
    rewrite Forall_forall in Hx. apply Hx, Hy.
Qed.

(** What the auto-delivery of the pending gate quotes and leaves behind in
    a well-formed state: the pending utterances of every queue, each once,
    oldest first, and the state in which each is delivered in its queue. *)
Lemma auto_delivery_effect : forall st,
  stateWf st ->
  voiceInputActive (voicePreferences st) = true ->
  exists quoted,
    Permutation quoted (allPending st)
    /\ StronglySorted notNewer quoted
    /\ autoDeliveredTexts st = map u_text quoted
    /\ snd (dequeueUtterancesCore st) = deliverEverywhere st.
Proof.
  intros st Hwf Hon.
  exists (rev (map utterance (jsSort entryNewestFirst (collectPending st)))).
  split; [|split; [|split]].
  - eapply Permutation_trans; [apply Permutation_sym, Permutation_rev|].
    eapply Permutation_trans;
      [apply Permutation_map, jsSort_perm | apply collectPending_perm, Hwf].
  - apply (StronglySorted_rev Utterance notOlder), dequeue_sorted.
  - unfold autoDeliveredTexts. rewrite <- map_rev, map_map. reflexivity.
  - unfold dequeueUtterancesCore. rewrite Hon. simpl negb. cbv iota. cbn [snd].
    rewrite fold_markEntry by apply Hwf.
    apply markedState_collected; [exact Hwf | apply jsSort_perm].
Qed.

(** C4, amended.  With voice input active, voice responses enabled and the
    legacy queue holding pending and delivered utterances, a tool
    invocation is blocked by the pending gate when auto-delivery is
    disabled (with the instruction to dequeue, the state unchanged) and
    when auto-delivery before tools is enabled: then, in a well-formed
    state, the reason quotes the text of every pending utterance of every
    queue, each once, oldest first, and the state afterwards is the one in
    which each of them is delivered in its own queue and nothing else has
    changed, so that no queue holds a pending utterance.  In both cases the
    reason is not that of the delivered gate.  With auto-delivery enabled
    and the sub-toggle off, the pending gate is skipped and the block is
    that of the delivered gate, the state unchanged. *)
Theorem gate_precedence_tool : forall cfg clk st,
  voiceInputActive (voicePreferences st) = true ->
  voiceResponsesEnabled (voicePreferences st) = true ->
  withStatus pending (queue st) <> [] ->
  withStatus delivered (queue st) <> [] ->
  let n := len (withStatus pending (queue st)) in
  let m := len (withStatus delivered (queue st)) in
  (AUTO_DELIVER_VOICE_INPUT cfg = false ->
     handleHookRequest cfg clk tool st
     = Some (mkHook block (Some (pendingReason n)), st)
     /\ pendingReason n <> deliveredReason m)
  /\ (AUTO_DELIVER_VOICE_INPUT cfg = true ->
      AUTO_DELIVER_VOICE_INPUT_BEFORE_TOOLS cfg = true ->
      stateWf st ->
      exists quoted,
        quoted <> []
        /\ Permutation quoted (allPending st)
        /\ StronglySorted notNewer quoted
        /\ handleHookRequest cfg clk tool st
           = Some (mkHook block
                     (Some (formatVoiceUtterances (map u_text quoted)
                              (deliverEverywhere st))),
                   deliverEverywhere st)
        /\ noPendingAnywhere (deliverEverywhere st)
        /\ formatVoiceUtterances (map u_text quoted) (deliverEverywhere st)
           <> deliveredReason m)
  /\ (AUTO_DELIVER_VOICE_INPUT cfg = true ->
      AUTO_DELIVER_VOICE_INPUT_BEFORE_TOOLS cfg = false ->
      handleHookRequest cfg clk tool st
      = Some (mkHook block (Some (deliveredReason m)), st)).
Proof.
  intros cfg clk st Hin Hresp Hpend Hdel n m. split; [|split].
  - intro Hauto. split.
    + apply pending_gate_manual; assumption.
    + apply pendingReason_not_deliveredReason.
  - intros Hauto Hbt Hwf.
    destruct (pending_gate_auto cfg clk tool st Hin Hauto (or_intror Hbt) Hpend)
      as [Hne Hres].
    destruct (auto_delivery_effect st Hwf Hin) as [quoted [P [S [Ht Hst]]]].
    rewrite Ht, Hst in Hres. rewrite Ht in Hne.
    exists quoted. split.
    { intro E. apply Hne. rewrite E. reflexivity. }
    split; [exact P|]. split; [exact S|]. split; [exact Hres|].
    split; [apply deliverEverywhere_noPending | apply formatted_not_deliveredReason].
  - intros Hauto Hbt.
    rewrite (delivered_gate cfg clk tool st Hresp); auto.
Qed.

Lemma pendingAndDelivered_wf : stateWf pendingAndDelivered.
Proof.
  split.
  - split; simpl; constructor.
  - unfold allQueues, uniqueIds. simpl.
    repeat constructor; simpl; intuition discriminate.
Defined.

(** The three configurations on the state with one pending and one
    delivered utterance in the legacy queue. *)
Lemma gate_precedence_tool_witness :
  (handleHookRequest manualConfig plainClock tool pendingAndDelivered
   = Some (mkHook block (Some (pendingReason 1)), pendingAndDelivered)
   /\ pendingReason 1 <> deliveredReason 1)
  /\ (exists quoted,
        quoted <> []
        /\ Permutation quoted (allPending pendingAndDelivered)
        /\ StronglySorted notNewer quoted
        /\ handleHookRequest eagerConfig plainClock tool pendingAndDelivered
           = Some (mkHook block
                     (Some (formatVoiceUtterances (map u_text quoted)
                              (deliverEverywhere pendingAndDelivered))),
                   deliverEverywhere pendingAndDelivered)
        /\ noPendingAnywhere (deliverEverywhere pendingAndDelivered)
        /\ formatVoiceUtterances (map u_text quoted)
             (deliverEverywhere pendingAndDelivered)
           <> deliveredReason 1)
  /\ (handleHookRequest defaultConfig plainClock tool pendingAndDelivered
      = Some (mkHook block (Some (deliveredReason 1)), pendingAndDelivered)).
Proof.
  assert (Hp : withStatus pending (queue pendingAndDelivered) <> [])
    by (vm_compute; discriminate).
  assert (Hd : withStatus delivered (queue pendingAndDelivered) <> [])
    by (vm_compute; discriminate).
  split; [|split].
  - exact (proj1 (gate_precedence_tool manualConfig plainClock pendingAndDelivered
                    eq_refl eq_refl Hp Hd) eq_refl).
  - exact (proj1 (proj2
             (gate_precedence_tool eagerConfig plainClock pendingAndDelivered
                eq_refl eq_refl Hp Hd)) eq_refl eq_refl pendingAndDelivered_wf).
  - exact (proj2 (proj2 (gate_precedence_tool defaultConfig plainClock
                           pendingAndDelivered eq_refl eq_refl Hp Hd))
             eq_refl eq_refl).
Defined.

(** On that state the eager configuration quotes the pending utterance and
    leaves both utterances delivered. *)
Example eager_gate_on_pendingAndDelivered :
  handleHookRequest eagerConfig plainClock tool pendingAndDelivered
  = Some (mkHook block
            (Some (formatVoiceUtterances [lit "second"]
                     (deliverEverywhere pendingAndDelivered))),
          deliverEverywhere pendingAndDelivered)
  /\ queue (deliverEverywhere pendingAndDelivered)
     = [utt "u1" "first" 100 delivered; utt "u2" "second" 200 delivered].
Proof. split; vm_compute; reflexivity. Qed.

(* ================================================================== *)
(** * The blocking wait *)

(** Turns that find nothing are skipped. *)
Lemma waitLoop_quiet : forall startTime quiet rest firstTime st,
  quietTurns startTime firstTime quiet st ->
  waitLoop startTime firstTime (quiet ++ rest) st
  = waitLoop startTime (match quiet with [] => firstTime | _ => false end) rest
      (afterQuiet firstTime quiet st).
Proof.
  intros startTime quiet rest. induction quiet as [|t q IH]; intros firstTime st H.
  - reflexivity.
  - destruct H as [Ht [Hon [Hnone Hq]]]. simpl app.
    cbn [waitLoop]. apply Z.ltb_lt in Ht. rewrite Ht, Hon, Hnone. simpl.
    fold (afterTurn firstTime t st). rewrite IH by exact Hq.
    destruct q; reflexivity.
Qed.

Lemma waitLoop_deactivated : forall startTime firstTime t rest st,
  t_test t - startTime < maxWaitMs ->
  voiceInputActive (voicePreferences st) = false ->
  waitLoop startTime firstTime (t :: rest) st
  = Some (deactivatedResult (t_ret t - startTime), notifyWaitStatus false st).
Proof.
  intros startTime firstTime t rest st Ht Hoff. cbn [waitLoop].
  apply Z.ltb_lt in Ht. rewrite Ht, Hoff. reflexivity.
Qed.

Lemma waitLoop_timeout : forall startTime firstTime t rest st,
  maxWaitMs <= t_test t - startTime ->
  waitLoop startTime firstTime (t :: rest) st
  = Some (timeoutResult, notifyWaitStatus false st).
Proof.
  intros startTime firstTime t rest st Ht. cbn [waitLoop].
  apply Z.ltb_ge in Ht. rewrite Ht. reflexivity.
Qed.

(** Whatever the loop returns is a non-empty list of utterances, the
    deactivation result or the timeout result. *)
Lemma waitLoop_outcomes : forall startTime ticks firstTime st r st',
  waitLoop startTime firstTime ticks st = Some (r, st') ->
  (w_success r = true /\ exists u us, w_utterances r = Some (u :: us))
  \/ (exists t, In t ticks /\ r = deactivatedResult (t_ret t - startTime))
  \/ r = timeoutResult.
Proof.
  intros startTime ticks. induction ticks as [|t rest IH]; intros firstTime st r st' H;
    [discriminate|].
  cbn [waitLoop] in H.
  destruct (t_test t - startTime <? maxWaitMs).
  - destruct (negb (voiceInputActive (voicePreferences st))).
    + inversion H; subst. right. left. exists t. split; [left|]; reflexivity.
    + destruct (0 <? len (collectPendingUtterances st)) eqn:E.
      * inversion H; subst. left. simpl. split; [reflexivity|].
        apply len_pos_iff in E.
        destruct (jsSort oldestFirst (collectPendingUtterances st)) as [|u us] eqn:Es.
        { apply jsSort_nil_inv in Es. contradiction. }
        simpl. eauto.
      * apply IH in H. destruct H as [H|[[t' [Hin H]]|H]]; auto.
        right. left. exists t'. split; [right; exact Hin | exact H].
  - inversion H; subst. right. right. reflexivity.
Qed.

(** The loop returns once a clock reading has passed the timeout. *)
Lemma waitLoop_returns : forall startTime ticks firstTime st,
  Exists (fun t => maxWaitMs <= t_test t - startTime) ticks ->
  exists r st', waitLoop startTime firstTime ticks st = Some (r, st').
Proof.
  intros startTime ticks. induction ticks as [|t rest IH]; intros firstTime st H.
  - inversion H.
  - cbn [waitLoop].
    destruct (t_test t - startTime <? maxWaitMs) eqn:Et; [|eauto].
    destruct (negb (voiceInputActive (voicePreferences st))); [eauto|].
    destruct (0 <? len (collectPendingUtterances st)); [eauto|].
    apply IH. inversion H as [? ? Hh|? ? Ht]; subst; [|exact Ht].
    apply Z.ltb_lt in Et. lia.
Qed.

(** C6.  The wait without utterances: (1) with voice input inactive at
    entry it fails at once, with an error and no utterance list, the state
    untouched, and the endpoint answers 400; (2) when, after turns that
    found nothing, a turn before the timeout sees voice input inactive, it
    succeeds with the empty list and the deactivation message; (3) when,
    after turns that found nothing, the clock has passed 60 seconds, it
    succeeds with the empty list and the timeout message; (4) any result is
    one of these three or carries a non-empty list of utterances; (5) the
    wait returns as soon as a clock reading has passed the timeout. *)
Theorem wait_outcomes : forall startTime ticks st,
  (voiceInputActive (voicePreferences st) = false ->
     waitForUtteranceCore startTime ticks st = Some (inactiveWaitResult, st)
     /\ waitEndpoint startTime ticks st = Some ((400, inactiveWaitResult), st)
     /\ w_success inactiveWaitResult = false
     /\ w_error inactiveWaitResult <> None
     /\ w_utterances inactiveWaitResult = None)
  /\ (forall quiet t rest,
        voiceInputActive (voicePreferences st) = true ->
        ticks = quiet ++ t :: rest ->
        quietTurns startTime true quiet (notifyWaitStatus true st) ->
        t_test t - startTime < maxWaitMs ->
        voiceInputActive
          (voicePreferences (afterQuiet true quiet (notifyWaitStatus true st)))
        = false ->
        waitEndpoint startTime ticks st
        = Some ((200, deactivatedResult (t_ret t - startTime)),
                notifyWaitStatus false
                  (afterQuiet true quiet (notifyWaitStatus true st))))
  /\ (forall quiet t rest,
        voiceInputActive (voicePreferences st) = true ->
        ticks = quiet ++ t :: rest ->
        quietTurns startTime true quiet (notifyWaitStatus true st) ->
        maxWaitMs <= t_test t - startTime ->
        waitEndpoint startTime ticks st
        = Some ((200, timeoutResult),
                notifyWaitStatus false
                  (afterQuiet true quiet (notifyWaitStatus true st))))
  /\ (forall r st',
        waitForUtteranceCore startTime ticks st = Some (r, st') ->
        (w_success r = true /\ exists u us, w_utterances r = Some (u :: us))
        \/ r = inactiveWaitResult
        \/ (exists t, In t ticks /\ r = deactivatedResult (t_ret t - startTime))
        \/ r = timeoutResult)
  /\ (Exists (fun t => maxWaitMs <= t_test t - startTime) ticks ->
      exists r st', waitForUtteranceCore startTime ticks st = Some (r, st')).
Proof.
  intros startTime ticks st. split; [|split; [|split; [|split]]].
  - intro Hoff. unfold waitEndpoint, waitForUtteranceCore. rewrite Hoff. simpl.
    repeat split. discriminate.
  - intros quiet t rest Hon Hticks Hq Ht Hoff.
    unfold waitEndpoint, waitForUtteranceCore. rewrite Hon. simpl negb. cbv iota.
    rewrite Hticks, (waitLoop_quiet _ _ _ _ _ Hq).
    rewrite waitLoop_deactivated by assumption. reflexivity.
  - intros quiet t rest Hon Hticks Hq Ht.
    unfold waitEndpoint, waitForUtteranceCore. rewrite Hon. simpl negb. cbv iota.
    rewrite Hticks, (waitLoop_quiet _ _ _ _ _ Hq).
    rewrite waitLoop_timeout by assumption. reflexivity.
  - intros r st' H. unfold waitForUtteranceCore in H.
    destruct (negb (voiceInputActive (voicePreferences st))).
    + inversion H; subst. right. left. reflexivity.
    + apply waitLoop_outcomes in H. destruct H as [H|[H|H]]; auto.
  - intro H. unfold waitForUtteranceCore.
    destruct (negb (voiceInputActive (voicePreferences st))); [eauto|].
    apply waitLoop_returns, H.
Qed.

(** The three outcomes: voice input inactive at entry; the microphone
    switched off during the second turn; three turns until the clock reads
    60 seconds. *)
Lemma wait_outcomes_witness :
  waitEndpoint 0 [] initialState = Some ((400, inactiveWaitResult), initialState)
  /\ (exists st',
        waitEndpoint 0 [idleTick 0; micOffTick 100; idleTick 200] listening
        = Some ((200, deactivatedResult 200), st'))
  /\ (exists st',
        waitEndpoint 0 [idleTick 0; idleTick 30000; idleTick 60000] listening
        = Some ((200, timeoutResult), st')).
Proof.
  split; [|split].
  - exact (proj1 (proj2 (proj1 (wait_outcomes 0 [] initialState) eq_refl))).
  - eexists.
    refine (proj1 (proj2 (wait_outcomes 0 [idleTick 0; micOffTick 100; idleTick 200]
                            listening))
              [idleTick 0; micOffTick 100] (idleTick 200) [] eq_refl eq_refl _ _ eq_refl).
    + simpl. unfold maxWaitMs, WAIT_TIMEOUT_SECONDS. repeat split; lia.
    + unfold maxWaitMs, WAIT_TIMEOUT_SECONDS. simpl. lia.
  - eexists.
    refine (proj1 (proj2 (proj2 (wait_outcomes 0
                                   [idleTick 0; idleTick 30000; idleTick 60000]
                                   listening)))
              [idleTick 0; idleTick 30000] (idleTick 60000) [] eq_refl eq_refl _ _).
    + simpl. unfold maxWaitMs, WAIT_TIMEOUT_SECONDS. repeat split; lia.
    + unfold maxWaitMs, WAIT_TIMEOUT_SECONDS. simpl. lia.
Defined.

(* ================================================================== *)
(** * Speak *)

Lemma trim_empty_textMissing : forall t, trim t = [] -> textMissing (Some t) = true.
Proof.
  intros t H. unfold textMissing. rewrite H. simpl. apply orb_true_r.
Qed.

Lemma trim_nonempty_textMissing : forall t, trim t <> [] -> textMissing (Some t) = false.
Proof.
  intros t H. unfold textMissing.
  destruct (trim t) as [|c r] eqn:E; [contradiction|].
  destruct t as [|c' t']; [discriminate E | reflexivity].
Qed.

Lemma Forall2_map_fun : forall (A B : Type) (f : A -> B) l,
  Forall2 (fun x y => y = f x) l (map f l).
Proof.
  intros A B f l. induction l; simpl; constructor; auto.
Qed.

(** C7.  A speak request whose text is missing or empty after trimming, or
    that arrives while voice responses are disabled, is answered 400 and
    leaves the whole state as it was.  Otherwise it is answered 200: each
    delivered utterance of the legacy queue becomes responded and the other
    utterances of that queue are untouched, the session registry with every
    session queue is as before, and the last-speak time is the current
    time. *)
Theorem speak_effects : forall now text st,
  ((voiceResponsesEnabled (voicePreferences st) = false
    \/ text = None
    \/ (exists t, text = Some t /\ trim t = [])) ->
   exists body, speakHandler now text st = ((400, body), st))
  /\ (forall t,
        text = Some t -> trim t <> [] ->
        voiceResponsesEnabled (voicePreferences st) = true ->
        exists who name st',
          speakHandler now text st
          = ((200, SpeakOk (len (withStatus delivered (queue st))) who name), st')
          /\ Forall2
               (fun u u' =>
                  u' = if status_eqb (u_status u) delivered
                       then setStatus responded u else u)
               (queue st) (queue st')
          /\ withStatus delivered (queue st') = []
          /\ sessionManager st' = sessionManager st
          /\ lastSpeakTimestamp st' = Some now).
Proof.
  intros now text st. split.
  - intros H. unfold speakHandler.
    destruct text as [t|]; [|eauto].
    destruct (textMissing (Some t)) eqn:M; [eauto|].
    destruct H as [H|[H|[t' [Ht Hempty]]]].
    + rewrite H. simpl. eauto.
    + discriminate.
    + inversion Ht; subst t'. rewrite (trim_empty_textMissing t Hempty) in M.
      discriminate.
  - intros t Ht Hne Hon. subst text. unfold speakHandler.
    rewrite (trim_nonempty_textMissing t Hne), Hon. simpl negb. cbv iota.
    destruct (speakingSession st) as [who name].
    eexists. eexists. eexists. split; [reflexivity|]. simpl.
    split; [apply Forall2_map_fun|]. split; [|split; reflexivity].
    unfold withStatus, markResponded.
    induction (queue st) as [|u r IH]; simpl; [reflexivity|].
    destruct (u_status u) eqn:E; simpl; rewrite ?E; simpl; exact IH.
Qed.

(** A request with voice responses disabled, a blank text, and a spoken
    response that marks the legacy queue. *)
Lemma speak_effects_witness :
  (exists body, speakHandler 500 (Some (lit "hi")) listening = ((400, body), listening))
  /\ (exists body,
        speakHandler 500 (Some (lit "   ")) deliveredInBoth
        = ((400, body), deliveredInBoth))
  /\ (exists who name st',
        speakHandler 500 (Some (lit "hi")) deliveredInBoth
        = ((200, SpeakOk 1 who name), st')
        /\ withStatus delivered (queue st') = []
        /\ sessionManager st' = sessionManager deliveredInBoth
        /\ lastSpeakTimestamp st' = Some 500).
Proof.
  split; [|split].
  - exact (proj1 (speak_effects 500 (Some (lit "hi")) listening) (or_introl eq_refl)).
  - apply (proj1 (speak_effects 500 (Some (lit "   ")) deliveredInBoth)).
    right. right. exists (lit "   "). split; reflexivity.
  - destruct (proj2 (speak_effects 500 (Some (lit "hi")) deliveredInBoth)
                (lit "hi") eq_refl ltac:(discriminate) eq_refl)
      as [who [name [st' [H1 [_ [H3 [H4 H5]]]]]]].
    exists who, name, st'. auto.
Defined.

(** In the example the delivered utterance of session [s1] is still
    delivered after the spoken response, which is attributed to [s1]. *)
Example speak_leaves_session_queue :
  fst (speakHandler 500 (Some (lit "hi")) deliveredInBoth)
  = (200, SpeakOk 1 (Some (lit "s1")) None)
  /\ allQueues (snd (speakHandler 500 (Some (lit "hi")) deliveredInBoth))
     = [[utt "a1" "one" 100 delivered];
        [utt "g1" "two" 200 responded; utt "g2" "three" 300 pending]].
Proof. vm_compute. split; reflexivity. Qed.

(* ================================================================== *)
(** * The utterance queue *)

(** X1.  [markDelivered] is idempotent, and it changes at most the status
    of utterances with the given id: every other utterance, the order and
    the length of the queue are kept. *)
Theorem markDelivered_idempotent : forall id q,
  markDelivered id (markDelivered id q) = markDelivered id q
  /\ Forall2 (fun u u' => u' = u \/ (u_id u = id /\ u' = setStatus delivered u))
       q (markDelivered id q).
Proof.
  intros id q. induction q as [|u r [IH1 IH2]]; simpl.
  - split; [reflexivity | constructor].
  - destruct (jseqb (u_id u) id) eqn:E; simpl.
    + rewrite E. split; [reflexivity|]. constructor.
      * right. apply jseqb_eq in E. auto.
      * clear. induction r; constructor; auto.
    + rewrite E, IH1. split; [reflexivity|]. constructor; auto.
Qed.

Lemma hasId_false_In : forall id q u,
  hasId id q = false -> In u q -> u_id u <> id.
Proof.
  intros id q u H Hin E. unfold hasId in H.
  assert (existsb (fun v => jseqb (u_id v) id) q = true).
  { apply existsb_exists. exists u. split; [exact Hin | apply jseqb_eq, E]. }
  congruence.
Qed.

(** X2.  [markDelivered] with an id that the queue does not hold leaves the
    queue as it is. *)
Theorem markDelivered_absent : forall id q,
  hasId id q = false -> markDelivered id q = q.
Proof.
  intros id q. induction q as [|u r IH]; simpl; intro H; [reflexivity|].
  apply orb_false_iff in H. destruct H as [Hu Hr]. rewrite Hu.
  rewrite (IH Hr). reflexivity.
Qed.

Lemma markDelivered_absent_witness :
  markDelivered (lit "zz") [utt "u1" "hello" 100 pending]
  = [utt "u1" "hello" 100 pending].
Proof. apply markDelivered_absent. reflexivity. Defined.

(** X3.  [markDelivered] with an id that the queue holds sets the first
    utterance with that id to delivered, whatever its status was. *)
Theorem markDelivered_present : forall id q,
  hasId id q = true ->
  exists before u after,
    q = before ++ u :: after
    /\ hasId id before = false
    /\ u_id u = id
    /\ markDelivered id q = before ++ setStatus delivered u :: after.
Proof.
  intros id q. induction q as [|u r IH]; simpl; intro H; [discriminate|].
  destruct (jseqb (u_id u) id) eqn:E.
  - exists [], u, r. apply jseqb_eq in E. repeat split; auto.
  - simpl in H. destruct (IH H) as [b [v [a [Hq [Hb [Hv Hm]]]]]].
    exists (u :: b), v, a. subst r. simpl. rewrite E, Hb, Hm. repeat split; auto.
Qed.

Lemma markDelivered_present_witness :
  exists before u after,
    [utt "u1" "a" 100 responded; utt "u2" "b" 200 pending]
    = before ++ u :: after
    /\ hasId (lit "u1") before = false
    /\ u_id u = lit "u1"
    /\ markDelivered (lit "u1")
         [utt "u1" "a" 100 responded; utt "u2" "b" 200 pending]
       = before ++ setStatus delivered u :: after.
Proof. apply markDelivered_present. reflexivity. Defined.

Lemma firstn_In_list : forall (A : Type) n (l : list A) x,
  In x (firstn n l) -> In x l.
Proof.
  intros A n l. revert n. induction l as [|y r IH]; intros n x H.
  - rewrite firstn_nil in H. exact H.
  - destruct n; simpl in H; [contradiction|].
    destruct H as [H|H]; [left; exact H | right; eapply IH, H].
Qed.

Lemma StronglySorted_firstn : forall (A : Type) (R : A -> A -> Prop) n l,
  StronglySorted R l -> StronglySorted R (firstn n l).
Proof.
  intros A R n l. revert n. induction l as [|x r IH]; intros n S.
  - rewrite firstn_nil. constructor.
  - destruct n; simpl; [constructor|].
    inversion S as [|? ? Sr Fr]; subst. constructor; [apply IH, Sr|].
    rewrite Forall_forall in *. intros y Hy. apply Fr.
    eapply firstn_In_list, Hy.
Qed.

Lemma newestFirst_sorted : forall q, StronglySorted notOlder (jsSort newestFirst q).
Proof.
  intro q. apply (jsSort_sorted Utterance u_timestamp). intros a b. reflexivity.
Qed.

(** X4.  [getRecent(limit)] returns the [limit] newest utterances (all of
    them when there are fewer), newest first; it reorders the queue itself
    but neither adds nor drops an utterance. *)
Theorem getRecent_newest_first : forall limit q,
  StronglySorted notOlder (fst (getRecent limit q))
  /\ length (fst (getRecent limit q)) = Nat.min limit (length q)
  /\ Permutation (snd (getRecent limit q)) q
  /\ StronglySorted notOlder (snd (getRecent limit q))
  /\ exists rest, snd (getRecent limit q) = fst (getRecent limit q) ++ rest.
Proof.
  intros limit q. unfold getRecent. simpl.
  split; [apply StronglySorted_firstn, newestFirst_sorted|].
  split.
  { rewrite length_firstn. f_equal.
    apply Permutation_length, jsSort_perm. }
  split; [apply jsSort_perm|]. split; [apply newestFirst_sorted|].
  exists (skipn limit (jsSort newestFirst q)). symmetry. apply firstn_skipn.
Qed.

(** X5.  An utterance added with a timestamp later than every timestamp of
    the queue is the one that [getRecent(1)] returns, and it is pending. *)
Theorem add_then_getRecent : forall uuid now text timestamp q,
  (forall u, In u q ->
     u_timestamp u < match timestamp with Some t => t | None => now end) ->
  fst (getRecent 1 (snd (add uuid now text timestamp q)))
  = [fst (add uuid now text timestamp q)]
  /\ u_status (fst (add uuid now text timestamp q)) = pending
  /\ u_text (fst (add uuid now text timestamp q)) = trim text.
Proof.
  intros uuid now text timestamp q Hnew. unfold add, getRecent. simpl.
  set (new := mkUtterance uuid (trim text)
                (match timestamp with Some t => t | None => now end) pending).
  split; [|split; reflexivity].
  pose proof (newestFirst_sorted (q ++ [new])) as S.
  pose proof (jsSort_perm _ newestFirst (q ++ [new])) as P.
  destruct (jsSort newestFirst (q ++ [new])) as [|h r] eqn:E.
  { apply Permutation_nil in P. destruct q; discriminate. }
  simpl. f_equal.
  assert (Hh : In h (q ++ [new])) by (apply (Permutation_in _ P); left; reflexivity).
  apply in_app_or in Hh. destruct Hh as [Hh|[Hh|[]]]; [|symmetry; exact Hh].
  exfalso.
  assert (Hn : In new (h :: r)).
  { apply (Permutation_in _ (Permutation_sym P)). apply in_or_app. right. left.
    reflexivity. }
  specialize (Hnew h Hh).
  destruct Hn as [Hn|Hn].
  - subst h. simpl in Hnew. lia.
  - inversion S as [|? ? _ F]; subst. rewrite Forall_forall in F.
    specialize (F new Hn). unfold notOlder in F. simpl in F. lia.
Qed.

Lemma add_then_getRecent_witness :
  fst (getRecent 1
         (snd (add (lit "u9") 500 (lit " hi ") None [utt "u1" "hello" 100 pending])))
  = [mkUtterance (lit "u9") (lit "hi") 500 pending].
Proof.
  refine (proj1 (add_then_getRecent (lit "u9") 500 (lit " hi ") None
                   [utt "u1" "hello" 100 pending] _)).
  intros u [Hu|[]]. subst u. simpl. lia.
Defined.

(* ================================================================== *)
(** * Session ids *)

Lemma toInt32_range : forall z, -2147483648 <= toInt32 z < 2147483648.
Proof.
  intro z. unfold toInt32.
  pose proof (Z.mod_pos_bound (z + 2147483648) 4294967296 ltac:(lia)). lia.
Qed.

Lemma hash_range : forall str h,
  -2147483648 <= h < 2147483648 ->
  -2147483648 <= fold_left hashStep str h < 2147483648.
Proof.
  induction str as [|c r IH]; intros h Hh; simpl; [exact Hh|].
  apply IH. unfold hashStep. apply toInt32_range.
Qed.

Lemma digitChar_base36 : forall d, 0 <= d < 36 -> isBase36 (digitChar d).
Proof.
  intros d Hd. unfold digitChar, isBase36.
  destruct (d <? 10) eqn:E; [apply Z.ltb_lt in E | apply Z.ltb_ge in E]; lia.
Qed.

Lemma radixDigits_chars : forall fuel n acc,
  Forall isBase36 acc -> Forall isBase36 (radixDigits fuel 36 n acc).
Proof.
  induction fuel as [|f IH]; intros n acc Hacc; simpl; [exact Hacc|].
  assert (Forall isBase36 (digitChar (n mod 36) :: acc)).
  { constructor; [|exact Hacc]. apply digitChar_base36.
    apply Z.mod_pos_bound. lia. }
  destruct (n / 36 =? 0); [assumption | apply IH; assumption].
Qed.

Lemma radixDigits_length : forall fuel k n acc,
  0 <= n < 36 ^ Z.of_nat (S k) ->
  (S (length acc) <= length (radixDigits (S fuel) 36 n acc) <= S k + length acc)%nat.
Proof.
  induction fuel as [|f IH]; intros k n acc Hn.
  - simpl. destruct (n / 36 =? 0); simpl; lia.
  - change (radixDigits (S (S f)) 36 n acc)
      with (if n / 36 =? 0 then digitChar (n mod 36) :: acc
            else radixDigits (S f) 36 (n / 36) (digitChar (n mod 36) :: acc)).
    destruct (n / 36 =? 0) eqn:E; [simpl; lia|].
    apply Z.eqb_neq in E.
    destruct k as [|k'].
    + exfalso. apply E. apply Z.div_small. simpl in Hn. lia.
    + assert (Hq : 0 <= n / 36 < 36 ^ Z.of_nat (S k')).
      { split; [apply Z.div_pos; lia|].
        apply Z.div_lt_upper_bound; [lia|].
        replace (Z.of_nat (S (S k'))) with (Z.succ (Z.of_nat (S k'))) in Hn by lia.
        rewrite Z.pow_succ_r in Hn by lia. lia. }
      specialize (IH k' (n / 36) (digitChar (n mod 36) :: acc) Hq).
      cbn [length] in IH. lia.
Qed.

(** X6.  A hashed session id is [session_] followed by one to six
    characters of [0-9a-z]: the hash is kept within 32 bits. *)
Theorem simpleHash_shape : forall str,
  exists digits,
    simpleHash str = lit "session_" ++ digits
    /\ (1 <= length digits <= 6)%nat
    /\ Forall isBase36 digits.
Proof.
  intro str. unfold simpleHash.
  set (h := fold_left hashStep str 0).
  assert (Hh : -2147483648 <= h < 2147483648) by (apply hash_range; lia).
  exists (numToString 36 (Z.abs h)). split; [reflexivity|].
  unfold numToString. rewrite (Z.abs_eq (Z.abs h)) by lia.
  destruct (Z.abs h <? 0) eqn:E; [apply Z.ltb_lt in E; lia|].
  split.
  - pose proof (radixDigits_length (Z.to_nat (Z.log2 (Z.abs h))) 5 (Z.abs h) []) as L.
    simpl length in L. apply L. change (36 ^ Z.of_nat 6) with 2176782336. lia.
  - apply radixDigits_chars. constructor.
Qed.

Lemma generateSessionId_explicit : forall seed d c s,
  d_sessionId d = Some (c :: s) -> generateSessionId seed d = c :: s.
Proof.
  intros seed d c s H. unfold generateSessionId. rewrite H. reflexivity.
Qed.

Lemma generateSessionId_seedless : forall seed1 seed2 d,
  truthy (d_sessionId d) = true
  \/ truthy (extractProjectPath d) = true
  \/ truthy (d_workingDirectory d) = true ->
  generateSessionId seed1 d = generateSessionId seed2 d.
Proof.
  intros seed1 seed2 d H. unfold generateSessionId.
  destruct (d_sessionId d) as [[|c s]|] eqn:Eid; try reflexivity.
  - destruct H as [H|[H|H]]; [discriminate | rewrite H | rewrite H];
      simpl; rewrite ?andb_false_r; reflexivity.
  - destruct H as [H|[H|H]]; [discriminate | rewrite H | rewrite H];
      simpl; rewrite ?andb_false_r; reflexivity.
Qed.

(** X7.  With an explicit session id, a project path or a working
    directory in the session data, the session id does not depend on the
    clock; an explicit id is returned as it is. *)
Theorem generateSessionId_stable : forall seed1 seed2 d,
  truthy (d_sessionId d) = true
  \/ truthy (extractProjectPath d) = true
  \/ truthy (d_workingDirectory d) = true ->
  generateSessionId seed1 d = generateSessionId seed2 d
  /\ (forall id, d_sessionId d = Some id -> id <> [] -> generateSessionId seed1 d = id).
Proof.
  intros seed1 seed2 d H. split.
  - apply generateSessionId_seedless, H.
  - intros id Hid Hne. destruct id as [|c s]; [contradiction|].
    apply generateSessionId_explicit, Hid.
Qed.

Lemma generateSessionId_stable_witness :
  generateSessionId 1 (mkSessionData None None (Some (lit "/work")) None None None)
  = generateSessionId 2 (mkSessionData None None (Some (lit "/work")) None None None).
Proof.
  exact (proj1 (generateSessionId_stable 1 2
                  (mkSessionData None None (Some (lit "/work")) None None None)
                  (or_intror (or_intror eq_refl)))).
Defined.

(** X8.  The session a request is registered under depends on the fields
    of the request and on the working directory of the process only, not
    on the clock or on the state of the server. *)
Theorem request_session_stable : forall processCwd seed1 seed2 now1 now2 req st1 st2,
  processCwd <> [] ->
  fst (registerSessionFromRequest processCwd seed1 now1 req st1)
  = fst (registerSessionFromRequest processCwd seed2 now2 req st2).
Proof.
  intros processCwd seed1 seed2 now1 now2 req st1 st2 Hne.
  unfold registerSessionFromRequest.
  assert (E : generateSessionId seed1 (sessionDataOfRequest processCwd req)
              = generateSessionId seed2 (sessionDataOfRequest processCwd req)).
  { apply generateSessionId_seedless. right. right.
    unfold sessionDataOfRequest. simpl.
    destruct (body_cwd req) as [[|c w]|]; simpl;
      try reflexivity; destruct processCwd; try contradiction; reflexivity. }
  unfold registerSession. rewrite E.
  destruct (mapGet _ (sessions (sessionManager st1)));
    destruct (mapGet _ (sessions (sessionManager st2))); reflexivity.
Qed.

Lemma request_session_stable_witness :
  fst (registerSessionFromRequest (lit "/srv") 1 1
         (mkRequest None (Some (lit "/work")) None None None None) initialState)
  = fst (registerSessionFromRequest (lit "/srv") 2 2
           (mkRequest None (Some (lit "/work")) None None None None) listening).
Proof.
  apply request_session_stable. discriminate.
Defined.

(* ================================================================== *)
(** * Project paths and names *)

Lemma splitOn_parts : forall sep s p,
  In p (splitOn sep s) -> ~ In sep p /\ (forall c, In c p -> In c s).
Proof.
  intros sep s. induction s as [|c r IH]; intros p Hp; simpl in Hp.
  - destruct Hp as [Hp|[]]. subst p. split; [intros [] | intros c []].
  - destruct (c =? sep) eqn:E.
    + destruct Hp as [Hp|Hp].
      * subst p. split; [intros [] | intros x []].
      * destruct (IH p Hp) as [H1 H2]. split; [exact H1|].
        intros x Hx. right. apply H2, Hx.
    + apply Z.eqb_neq in E.
      destruct (splitOn sep r) as [|p0 ps] eqn:Es.
      * destruct Hp as [Hp|[]]. subst p. split.
        -- intros [H|[]]. congruence.
        -- intros x [Hx|[]]. left. exact Hx.
      * destruct Hp as [Hp|Hp].
        -- subst p. destruct (IH p0 (or_introl eq_refl)) as [H1 H2]. split.
           ++ intros [H|H]; [congruence | contradiction].
           ++ intros x [Hx|Hx]; [left; exact Hx | right; apply H2, Hx].
        -- destruct (IH p (or_intror Hp)) as [H1 H2]. split; [exact H1|].
           intros x Hx. right. apply H2, Hx.
Qed.

(** X9.  A project name, when there is one, is a non-empty string without
    slash or backslash, made of characters of the path. *)
Theorem extractProjectName_segment : forall path name,
  extractProjectName path = Some name ->
  name <> []
  /\ ~ In 47 name /\ ~ In 92 name
  /\ exists p, path = Some p /\ forall c, In c name -> In c p.
Proof.
  intros path name H. unfold extractProjectName in H.
  destruct path as [[|c p]|]; try discriminate.
  cbv zeta in H.
  remember (map (fun x => if x =? 92 then 47 else x) (c :: p)) as normalized
    eqn:En.
  match type of H with
  | match ?t with _ => _ end = _ => destruct t as [|lastPart rest] eqn:E
  end; [discriminate|].
  inversion H; subst lastPart. clear H.
  assert (Hin : In name (filter (fun part : list Z => 0 <? len part)
                            (splitOn 47 normalized))).
  { apply in_rev. unfold jsstring in *. rewrite E. left. reflexivity. }
  apply filter_In in Hin. destruct Hin as [Hin Hlen].
  destruct (splitOn_parts 47 normalized name Hin) as [H47 Hsub].
  assert (Hnorm : forall x, In x normalized -> x <> 92 /\ (x = 47 \/ In x (c :: p))).
  { intros x Hx. rewrite En in Hx. apply in_map_iff in Hx.
    destruct Hx as [y [Hy Hiny]]. destruct (y =? 92) eqn:Ey.
    - subst x. split; [discriminate | left; reflexivity].
    - apply Z.eqb_neq in Ey. subst x. split; [exact Ey | right; exact Hiny]. }
  split; [apply len_pos_iff, Hlen|]. split; [exact H47|]. split.
  - intro H92. apply Hsub, Hnorm in H92. destruct H92 as [H92 _]. congruence.
  - exists (c :: p). split; [reflexivity|]. intros x Hx.
    destruct (Hnorm x (Hsub x Hx)) as [_ [E47|Hp]]; [|exact Hp].
    subst x. contradiction.
Qed.

Lemma extractProjectName_segment_witness :
  extractProjectName (Some (lit "C:\work\demo\")) = Some (lit "demo")
  /\ lit "demo" <> [] /\ ~ In 47 (lit "demo") /\ ~ In 92 (lit "demo").
Proof.
  split; [reflexivity|].
  destruct (extractProjectName_segment (Some (lit "C:\work\demo\")) (lit "demo")
              eq_refl) as [H1 [H2 [H3 _]]].
  auto.
Defined.

Lemma stripClaudeSuffix_cons : forall c r,
  stripClaudeSuffix (c :: r)
  = if startsWith (lit "/.claude/") (c :: r)
       && negb (existsb isLineTerminator (skipn 9 (c :: r)))
    then [] else c :: stripClaudeSuffix r.
Proof. reflexivity. Qed.

Lemma startsWith_split : forall p s,
  startsWith p s = true -> s = p ++ skipn (length p) s.
Proof.
  induction p as [|x p IH]; intros s H; [reflexivity|].
  destruct s as [|y s]; [discriminate|]. simpl in H.
  apply andb_true_iff in H. destruct H as [Hx Hp].
  apply Z.eqb_eq in Hx. subst y. simpl. f_equal. apply IH, Hp.
Qed.

(** X10.  Cutting a transcript path returns the path itself or the part
    of it before a [/.claude/] that is followed by no line terminator. *)
Theorem stripClaudeSuffix_prefix : forall s,
  stripClaudeSuffix s = s
  \/ exists tail,
       s = stripClaudeSuffix s ++ lit "/.claude/" ++ tail
       /\ existsb isLineTerminator tail = false.
Proof.
  induction s as [|c r IH]; [left; reflexivity|].
  rewrite stripClaudeSuffix_cons.
  destruct (startsWith (lit "/.claude/") (c :: r)
            && negb (existsb isLineTerminator (skipn 9 (c :: r)))) eqn:E.
  - right. apply andb_true_iff in E. destruct E as [Hs Ht].
    exists (skipn 9 (c :: r)). split.
    + apply (startsWith_split (lit "/.claude/")), Hs.
    + apply negb_true_iff, Ht.
  - destruct IH as [IH|[tail [Hs Ht]]].
    + left. rewrite IH. reflexivity.
    + right. exists tail. split; [|exact Ht]. simpl. f_equal. exact Hs.
Qed.

Lemma startsWith_second : forall c s,
  startsWith (lit "/.claude/") (c :: s) = true ->
  exists s', s = 46 :: s'.
Proof.
  intros c s H. change (lit "/.claude/") with (47 :: 46 :: lit "claude/") in H.
  cbn [startsWith] in H. apply andb_true_iff in H. destruct H as [_ H].
  destruct s as [|d s']; [discriminate|].
  cbn [startsWith] in H. apply andb_true_iff in H. destruct H as [Hd _].
  apply Z.eqb_eq in Hd. subst d. eauto.
Qed.

Lemma extractProjectPath_strip : forall t wd agent version,
  t <> [] ->
  stripClaudeSuffix t <> t ->
  extractProjectPath (mkSessionData None None wd agent version (Some t))
  = Some (stripClaudeSuffix t).
Proof.
  intros t wd agent version Hne Hcut. unfold extractProjectPath.
  cbn [d_projectPath d_transcriptPath d_workingDirectory truthy].
  destruct t as [|c r]; [contradiction|].
  destruct (jseqb (stripClaudeSuffix (c :: r)) (c :: r)) eqn:E.
  - apply jseqb_eq in E. contradiction.
  - reflexivity.
Qed.

(** X11.  For a project directory without a dot in its path, the project
    path taken from the transcript path [<dir>/.claude/<rest>] is the
    directory, whatever working directory the session data carries. *)
Theorem extractProjectPath_transcript : forall dir rest wd agent version,
  ~ In 46 dir ->
  existsb isLineTerminator rest = false ->
  extractProjectPath
    (mkSessionData None None wd agent version
       (Some (dir ++ lit "/.claude/" ++ rest)))
  = Some dir.
Proof.
  intros dir rest wd agent version Hdot Hrest.
  assert (Hstrip : stripClaudeSuffix (dir ++ lit "/.claude/" ++ rest) = dir).
  { induction dir as [|c d IH].
    - change ([] ++ lit "/.claude/" ++ rest) with (47 :: (lit ".claude/" ++ rest)).
      rewrite stripClaudeSuffix_cons.
      change (skipn 9 (47 :: (lit ".claude/" ++ rest))) with rest.
      rewrite Hrest. reflexivity.
    - change ((c :: d) ++ lit "/.claude/" ++ rest)
        with (c :: (d ++ lit "/.claude/" ++ rest)).
      rewrite stripClaudeSuffix_cons.
      destruct (startsWith (lit "/.claude/") (c :: d ++ lit "/.claude/" ++ rest))
        eqn:Es.
      + exfalso. apply startsWith_second in Es. destruct Es as [s' Es].
        destruct d as [|x d']; [discriminate Es|].
        inversion Es; subst. apply Hdot. right. left. reflexivity.
      + cbn [andb]. f_equal. apply IH. intro H. apply Hdot. right. exact H. }
  rewrite <- Hstrip at 2. apply extractProjectPath_strip.
  - intro E. apply (f_equal (@length Z)) in E.
    rewrite !length_app in E. simpl in E. lia.
  - rewrite Hstrip. intro E. apply (f_equal (@length Z)) in E.
    rewrite !length_app in E. simpl in E. lia.
Qed.

Lemma extractProjectPath_transcript_witness :
  extractProjectPath
    (mkSessionData None None (Some (lit "/elsewhere")) None None
       (Some (lit "/home/u/proj" ++ lit "/.claude/" ++ lit "projects/x.jsonl")))
  = Some (lit "/home/u/proj").
Proof.
  apply extractProjectPath_transcript.
  - vm_compute. intuition discriminate.
  - reflexivity.
Defined.

(* ================================================================== *)
(** * The registry: lookups, frames and elections *)

(** X12.  After [registerSession] the returned id is registered: the
    session under it is flagged active and stamped with the current time.
    No other key of the registry is touched, and no key is removed. *)
Theorem registerSession_lookup : forall seed now d sm,
  (exists s,
     getSession (fst (registerSession seed now d sm))
       (snd (registerSession seed now d sm)) = Some s
     /\ isActive s = true /\ lastActivity s = now)
  /\ (forall k, k <> fst (registerSession seed now d sm) ->
        getSession k (snd (registerSession seed now d sm)) = getSession k sm)
  /\ (forall k s, getSession k sm = Some s ->
        exists s', getSession k (snd (registerSession seed now d sm)) = Some s'
                   /\ utteranceQueue s' = utteranceQueue s).
Proof.
  intros seed now d sm. unfold getSession, registerSession.
  set (id := generateSessionId seed d).
  destruct (mapGet id (sessions sm)) as [s0|] eqn:Hget; simpl.
  - split; [|split].
    + eexists. split; [apply mapGet_mapSet_same | split; reflexivity].
    + intros k Hk. apply mapGet_mapSet_other, Hk.
    + intros k s Hs. destruct (jseqb k id) eqn:E.
      * apply jseqb_eq in E. subst k. rewrite mapGet_mapSet_same.
        eexists. split; [reflexivity|]. simpl. congruence.
      * apply jseqb_neq in E. rewrite mapGet_mapSet_other by exact E. eauto.
  - split; [|split].
    + eexists. split; [apply mapGet_mapSet_same | split; reflexivity].
    + intros k Hk. apply mapGet_mapSet_other, Hk.
    + intros k s Hs. assert (k <> id) by congruence.
      rewrite mapGet_mapSet_other by assumption. eauto.
Qed.

(** X13.  [registerSession] moves the active-session pointer only when
    there is none: an existing pointer is kept, and the first session
    registered in an empty registry becomes the active one. *)
Theorem registerSession_pointer_kept : forall seed now d sm,
  (truthy (activeSessionId sm) = true ->
     activeSessionId (snd (registerSession seed now d sm)) = activeSessionId sm)
  /\ activeSessionId (snd (registerSession seed now d emptyManager))
     = Some (fst (registerSession seed now d emptyManager))
  /\ (activeSessionId sm = None ->
      getSession (generateSessionId seed d) sm = None ->
      activeSessionId (snd (registerSession seed now d sm))
      = Some (generateSessionId seed d)).
Proof.
  intros seed now d sm. split; [|split].
  - intro Ht. unfold registerSession.
    destruct (mapGet _ (sessions sm)); simpl; [reflexivity|].
    rewrite Ht. reflexivity.
  - reflexivity.
  - intros Hn Hg. unfold getSession in Hg. unfold registerSession.
    rewrite Hg, Hn. reflexivity.
Qed.

(** Registering a fourth session leaves the pointer of [threeSessions] on
    [a]. *)
Lemma registerSession_pointer_kept_witness :
  activeSessionId
    (snd (registerSession 7 50
            (mkSessionData (Some (lit "z")) None None None None None) threeSessions))
  = Some (lit "a").
Proof.
  apply (proj1 (registerSession_pointer_kept 7 50
                  (mkSessionData (Some (lit "z")) None None None None None)
                  threeSessions)).
  reflexivity.
Defined.

(** X14.  [setActiveSession] succeeds exactly when the id is registered
    with [isActive] set; then the pointer names that id and the sessions
    are untouched.  When it fails nothing changes. *)
Theorem setActiveSession_result : forall k sm,
  (fst (setActiveSession k sm) = true
   <-> exists s, getSession k sm = Some s /\ isActive s = true)
  /\ (fst (setActiveSession k sm) = true ->
      activeSessionId (snd (setActiveSession k sm)) = Some k)
  /\ (fst (setActiveSession k sm) = false -> snd (setActiveSession k sm) = sm)
  /\ sessions (snd (setActiveSession k sm)) = sessions sm.
Proof.
  intros k sm. unfold setActiveSession, getSession.
  destruct (mapGet k (sessions sm)) as [s|] eqn:Hget.
  - destruct (isActive s) eqn:Ha; simpl.
    + split; [split; eauto|]. repeat split; auto. discriminate.
    + split.
      * split; [discriminate|]. intros [s' [Hs Hact]]. congruence.
      * repeat split; auto. discriminate.
  - simpl. split.
    + split; [discriminate|]. intros [s' [Hs _]]. discriminate.
    + repeat split; auto. discriminate.
Qed.

(** Session [b] of [threeSessions] is flagged active, so the pointer can be
    moved to it. *)
Lemma setActiveSession_result_witness :
  activeSessionId (snd (setActiveSession (lit "b") threeSessions)) = Some (lit "b").
Proof.
  apply (proj1 (proj2 (setActiveSession_result (lit "b") threeSessions))).
  reflexivity.
Defined.

Lemma setActiveSession_wf : forall k sm,
  registryWf sm -> registryWf (snd (setActiveSession k sm)).
Proof.
  intros k sm Hwf. unfold setActiveSession.
  destruct (mapGet k (sessions sm)) as [s|]; [|exact Hwf].
  destruct (isActive s); exact Hwf.
Qed.

Lemma setActiveSession_pointer : forall k sm,
  activePointerValid sm -> activePointerValid (snd (setActiveSession k sm)).
Proof.
  intros k sm Hv. unfold setActiveSession.
  destruct (mapGet k (sessions sm)) as [s|] eqn:Hget; [|exact Hv].
  destruct (isActive s) eqn:Ha; [|exact Hv].
  right. exists k, s. simpl. auto.
Qed.

Lemma cleanup_fold_inv : forall keys sm,
  registryWf sm /\ activePointerValid sm ->
  registryWf (fold_left (fun m k => removeSession k m) keys sm)
  /\ activePointerValid (fold_left (fun m k => removeSession k m) keys sm).
Proof.
  induction keys as [|k ks IH]; intros sm [Hwf Hv]; simpl; [auto|].
  apply IH. split; [apply removeSession_wf, Hwf | apply removeSession_pointer; assumption].
Qed.

Lemma applyOp_inv : forall op sm,
  registryWf sm /\ activePointerValid sm ->
  registryWf (applyOp sm op) /\ activePointerValid (applyOp sm op).
Proof.
  intros op sm [Hwf Hv]. destruct op as [seed now d|k|now k|k|now]; simpl.
  - split; [apply registerSession_wf, Hwf | apply registerSession_pointer, Hv].
  - split; [apply setActiveSession_wf, Hwf | apply setActiveSession_pointer, Hv].
  - split; [apply markSessionInactive_wf, Hwf
           | apply markSessionInactive_pointer; assumption].
  - split; [apply removeSession_wf, Hwf | apply removeSession_pointer; assumption].
  - unfold cleanupInactiveSessions. apply cleanup_fold_inv. auto.
Qed.

(** X15.  Whatever sequence of [registerSession], [setActiveSession],
    [markSessionInactive], [removeSession] and cleanup sweeps is run on a
    new registry, its keys stay distinct, every session is stored under its
    own non-empty id, and the active pointer is null or names a registered
    session flagged active. *)
Theorem registry_invariant : forall ops,
  registryWf (runOps ops emptyManager)
  /\ activePointerValid (runOps ops emptyManager).
Proof.
  intro ops. unfold runOps.
  assert (G : forall sm, registryWf sm /\ activePointerValid sm ->
                registryWf (fold_left applyOp ops sm)
                /\ activePointerValid (fold_left applyOp ops sm)).
  { induction ops as [|op r IH]; intros sm H; simpl; [exact H|].
    apply IH, applyOp_inv, H. }
  apply G, emptyManager_inv.
Qed.

Lemma mostRecentFirst_sorted : forall l,
  StronglySorted notLessRecent (jsSort mostRecentFirst l).
Proof.
  intro l. apply (jsSort_sorted SessionInfo lastActivity). intros a b. reflexivity.
Qed.

(** X16.  [getAllSessions] lists every registered session once, most
    recently active first. *)
Theorem getAllSessions_sorted : forall sm,
  Permutation (getAllSessions sm) (mapValues (sessions sm))
  /\ StronglySorted notLessRecent (getAllSessions sm).
Proof.
  intro sm. unfold getAllSessions. split;
    [apply jsSort_perm | apply mostRecentFirst_sorted].
Qed.

Lemma electActive_most_recent : forall candidates a,
  electActive candidates = Some a ->
  exists s, In s candidates /\ s_id s = a
            /\ forall s', In s' candidates -> lastActivity s' <= lastActivity s.
Proof.
  intros candidates a H. unfold electActive in H.
  pose proof (mostRecentFirst_sorted candidates) as S.
  pose proof (jsSort_perm _ mostRecentFirst candidates) as P.
  destruct (jsSort mostRecentFirst candidates) as [|s r] eqn:E; [discriminate|].
  inversion H; subst a. exists s. split.
  - apply (Permutation_in _ P). left. reflexivity.
  - split; [reflexivity|]. intros s' Hs'.
    apply (Permutation_in _ (Permutation_sym P)) in Hs'.
    destruct Hs' as [Hs'|Hs']; [subst; lia|].
    inversion S as [|? ? _ F]; subst. rewrite Forall_forall in F.
    apply F, Hs'.
Qed.

Lemma electActive_none : forall candidates,
  electActive candidates = None -> candidates = [].
Proof.
  intros candidates H. unfold electActive in H.
  destruct (jsSort mostRecentFirst candidates) eqn:E; [|discriminate].
  apply jsSort_nil_inv in E. exact E.
Qed.

(** X17.  Deactivating the active session hands the pointer to the most
    recently active of the other sessions flagged active, and to none when
    there is no such session.  Deactivating another session, or an unknown
    id, leaves the pointer where it is. *)
Theorem markSessionInactive_election : forall now k sm,
  let sm' := markSessionInactive now k sm in
  (forall s, getSession k sm = Some s -> activeSessionId sm = Some k ->
     match activeSessionId sm' with
     | Some a =>
         a <> k
         /\ exists e, In e (mapValues (sessions sm')) /\ s_id e = a
                      /\ isActive e = true
                      /\ forall o, In o (mapValues (sessions sm')) ->
                                   isActive o = true -> s_id o <> k ->
                                   lastActivity o <= lastActivity e
     | None =>
         forall o, In o (mapValues (sessions sm')) -> isActive o = true ->
                   s_id o = k
     end)
  /\ (activeSessionId sm <> Some k -> activeSessionId sm' = activeSessionId sm)
  /\ (getSession k sm = None -> sm' = sm).
Proof.
  intros now k sm sm'. subst sm'. unfold markSessionInactive, getSession.
  split; [|split].
  - intros s Hs Ha. rewrite Hs.
    assert (Hid : isActiveId sm k = true).
    { unfold isActiveId. rewrite Ha. apply jseqb_refl. }
    rewrite Hid. simpl.
    match goal with
    | |- match electActive ?c with _ => _ end => destruct (electActive c) as [a|] eqn:El
    end.
    + destruct (electActive_most_recent _ _ El) as [e [Hin [He Hmax]]].
      apply filter_In in Hin. destruct Hin as [Hin Hkeep].
      apply andb_true_iff in Hkeep. destruct Hkeep as [Hact Hne].
      apply negb_true_iff, jseqb_neq in Hne. split; [congruence|].
      exists e. repeat split; auto.
      intros o Ho Hoa Hok. apply Hmax. apply filter_In. split; [exact Ho|].
      rewrite Hoa. simpl. apply negb_true_iff, jseqb_neq, Hok.
    + apply electActive_none in El. intros o Ho Hoa.
      destruct (jseqb (s_id o) k) eqn:E; [apply jseqb_eq, E|].
      exfalso.
      assert (Hin : In o (filter (fun s0 => isActive s0 && negb (jseqb (s_id s0) k))
                            (mapValues
                               (mapSet k (setIsActive false now s) (sessions sm))))).
      { apply filter_In. split; [exact Ho|]. rewrite Hoa, E. reflexivity. }
      rewrite El in Hin. contradiction.
  - intro Hne. destruct (mapGet k (sessions sm)) as [s|]; [|reflexivity].
    assert (Hid : isActiveId sm k = false).
    { unfold isActiveId. destruct (activeSessionId sm) as [a|]; [|reflexivity].
      apply jseqb_neq. congruence. }
    rewrite Hid. reflexivity.
  - intro Hn. rewrite Hn. reflexivity.
Qed.

Lemma markSessionInactive_election_witness :
  activeSessionId (markSessionInactive 40 (lit "a") threeSessions) = Some (lit "b")
  /\ match activeSessionId (markSessionInactive 40 (lit "a") threeSessions) with
     | Some a => a <> lit "a"
     | None => False
     end.
Proof.
  split; [reflexivity|].
  pose proof (proj1 (markSessionInactive_election 40 (lit "a") threeSessions)
                (mkSessionInfo (lit "a") None None 10 true [] (mkMetadata None None None))
                eq_refl eq_refl) as H.
  change (activeSessionId (markSessionInactive 40 (lit "a") threeSessions))
    with (Some (lit "b")) in *.
  exact (proj1 H).
Defined.

Lemma mapDelete_filter : forall k (m : SessionMap),
  NoDup (map fst m) ->
  mapDelete k m = filter (fun e => negb (jseqb (fst e) k)) m.
Proof.
  intros k m. induction m as [|[k' v] r IH]; simpl; intro ND; [reflexivity|].
  inversion ND as [|? ? Hnot ND']; subst.
  destruct (jseqb k' k) eqn:E; simpl.
  - apply jseqb_eq in E. subst k'. symmetry. apply forallb_filter_id.
    apply forallb_forall. intros e He. apply negb_true_iff, jseqb_neq.
    intro Ee. apply Hnot. rewrite <- Ee. apply in_map, He.
  - f_equal. apply IH, ND'.
Qed.

Lemma mapDelete_absent : forall k (m : SessionMap),
  mapGet k m = None -> mapDelete k m = m.
Proof.
  intros k m. induction m as [|[k' v] r IH]; simpl; intro H; [reflexivity|].
  destruct (jseqb k' k); [discriminate|]. f_equal. apply IH, H.
Qed.

Lemma removeSession_sessions : forall k sm,
  sessions (removeSession k sm) = mapDelete k (sessions sm).
Proof.
  intros k sm. unfold removeSession.
  destruct (mapGet k (sessions sm)) as [s|] eqn:Hget.
  - destruct (isActiveId sm k); reflexivity.
  - symmetry. apply mapDelete_absent, Hget.
Qed.

Lemma mapGet_mapDelete_same : forall k (m : SessionMap),
  NoDup (map fst m) -> mapGet k (mapDelete k m) = None.
Proof.
  intros k m. induction m as [|[k' v] r IH]; simpl; intro ND; [reflexivity|].
  inversion ND as [|? ? Hnot ND']; subst.
  destruct (jseqb k' k) eqn:E; simpl.
  - apply jseqb_eq in E. subst k'.
    destruct (mapGet k r) as [s|] eqn:G; [|reflexivity].
    exfalso. apply Hnot. apply mapGet_In in G.
    apply (in_map fst) in G. exact G.
  - rewrite E. apply IH, ND'.
Qed.

(** X18.  After [removeSession] the id is no longer registered and every
    other session is as it was.  When the removed session was the active
    one, the pointer goes to the most recently active of the remaining
    sessions flagged active, or to none; otherwise it stays. *)
Theorem removeSession_lookup : forall k sm,
  registryWf sm ->
  let sm' := removeSession k sm in
  getSession k sm' = None
  /\ (forall k', k' <> k -> getSession k' sm' = getSession k' sm)
  /\ (activeSessionId sm = Some k -> getSession k sm <> None ->
      match activeSessionId sm' with
      | Some a =>
          exists e, getSession a sm' = Some e /\ isActive e = true
                    /\ forall o, In o (mapValues (sessions sm')) ->
                                 isActive o = true ->
                                 lastActivity o <= lastActivity e
      | None =>
          forall o, In o (mapValues (sessions sm')) -> isActive o = false
      end)
  /\ (activeSessionId sm <> Some k -> activeSessionId sm' = activeSessionId sm).
Proof.
  intros k sm Hwf sm'. subst sm'. unfold getSession.
  rewrite removeSession_sessions.
  split; [apply mapGet_mapDelete_same, Hwf|].
  split; [intros k' Hk; apply mapGet_mapDelete_other, Hk|].
  split.
  - intros Ha Hreg.
    pose proof (removeSession_wf k sm Hwf) as Hwf'.
    unfold removeSession in *.
    destruct (mapGet k (sessions sm)) as [s|] eqn:Hget; [|contradiction].
    assert (Hid : isActiveId sm k = true).
    { unfold isActiveId. rewrite Ha. apply jseqb_refl. }
    rewrite Hid in *. simpl in *.
    match goal with
    | |- match electActive ?c with _ => _ end => destruct (electActive c) as [a|] eqn:El
    end.
    + destruct (electActive_most_recent _ _ El) as [e [Hin [He Hmax]]].
      apply filter_In in Hin. destruct Hin as [Hin Hact].
      exists e. split.
      * destruct (registryWf_value_key _ e Hwf' Hin) as [Hkey _]. simpl in Hkey.
        rewrite He in Hkey. apply In_mapGet; [apply Hwf' | exact Hkey].
      * split; [exact Hact|]. intros o Ho Hoa. apply Hmax.
        apply filter_In. auto.
    + apply electActive_none in El. intros o Ho.
      destruct (isActive o) eqn:Hoa; [|reflexivity]. exfalso.
      assert (Hin : In o (filter (fun s0 => isActive s0)
                            (mapValues (mapDelete k (sessions sm)))))
        by (apply filter_In; auto).
      rewrite El in Hin. contradiction.
  - intro Hne. unfold removeSession.
    destruct (mapGet k (sessions sm)) as [s|]; [|reflexivity].
    assert (Hid : isActiveId sm k = false).
    { unfold isActiveId. destruct (activeSessionId sm) as [a|]; [|reflexivity].
      apply jseqb_neq. congruence. }
    rewrite Hid. reflexivity.
Qed.

Lemma threeSessions_wf : registryWf threeSessions.
Proof.
  split; simpl.
  - repeat constructor; simpl; intuition discriminate.
  - repeat constructor; simpl; discriminate.
Defined.

Lemma removeSession_lookup_witness :
  getSession (lit "a") (removeSession (lit "a") threeSessions) = None
  /\ activeSessionId (removeSession (lit "a") threeSessions) = Some (lit "b").
Proof.
  split; [|reflexivity].
  exact (proj1 (removeSession_lookup (lit "a") threeSessions threeSessions_wf)).
Defined.

Lemma NoDup_filter_keys : forall (f : jsstring * SessionInfo -> bool) (m : SessionMap),
  NoDup (map fst m) -> NoDup (map fst (filter f m)).
Proof.
  intros f m. induction m as [|e r IH]; simpl; intro ND; [constructor|].
  inversion ND as [|? ? Hnot ND']; subst.
  destruct (f e); simpl; [|apply IH, ND'].
  constructor; [|apply IH, ND'].
  intro Hin. apply Hnot. apply in_map_iff in Hin. destruct Hin as [x [Hx Hin]].
  apply filter_In in Hin. apply in_map_iff. exists x. tauto.
Qed.

Lemma fold_mapDelete_filter : forall keys (m : SessionMap),
  NoDup (map fst m) ->
  fold_left (fun m' k => mapDelete k m') keys m
  = filter (fun e => negb (existsb (jseqb (fst e)) keys)) m.
Proof.
  induction keys as [|k ks IH]; intros m ND; simpl.
  - symmetry. apply forallb_filter_id. apply forallb_forall. reflexivity.
  - rewrite (mapDelete_filter k m ND).
    rewrite IH by (apply NoDup_filter_keys, ND).
    clear. induction m as [|e r IHm]; simpl; [reflexivity|].
    destruct (jseqb (fst e) k); simpl; [exact IHm|].
    destruct (existsb (jseqb (fst e)) ks); simpl; [exact IHm|].
    f_equal. exact IHm.
Qed.

Lemma fold_removeSession_sessions : forall keys sm,
  sessions (fold_left (fun m k => removeSession k m) keys sm)
  = fold_left (fun m' k => mapDelete k m') keys (sessions sm).
Proof.
  induction keys as [|k ks IH]; intro sm; simpl; [reflexivity|].
  rewrite IH, removeSession_sessions. reflexivity.
Qed.

(** X19.  The cleanup sweep removes exactly the sessions that are flagged
    inactive and were last active more than thirty minutes before the
    sweep; the other sessions are kept as they are and in their order, so a
    session flagged active is never removed however old it is. *)
Theorem cleanup_removes_expired : forall now sm,
  registryWf sm ->
  sessions (cleanupInactiveSessions now sm)
  = filter (fun e => negb (expired now e)) (sessions sm).
Proof.
  intros now sm [ND F]. unfold cleanupInactiveSessions.
  rewrite fold_removeSession_sessions, fold_mapDelete_filter by exact ND.
  apply filter_ext_in. intros e He. f_equal.
  fold (expired now).
  destruct (expired now e) eqn:Ex.
  - apply existsb_exists. exists (fst e). split; [|apply jseqb_refl].
    apply in_map. apply filter_In. auto.
  - destruct (existsb (jseqb (fst e))
                (map fst (filter (expired now) (sessions sm)))) eqn:Eb;
      [|reflexivity].
    apply existsb_exists in Eb. destruct Eb as [k [Hk Ek]].
    apply jseqb_eq in Ek. subst k. apply in_map_iff in Hk.
    destruct Hk as [e' [Hfst He']]. apply filter_In in He'.
    destruct He' as [He' Hx'].
    assert (e' = e).
    { destruct e as [k v], e' as [k' v']. simpl in Hfst. subst k'.
      f_equal. eapply values_unique; eauto. }
    subst e'. congruence.
Qed.

Lemma agedRegistry_wf : registryWf agedRegistry.
Proof.
  split; simpl.
  - repeat constructor; simpl; intuition discriminate.
  - repeat constructor; simpl; discriminate.
Defined.

Lemma cleanup_removes_expired_witness :
  map fst (sessions (cleanupInactiveSessions 2000000 agedRegistry))
  = [lit "idle"; lit "live"].
Proof.
  rewrite (cleanup_removes_expired 2000000 agedRegistry agedRegistry_wf).
  reflexivity.
Defined.

(* ================================================================== *)
(** * Hooks, dequeue and the voice preferences together *)

Lemma flat_map_nil : forall (A B : Type) (f : A -> list B) l,
  (forall x, In x l -> f x = []) -> flat_map f l = [].
Proof.
  intros A B f l H. induction l as [|x r IH]; simpl; [reflexivity|].
  rewrite (H x (or_introl eq_refl)), IH; [reflexivity|].
  intros y Hy. apply H. right. exact Hy.
Qed.

Lemma noPending_collectPending : forall st,
  noPendingAnywhere st -> collectPending st = [].
Proof.
  intros st H.
  assert (Hq : forall q, In q (allQueues st) -> withStatus pending q = []).
  { intros q Hq. destruct (withStatus pending q) as [|u r] eqn:E; [reflexivity|].
    exfalso. assert (Hu : In u (withStatus pending q)) by (rewrite E; left; reflexivity).
    apply withStatus_In in Hu. destruct Hu as [Hu Hs]. exact (H q u Hq Hu Hs). }
  assert (Hs : forall s, In s (mapValues (sessions (sessionManager st))) ->
                         sessionEntries s = []).
  { intros s Hin. unfold sessionEntries. rewrite Hq; [reflexivity|].
    unfold allQueues. apply in_or_app. left. apply in_map, Hin. }
  unfold collectPending.
  rewrite (Hq (queue st)) by (unfold allQueues; apply in_or_app; right; left; reflexivity).
  simpl. rewrite app_nil_r.
  assert (Ha : match getActiveSession (sessionManager st) with
               | Some a => sessionEntries a
               | None => []
               end = []).
  { destruct (getActiveSession (sessionManager st)) as [a|] eqn:Ea; [|reflexivity].
    apply Hs, getActiveSession_In, Ea. }
  rewrite Ha. simpl. apply flat_map_nil. intros s Hin.
  apply filter_In in Hin. destruct Hin as [Hin _].
  apply Hs. unfold getAllSessions in Hin. apply jsSort_In in Hin. exact Hin.
Qed.

Lemma deliverEverywhere_wf : forall st, stateWf st -> stateWf (deliverEverywhere st).
Proof.
  intros st [[ND F] Hq]. split.
  - split; simpl.
    + rewrite map_map. simpl. exact ND.
    + apply Forall_forall. intros e He. apply in_map_iff in He.
      destruct He as [e0 [He0 Hin]]. subst e. simpl.
      rewrite Forall_forall in F. apply (F e0 Hin).
  - apply Forall_forall. intros q Hin.
    unfold deliverEverywhere, allQueues, mapValues in Hin. simpl in Hin.
    rewrite !map_map in Hin. simpl in Hin.
    rewrite Forall_forall in Hq.
    assert (D : exists q0, In q0 (allQueues st) /\ q = map deliverPending q0).
    { apply in_app_or in Hin. destruct Hin as [Hin|[Hin|[]]].
      - apply in_map_iff in Hin. destruct Hin as [e [He Hin]].
        exists (utteranceQueue (snd e)). split; [|auto].
        unfold allQueues, mapValues. apply in_or_app. left.
        rewrite map_map. apply in_map_iff. exists e. auto.
      - exists (queue st). split; [|auto].
        unfold allQueues. apply in_or_app. right. left. reflexivity. }
    destruct D as [q0 [Hq0 Eq]]. subst q. unfold uniqueIds.
    rewrite map_map.
    rewrite (map_ext (fun u => u_id (deliverPending u)) u_id).
    + apply Hq, Hq0.
    + intro u. unfold deliverPending. destruct (status_eqb (u_status u) pending);
        reflexivity.
Qed.

(** X20.  Right after a successful dequeue in a well-formed state a second
    dequeue returns the empty list and changes nothing, the pending count
    that [has-pending-utterances] reports is zero, and the state is still
    well formed. *)
Theorem dequeue_twice : forall st,
  stateWf st ->
  voiceInputActive (voicePreferences st) = true ->
  let st' := snd (dequeueUtterancesCore st) in
  dequeueUtterancesCore st' = (mkDequeue true None (Some []), st')
  /\ hasPendingUtterances st' = (false, 0)
  /\ stateWf st'.
Proof.
  intros st Hwf Hon st'.
  assert (E : st' = deliverEverywhere st).
  { subst st'. unfold dequeueUtterancesCore. rewrite Hon. simpl.
    rewrite fold_markEntry by apply Hwf.
    apply markedState_collected; [exact Hwf | apply jsSort_perm]. }
  pose proof (deliverEverywhere_noPending st) as Hnone. rewrite <- E in Hnone.
  assert (Hon' : voiceInputActive (voicePreferences st') = true)
    by (rewrite E; exact Hon).
  split; [|split].
  - unfold dequeueUtterancesCore. rewrite Hon'. simpl.
    rewrite (noPending_collectPending st' Hnone). reflexivity.
  - unfold hasPendingUtterances.
    assert (Hq : withStatus pending (queue st') = []).
    { destruct (withStatus pending (queue st')) as [|u r] eqn:Eq; [reflexivity|].
      exfalso. assert (Hu : In u (withStatus pending (queue st')))
        by (rewrite Eq; left; reflexivity).
      apply withStatus_In in Hu. destruct Hu as [Hu Hs].
      apply (Hnone (queue st') u); auto.
      unfold allQueues. apply in_or_app. right. left. reflexivity. }
    rewrite Hq. reflexivity.
  - rewrite E. apply deliverEverywhere_wf, Hwf.
Qed.

Lemma dequeue_twice_witness :
  dequeueUtterancesCore (snd (dequeueUtterancesCore pendingInTwoQueues))
  = (mkDequeue true None (Some []), snd (dequeueUtterancesCore pendingInTwoQueues)).
Proof.
  exact (proj1 (dequeue_twice pendingInTwoQueues pendingInTwoQueues_wf eq_refl)).
Defined.

(** X21.  For a tool use, [validate-action] answers as the pre-tool hook
    decides when auto-delivery is disabled: allowed when the hook approves,
    [dequeue_utterances] required when the hook blocks for pending
    utterances, [speak] required when it blocks for delivered ones.  The
    approving hook sets the last-tool-use time; the blocking hook changes
    nothing. *)
Theorem validateAction_tool_matches_hook : forall cfg clk st,
  AUTO_DELIVER_VOICE_INPUT cfg = false ->
  match snd (validateAction (Some (lit "tool-use")) st) with
  | VAllowed =>
      handleHookRequest cfg clk tool st
      = Some (mkHook approve None, withLastToolUse (Some (hc_now clk)) st)
  | VDenied required _ =>
      (required = lit "dequeue_utterances"
       /\ handleHookRequest cfg clk tool st
          = Some (mkHook block
                    (Some (pendingReason (len (withStatus pending (queue st))))), st))
      \/ (required = lit "speak"
          /\ handleHookRequest cfg clk tool st
             = Some (mkHook block
                       (Some (deliveredReason (len (withStatus delivered (queue st))))),
                     st))
  | VInvalidAction => False
  end
  /\ fst (validateAction (Some (lit "tool-use")) st) = 200.
Proof.
  intros cfg clk st Hauto. unfold validateAction, handleHookRequest, deliveredGate.
  change (jseqb (lit "tool-use") (lit "tool-use")) with true.
  change (jseqb (lit "tool-use") (lit "stop")) with false.
  change (truthy (Some (lit "tool-use"))) with true.
  cbn [negb orb andb]. rewrite Hauto.
  destruct (voiceInputActive (voicePreferences st)
            && (0 <? len (withStatus pending (queue st)))) eqn:G1.
  - cbn [snd fst]. split; [left; split; reflexivity | reflexivity].
  - destruct (voiceResponsesEnabled (voicePreferences st)
              && (0 <? len (withStatus delivered (queue st)))) eqn:G2.
    + cbn [snd fst action_eqb]. split; [right; split; reflexivity | reflexivity].
    + cbn [snd fst]. split; reflexivity.
Qed.

Lemma validateAction_tool_matches_hook_witness :
  snd (validateAction (Some (lit "tool-use")) onePending)
  = VDenied (lit "dequeue_utterances")
      (lit "1 pending utterance(s) must be dequeued first. Please use dequeue_utterances to process them.")
  /\ handleHookRequest manualConfig plainClock tool onePending
     = Some (mkHook block (Some (pendingReason 1)), onePending).
Proof.
  split; [reflexivity|].
  pose proof (proj1 (validateAction_tool_matches_hook manualConfig plainClock
                       onePending eq_refl)) as H.
  change (snd (validateAction (Some (lit "tool-use")) onePending))
    with (VDenied (lit "dequeue_utterances")
            (lit "1 pending utterance(s) must be dequeued first. Please use dequeue_utterances to process them."))
    in H.
  destruct H as [[_ H]|[H _]]; [exact H | discriminate H].
Defined.

(** With both voice preferences off no gate applies. *)
Lemma hooks_inert : forall cfg clk a st,
  voiceInputActive (voicePreferences st) = false ->
  voiceResponsesEnabled (voicePreferences st) = false ->
  exists r,
    handleHookRequest cfg clk a st
    = Some (r, if action_eqb a tool || action_eqb a postTool
               then withLastToolUse (Some (hc_now clk)) st else st)
    /\ decision r = approve.
Proof.
  intros cfg clk a st Hin Hresp.
  unfold handleHookRequest, deliveredGate, handleAction, mustSpeakAfterTool.
  rewrite Hin, Hresp. simpl.
  destruct a; simpl; eexists; split; reflexivity.
Qed.

(** X22.  When the last client disconnects both voice preferences are
    switched off, and from then on every hook action is approved, whatever
    the queues hold: no queue and no session is touched, only the
    last-tool-use time is set by a tool hook.  A disconnect that leaves
    other clients connected changes nothing. *)
Theorem last_client_disconnect : forall cfg clk a st remaining,
  voicePreferences (onClientClose 0 st) = mkPrefs false false
  /\ onClientClose (S remaining) st = st
  /\ exists r st',
       handleHookRequest cfg clk a (onClientClose 0 st) = Some (r, st')
       /\ decision r = approve
       /\ queue st' = queue st
       /\ sessionManager st' = sessionManager st.
Proof.
  intros cfg clk a st remaining.
  assert (P : voicePreferences (onClientClose 0 st) = mkPrefs false false).
  { unfold onClientClose.
    destruct (voicePreferences st) as [r i] eqn:E.
    destruct i, r; simpl; rewrite ?E; reflexivity. }
  split; [exact P|]. split; [reflexivity|].
  destruct (hooks_inert cfg clk a (onClientClose 0 st)) as [r [H Hd]];
    try (rewrite P; reflexivity).
  assert (Q : queue (onClientClose 0 st) = queue st
              /\ sessionManager (onClientClose 0 st) = sessionManager st).
  { unfold onClientClose.
    destruct (voiceInputActive (voicePreferences st)
              || voiceResponsesEnabled (voicePreferences st)); split; reflexivity. }
  eexists. eexists. split; [exact H|]. split; [exact Hd|].
  destruct (action_eqb a tool || action_eqb a postTool); simpl; exact Q.
Qed.

(** With voice input off and no delivered utterance in the legacy queue
    the two gates are passed. *)
Lemma gates_silent : forall cfg clk a st,
  voiceInputActive (voicePreferences st) = false ->
  withStatus delivered (queue st) = [] ->
  handleHookRequest cfg clk a st
  = handleAction cfg clk a (voiceResponsesEnabled (voicePreferences st)) false st.
Proof.
  intros cfg clk a st Hin Hdel. unfold handleHookRequest, deliveredGate.
  rewrite Hin, Hdel. simpl. rewrite andb_false_r. reflexivity.
Qed.

(** X23.  With voice responses enabled and the gates silent, a tool hook
    is approved and records its time; from then on the pre-wait and stop
    hooks are blocked with the demand to speak, until a speak request is
    served at a time not earlier than the tool use, after which pre-wait is
    approved. *)
Theorem must_speak_after_tool : forall cfg clk clk' st t spoken,
  voiceResponsesEnabled (voicePreferences st) = true ->
  voiceInputActive (voicePreferences st) = false ->
  withStatus delivered (queue st) = [] ->
  match lastSpeakTimestamp st with
  | Some s => s < hc_now clk
  | None => True
  end ->
  trim t <> [] ->
  hc_now clk <= spoken ->
  let st1 := withLastToolUse (Some (hc_now clk)) st in
  let st2 := snd (speakHandler spoken (Some t) st1) in
  handleHookRequest cfg clk tool st = Some (mkHook approve None, st1)
  /\ handleHookRequest cfg clk' wait st1
     = Some (mkHook block
               (Some (lit "Assistant must speak after using tools. Please use the speak tool to respond before waiting for utterances.")),
             st1)
  /\ handleHookRequest cfg clk' stop st1
     = Some (mkHook block
               (Some (lit "Assistant must speak after using tools. Please use the speak tool to respond before proceeding.")),
             st1)
  /\ fst (fst (speakHandler spoken (Some t) st1)) = 200
  /\ handleHookRequest cfg clk' wait st2 = Some (mkHook approve None, st2).
Proof.
  intros cfg clk clk' st t spoken Hresp Hin Hdel Hlast Ht Hlate st1 st2.
  assert (Hms : mustSpeakAfterTool true st1 = true).
  { unfold mustSpeakAfterTool, st1. simpl.
    destruct (lastSpeakTimestamp st); [apply Z.ltb_lt, Hlast | reflexivity]. }
  assert (E2 : speakHandler spoken (Some t) st1
               = ((200, SpeakOk 0 (fst (speakingSession st1)) (snd (speakingSession st1))),
                  withLastSpeak (Some spoken)
                    (withQueue (markResponded (queue st))
                       (notify (NSpeak t (fst (speakingSession st1))
                                  (snd (speakingSession st1))) st1)))).
  { unfold speakHandler. rewrite (trim_nonempty_textMissing t Ht).
    unfold st1 at 1. simpl voiceResponsesEnabled. rewrite Hresp. simpl negb.
    cbv iota. destruct (speakingSession st1) as [who name]. simpl.
    rewrite Hdel. reflexivity. }
  assert (Hd : withStatus delivered (markResponded (queue st)) = []).
  { clear. unfold withStatus, markResponded.
    induction (queue st) as [|u r IH]; simpl; [reflexivity|].
    destruct (u_status u) eqn:E; simpl; rewrite ?E; simpl; exact IH. }
  split; [|split; [|split; [|split]]].
  - rewrite gates_silent by assumption. rewrite Hresp. reflexivity.
  - rewrite gates_silent by assumption.
    change (voiceResponsesEnabled (voicePreferences st1))
      with (voiceResponsesEnabled (voicePreferences st)).
    rewrite Hresp. unfold handleAction. rewrite Hms. reflexivity.
  - rewrite gates_silent by assumption.
    change (voiceResponsesEnabled (voicePreferences st1))
      with (voiceResponsesEnabled (voicePreferences st)).
    rewrite Hresp. unfold handleAction. rewrite Hms. reflexivity.
  - rewrite E2. reflexivity.
  - subst st2. rewrite E2. cbn [snd].
    rewrite gates_silent by (try exact Hin; exact Hd).
    unfold handleAction, mustSpeakAfterTool.
    cbn [withLastSpeak withQueue notify voicePreferences lastToolUseTimestamp
         lastSpeakTimestamp st1 withLastToolUse].
    rewrite Hresp.
    assert (Hlt : (spoken <? hc_now clk) = false) by (apply Z.ltb_ge; lia).
    unfold st1. cbn [withLastToolUse lastToolUseTimestamp]. rewrite Hlt. reflexivity.
Qed.

Lemma must_speak_after_tool_witness :
  let st := mkState emptyManager [] None None (mkPrefs true false) [] in
  let st1 := withLastToolUse (Some 1000) st in
  handleHookRequest defaultConfig plainClock tool st = Some (mkHook approve None, st1)
  /\ handleHookRequest defaultConfig plainClock wait
       (snd (speakHandler 1500 (Some (lit "done")) st1))
     = Some (mkHook approve None, snd (speakHandler 1500 (Some (lit "done")) st1)).
Proof.
  intros st st1.
  assert (H : trim (lit "done") <> []) by (vm_compute; discriminate).
  assert (L : hc_now plainClock <= 1500) by (vm_compute; discriminate).
  destruct (must_speak_after_tool defaultConfig plainClock plainClock st
              (lit "done") 1500 eq_refl eq_refl eq_refl I H L)
    as [H1 [_ [_ [_ H5]]]].
  split; [exact H1 | exact H5].
Defined.

(** X24.  A hook never blocks without giving a reason, and only the stop
    hook can wait: every other action is answered at once. *)
Theorem hook_block_has_reason : forall cfg clk a st,
  (forall r st', handleHookRequest cfg clk a st = Some (r, st') ->
     decision r = block -> exists msg, reason r = Some msg)
  /\ (a <> stop -> exists r st', handleHookRequest cfg clk a st = Some (r, st')).
Proof.
  intros cfg clk a st. split.
  - intros r st' H Hb.
    unfold handleHookRequest, deliveredGate, handleAction in H.
    destruct (dequeueUtterancesCore st) as [dq sd].
    destruct (waitForUtteranceCore (hc_waitStart clk) (hc_ticks clk) st)
      as [[w sw]|];
      destruct (waitForUtteranceCore (hc_waitStart clk) (hc_ticks clk) sd)
      as [[w' sw']|];
      repeat match type of H with
             | context [if ?b then _ else _] => destruct b
             | context [match ?x with _ => _ end] => destruct x
             end;
      try discriminate H; inversion H; subst; simpl in *;
      try discriminate Hb; eauto.
  - intro Hne.
    unfold handleHookRequest, deliveredGate, handleAction.
    destruct (dequeueUtterancesCore st) as [dq sd].
    destruct a; try contradiction;
      repeat match goal with
             | |- context [if ?b then _ else _] => destruct b
             | |- context [match ?x with _ => _ end] => destruct x
             end; eauto.
Qed.

(** The pre-wait hook answers at once. *)
Lemma hook_block_has_reason_witness :
  exists r st', handleHookRequest defaultConfig plainClock wait pendingInTwoQueues
                = Some (r, st').
Proof.
  apply (proj2 (hook_block_has_reason defaultConfig plainClock wait pendingInTwoQueues)).
  discriminate.
Defined.

(** X25.  The stop hook with auto-delivery on, voice input active, voice
    responses off and nothing pending in the legacy queue waits for
    utterances and fails open: it blocks only to quote at least one
    utterance, and approves, giving the reason, when voice input was
    switched off during the wait or when the wait timed out.  It answers as
    soon as a clock reading has passed the timeout. *)
Theorem stop_hook_waits : forall cfg clk st,
  AUTO_DELIVER_VOICE_INPUT cfg = true ->
  voiceInputActive (voicePreferences st) = true ->
  voiceResponsesEnabled (voicePreferences st) = false ->
  withStatus pending (queue st) = [] ->
  (forall r st', handleHookRequest cfg clk stop st = Some (r, st') ->
     (decision r = block
      /\ exists texts, texts <> [] /\ reason r = Some (formatVoiceUtterances texts st'))
     \/ (decision r = approve /\ reason r = Some (lit "Voice input was deactivated"))
     \/ (decision r = approve
         /\ reason r = Some (lit "No utterances found after waiting 60 seconds.")))
  /\ (Exists (fun t => maxWaitMs <= t_test t - hc_waitStart clk) (hc_ticks clk) ->
      exists r st', handleHookRequest cfg clk stop st = Some (r, st')).
Proof.
  intros cfg clk st Hauto Hin Hresp Hpend.
  assert (E : handleHookRequest cfg clk stop st
              = match waitLoop (hc_waitStart clk) true (hc_ticks clk)
                        (notifyWaitStatus true st) with
                | Some (data, st') =>
                    if negb (w_success data) && truthy (w_error data) then
                      Some (mkHook approve (w_error data), st')
                    else
                      match w_utterances data with
                      | Some (u :: us) =>
                          Some (mkHook block
                                  (Some (formatVoiceUtterances (map u_text (u :: us)) st')),
                                st')
                      | _ =>
                          Some (mkHook approve
                                  (Some (orElse (w_message data)
                                           (lit "No utterances found during wait"))),
                                st')
                      end
                | None => None
                end).
  { unfold handleHookRequest, deliveredGate, handleAction, mustSpeakAfterTool,
      waitForUtteranceCore.
    rewrite Hin, Hresp, Hpend, Hauto. reflexivity. }
  rewrite E. split.
  - intros r st' H.
    destruct (waitLoop (hc_waitStart clk) true (hc_ticks clk)
                (notifyWaitStatus true st)) as [[data sw]|] eqn:W; [|discriminate].
    apply waitLoop_outcomes in W.
    destruct W as [[Hs [u [us Hu]]]|[[t [_ Hd]]|Ht]].
    + rewrite Hs, Hu in H. simpl in H. inversion H; subst. left.
      split; [reflexivity|]. eexists. split; [|reflexivity]. discriminate.
    + subst data. simpl in H. inversion H; subst. right. left. split; reflexivity.
    + subst data. simpl in H. inversion H; subst. right. right. split; reflexivity.
  - intro Hex.
    destruct (waitLoop_returns _ _ true (notifyWaitStatus true st) Hex)
      as [data [sw W]].
    rewrite W.
    destruct (negb (w_success data) && truthy (w_error data)); [eauto|].
    destruct (w_utterances data) as [[|u us]|]; eauto.
Qed.

Lemma stop_hook_waits_witness :
  exists r st',
    handleHookRequest defaultConfig
      (mkClock 0 0 [idleTick 0; idleTick 30000; idleTick 60000]) stop listening
    = Some (r, st')
    /\ decision r = approve
    /\ reason r = Some (lit "No utterances found after waiting 60 seconds.").
Proof.
  destruct (proj2 (stop_hook_waits defaultConfig
                     (mkClock 0 0 [idleTick 0; idleTick 30000; idleTick 60000])
                     listening eq_refl eq_refl eq_refl eq_refl))
    as [r [st' H]].
  - apply Exists_cons_tl, Exists_cons_tl, Exists_cons_hd.
    vm_compute. discriminate.
  - exists r, st'. split; [exact H|].
    vm_compute in H. inversion H. split; reflexivity.
Defined.

(* ================================================================== *)
(** * What a wait returns *)

Lemma collectPendingUtterances_entries : forall st,
  collectPendingUtterances st = map utterance (collectPending st).
Proof.
  intro st. unfold collectPendingUtterances, collectPending.
  rewrite !map_app, map_flat_map, map_map. simpl. rewrite map_id.
  f_equal.
  - destruct (getActiveSession (sessionManager st)); [|reflexivity].
    symmetry. apply sessionEntries_utterances.
  - f_equal. apply flat_map_ext. intro s. symmetry. apply sessionEntries_utterances.
Qed.

Lemma oldestFirst_sorted : forall l, StronglySorted notNewer (jsSort oldestFirst l).
Proof.
  intro l.
  pose proof (jsSort_sorted Utterance (fun u => - u_timestamp u) oldestFirst) as S.
  assert (K : forall a b, oldestFirst a b = - u_timestamp b - - u_timestamp a)
    by (intros a b; unfold oldestFirst; lia).
  specialize (S K l).
  eapply StronglySorted_ind with (P := StronglySorted notNewer) in S.
  - exact S.
  - constructor.
  - intros a l0 _ IH F. constructor; [exact IH|].
    eapply Forall_impl; [|exact F]. unfold keyDescending, notNewer. intros b Hb. lia.
Qed.

(** X26.  A wait that starts with voice input active and a pending
    utterance in some queue returns at its first turn: the list holds every
    pending utterance of every queue once, oldest first, each reported as
    delivered, and the count is their number. *)
Theorem wait_returns_pending : forall startTime t rest st,
  registryWf (sessionManager st) ->
  voiceInputActive (voicePreferences st) = true ->
  allPending st <> [] ->
  t_test t - startTime < maxWaitMs ->
  exists sorted st',
    waitForUtteranceCore startTime (t :: rest) st
    = Some (mkWait true None (Some (map (setStatus delivered) sorted)) None
              (Some (len sorted)) (Some (t_ret t - startTime)),
            st')
    /\ Permutation sorted (allPending st)
    /\ StronglySorted notNewer sorted.
Proof.
  intros startTime t rest st Hwf Hon Hsome Ht.
  assert (P : Permutation (collectPendingUtterances (notifyWaitStatus true st))
                (allPending st)).
  { change (collectPendingUtterances (notifyWaitStatus true st))
      with (collectPendingUtterances st).
    rewrite collectPendingUtterances_entries. apply collectPending_perm, Hwf. }
  assert (Hne : collectPendingUtterances (notifyWaitStatus true st) <> []).
  { intro E. rewrite E in P. apply Permutation_nil in P. contradiction. }
  exists (jsSort oldestFirst (collectPendingUtterances (notifyWaitStatus true st))).
  eexists. split; [|split].
  - unfold waitForUtteranceCore. rewrite Hon. simpl negb. cbv iota.
    cbn [waitLoop]. apply Z.ltb_lt in Ht. rewrite Ht.
    change (voiceInputActive (voicePreferences (notifyWaitStatus true st)))
      with (voiceInputActive (voicePreferences st)).
    rewrite Hon. simpl negb. cbv iota.
    apply len_pos_iff in Hne. rewrite Hne.
    assert (L : len (jsSort oldestFirst
                       (collectPendingUtterances (notifyWaitStatus true st)))
                = len (collectPendingUtterances (notifyWaitStatus true st))).
    { unfold len. f_equal. apply Permutation_length, jsSort_perm. }
    rewrite L. reflexivity.
  - eapply Permutation_trans; [apply jsSort_perm | exact P].
  - apply oldestFirst_sorted.
Qed.

Lemma wait_returns_pending_witness :
  exists sorted st',
    waitForUtteranceCore 0 [idleTick 5] pendingInTwoQueues
    = Some (mkWait true None (Some (map (setStatus delivered) sorted)) None
              (Some (len sorted)) (Some 5),
            st')
    /\ Permutation sorted (allPending pendingInTwoQueues)
    /\ StronglySorted notNewer sorted.
Proof.
  apply (wait_returns_pending 0 (idleTick 5) [] pendingInTwoQueues).
  - apply pendingInTwoQueues_wf.
  - reflexivity.
  - vm_compute. discriminate.
  - vm_compute. reflexivity.
Defined.

(* ================================================================== *)
(** * The aggregated list of utterances *)









(* ================================================================== *)
(** * Where an utterance and a spoken response go *)





(** X30.  A spoken response is attributed to the active session when that
    session holds a delivered utterance; to no one when no queue holds a
    delivered utterance; and to the legacy queue, as [global], only when no
    registered session holds one.  Whenever some registered session holds
    a delivered utterance, the response is attributed to such a session. *)
Theorem speakingSession_attribution : forall st,
  registryWf (sessionManager st) ->
  (forall a, getActiveSession (sessionManager st) = Some a ->
     withStatus delivered (utteranceQueue a) <> [] ->
     speakingSession st = (Some (s_id a), projectName a))
  /\ ((forall q, In q (allQueues st) -> withStatus delivered q = []) ->
      speakingSession st = (None, None))
  /\ ((forall s, In s (mapValues (sessions (sessionManager st))) ->
         withStatus delivered (utteranceQueue s) = []) ->
      withStatus delivered (queue st) <> [] ->
      speakingSession st = (Some (lit "global"), Some (lit "Global Queue")))
  /\ ((exists s, In s (mapValues (sessions (sessionManager st)))
                 /\ withStatus delivered (utteranceQueue s) <> []) ->
      exists s, In s (mapValues (sessions (sessionManager st)))
                /\ withStatus delivered (utteranceQueue s) <> []
                /\ speakingSession st = (Some (s_id s), projectName s)).
Proof.
  intros st Hwf.
  assert (Hid : forall s, In s (mapValues (sessions (sessionManager st))) ->
                          truthy (Some (s_id s)) = true).
  { intros s Hs. destruct (registryWf_value_key _ s Hwf Hs) as [_ Hne].
    destruct (s_id s); [contradiction | reflexivity]. }
  assert (Hsilent : forall l : list SessionInfo,
            (forall s, In s l -> withStatus delivered (utteranceQueue s) = []) ->
            filter (fun s => 0 <? len (withStatus delivered (utteranceQueue s))) l = []).
  { intros l Hl. induction l as [|s r IH]; simpl; [reflexivity|].
    rewrite (Hl s (or_introl eq_refl)). simpl. apply IH.
    intros s' Hs'. apply Hl. right. exact Hs'. }
  assert (Hall : forall s, In s (getAllSessions (sessionManager st)) ->
                           In s (mapValues (sessions (sessionManager st)))).
  { intros s Hs. unfold getAllSessions in Hs. apply jsSort_In in Hs. exact Hs. }
  split; [|split; [|split]].
  - intros a Ha Hd. unfold speakingSession. rewrite Ha.
    apply len_pos_iff in Hd. rewrite Hd.
    pose proof (Hid a (getActiveSession_In _ _ Ha)) as Ht.
    repeat (cbn [fst]; rewrite Ht). reflexivity.
  - intro Hnone. unfold speakingSession.
    assert (Hs : forall s, In s (mapValues (sessions (sessionManager st))) ->
                           withStatus delivered (utteranceQueue s) = []).
    { intros s Hs. apply Hnone. unfold allQueues. apply in_or_app. left.
      apply in_map, Hs. }
    assert (Hq : withStatus delivered (queue st) = []).
    { apply Hnone. unfold allQueues. apply in_or_app. right. left. reflexivity. }
    rewrite (Hsilent (getAllSessions (sessionManager st)))
      by (intros s Hin; apply Hs, Hall, Hin).
    rewrite Hq.
    destruct (getActiveSession (sessionManager st)) as [a|] eqn:Ha; [|reflexivity].
    rewrite (Hs a (getActiveSession_In _ _ Ha)). reflexivity.
  - intros Hs Hq. unfold speakingSession.
    rewrite (Hsilent (getAllSessions (sessionManager st)))
      by (intros s Hin; apply Hs, Hall, Hin).
    apply len_pos_iff in Hq. rewrite Hq.
    destruct (getActiveSession (sessionManager st)) as [a|] eqn:Ha; [|reflexivity].
    rewrite (Hs a (getActiveSession_In _ _ Ha)). reflexivity.
  - intros [s [Hs Hd]]. unfold speakingSession.
    destruct (getActiveSession (sessionManager st)) as [a|] eqn:Ha.
    + destruct (0 <? len (withStatus delivered (utteranceQueue a))) eqn:Da.
      * exists a. pose proof (getActiveSession_In _ _ Ha) as Hin.
        split; [exact Hin|]. split; [apply len_pos_iff, Da|].
        pose proof (Hid a Hin) as Ht.
        repeat (cbn [fst]; rewrite Ht). reflexivity.
      * cbn [fst truthy].
        destruct (filter (fun s0 => 0 <? len (withStatus delivered (utteranceQueue s0)))
                    (getAllSessions (sessionManager st))) as [|f r] eqn:Ef.
        -- exfalso.
           assert (Hin : In s (filter (fun s0 => 0 <? len (withStatus delivered
                                                           (utteranceQueue s0)))
                                 (getAllSessions (sessionManager st)))).
           { apply filter_In. split; [apply jsSort_In, Hs | apply len_pos_iff, Hd]. }
           rewrite Ef in Hin. contradiction.
        -- assert (Hf : In f (filter (fun s0 => 0 <? len (withStatus delivered
                                                           (utteranceQueue s0)))
                                (getAllSessions (sessionManager st))))
             by (rewrite Ef; left; reflexivity).
           apply filter_In in Hf. destruct Hf as [Hf Hfd].
           exists f. split; [apply Hall, Hf|]. split; [apply len_pos_iff, Hfd|].
           pose proof (Hid f (Hall f Hf)) as Ht.
           repeat (cbn [fst]; rewrite Ht). reflexivity.
    + cbn [fst truthy].
      destruct (filter (fun s0 => 0 <? len (withStatus delivered (utteranceQueue s0)))
                  (getAllSessions (sessionManager st))) as [|f r] eqn:Ef.
      * exfalso.
        assert (Hin : In s (filter (fun s0 => 0 <? len (withStatus delivered
                                                        (utteranceQueue s0)))
                              (getAllSessions (sessionManager st)))).
        { apply filter_In. split; [apply jsSort_In, Hs | apply len_pos_iff, Hd]. }
        rewrite Ef in Hin. contradiction.
      * assert (Hf : In f (filter (fun s0 => 0 <? len (withStatus delivered
                                                       (utteranceQueue s0)))
                             (getAllSessions (sessionManager st))))
          by (rewrite Ef; left; reflexivity).
        apply filter_In in Hf. destruct Hf as [Hf Hfd].
        exists f. split; [apply Hall, Hf|]. split; [apply len_pos_iff, Hfd|].
        pose proof (Hid f (Hall f Hf)) as Ht.
        repeat (cbn [fst]; rewrite Ht). reflexivity.
Qed.

Lemma deliveredInBoth_wf : registryWf (sessionManager deliveredInBoth).
Proof.
  split; simpl.
  - repeat constructor; simpl; intuition discriminate.
  - repeat constructor; simpl; discriminate.
Defined.

Lemma speakingSession_attribution_witness :
  speakingSession deliveredInBoth = (Some (lit "s1"), None).
Proof.
  apply (proj1 (speakingSession_attribution deliveredInBoth deliveredInBoth_wf)
           (mkSessionInfo (lit "s1") None None 10 true
              [utt "a1" "one" 100 delivered] (mkMetadata None None None))).
  - reflexivity.
  - vm_compute. discriminate.
Defined.

(* ================================================================== *)
(** * What a wait leaves behind *)

Lemma markFound_unfold : forall ak oks X u,
  markFound ak oks X u
  = let id := u_id u in
    let p1 :=
      match ak with
      | Some k =>
          if hasId id (queueAt k X) then (markDeliveredInSession k id X, true)
          else (X, false)
      | None => (X, false)
      end in
    let p2 :=
      if snd p1 then (fst p1, true)
      else fold_left (markOther id) oks (fst p1, false) in
    if snd p2 then fst p2
    else if hasId id (queue (fst p2))
         then withQueue (markDelivered id (queue (fst p2))) (fst p2)
         else fst p2.
Proof.
  intros ak oks X u. unfold markFound. cbv zeta.
  destruct ak as [k|].
  - destruct (hasId (u_id u) (queueAt k X)); cbn [fst snd]; [reflexivity|].
    fold (markOther (u_id u)).
    destruct (fold_left (markOther (u_id u)) oks (X, false)) as [s2 m2].
    reflexivity.
  - cbn [fst snd]. fold (markOther (u_id u)).
    destruct (fold_left (markOther (u_id u)) oks (X, false)) as [s2 m2].
    reflexivity.
Qed.

Lemma hasId_ids : forall i q,
  hasId i q = existsb (fun j => jseqb j i) (map u_id q).
Proof.
  intros i q. unfold hasId. induction q as [|u r IH]; simpl; [reflexivity|].
  rewrite IH. reflexivity.
Qed.

Lemma hasId_true_iff : forall i q,
  hasId i q = true <-> exists u, In u q /\ u_id u = i.
Proof.
  intros i q. unfold hasId. rewrite existsb_exists. split.
  - intros [u [Hu E]]. apply jseqb_eq in E. eauto.
  - intros [u [Hu E]]. exists u. split; [exact Hu | apply jseqb_eq, E].
Qed.

Lemma shape_queueAt : forall k X Y,
  fst (idShape X) = fst (idShape Y) ->
  map u_id (queueAt k X) = map u_id (queueAt k Y).
Proof.
  intros k X Y. unfold idShape, queueAt. simpl.
  generalize (sessions (sessionManager Y)).
  induction (sessions (sessionManager X)) as [|[k1 s1] r IH]; intros m H.
  - destruct m; [reflexivity | discriminate].
  - destruct m as [|[k2 s2] m']; [discriminate|].
    simpl in H. injection H as Hk Hq Hr. subst k2. simpl.
    destruct (jseqb k1 k); [exact Hq | apply IH, Hr].
Qed.

Lemma shape_hasId : forall i k X Y,
  idShape X = idShape Y ->
  hasId i (queueAt k X) = hasId i (queueAt k Y)
  /\ hasId i (queue X) = hasId i (queue Y).
Proof.
  intros i k X Y H. rewrite !hasId_ids. split.
  - rewrite (shape_queueAt k X Y); [reflexivity | congruence].
  - unfold idShape in H. injection H as _ Hq. rewrite Hq. reflexivity.
Qed.

Lemma mapSet_shape : forall k v s (m : SessionMap),
  mapGet k m = Some s ->
  map u_id (utteranceQueue v) = map u_id (utteranceQueue s) ->
  map (fun e => (fst e, map u_id (utteranceQueue (snd e)))) (mapSet k v m)
  = map (fun e => (fst e, map u_id (utteranceQueue (snd e)))) m.
Proof.
  intros k v s m. induction m as [|[k' v'] r IH]; simpl; intros Hg Hq; [discriminate|].
  destruct (jseqb k' k) eqn:E; simpl.
  - inversion Hg; subst. rewrite Hq. reflexivity.
  - rewrite IH by assumption. reflexivity.
Qed.

Lemma markDeliveredInSession_shape : forall k i X,
  idShape (markDeliveredInSession k i X) = idShape X.
Proof.
  intros k i X. unfold markDeliveredInSession.
  destruct (mapGet k (sessions (sessionManager X))) as [s|] eqn:Hg; [|reflexivity].
  unfold idShape. simpl. f_equal.
  apply (mapSet_shape k _ s); [exact Hg|]. simpl. apply markDelivered_ids.
Qed.

Lemma markEntry_shape : forall X e, idShape (markEntry X e) = idShape X.
Proof.
  intros X [u src sid]. unfold markEntry. simpl.
  destruct src.
  - unfold idShape. simpl. rewrite markDelivered_ids. reflexivity.
  - destruct sid as [[|c k]|]; try reflexivity.
    apply markDeliveredInSession_shape.
Qed.

Lemma queueAt_marked_other : forall k k' i X,
  k' <> k -> queueAt k' (markDeliveredInSession k i X) = queueAt k' X.
Proof.
  intros k k' i X Hne. unfold markDeliveredInSession, queueAt.
  destruct (mapGet k (sessions (sessionManager X))) as [s|]; [|reflexivity].
  simpl. rewrite mapGet_mapSet_other by exact Hne. reflexivity.
Qed.

Lemma fold_markOther_none : forall i ks X b,
  (forall k, In k ks -> hasId i (queueAt k X) = false) ->
  fold_left (markOther i) ks (X, b) = (X, b).
Proof.
  intros i ks. induction ks as [|k r IH]; intros X b H; simpl; [reflexivity|].
  unfold markOther at 2. cbn [fst]. rewrite (H k (or_introl eq_refl)).
  apply IH. intros k' Hk'. apply H. right. exact Hk'.
Qed.

Lemma fold_markOther_one : forall i k ks X,
  NoDup ks -> In k ks ->
  hasId i (queueAt k X) = true ->
  (forall k', In k' ks -> k' <> k -> hasId i (queueAt k' X) = false) ->
  fold_left (markOther i) ks (X, false) = (markDeliveredInSession k i X, true).
Proof.
  intros i k ks. induction ks as [|h r IH]; intros X ND Hin Hk Hothers;
    [contradiction|].
  inversion ND as [|? ? Hnot ND']; subst. simpl.
  unfold markOther at 2. cbn [fst].
  destruct Hin as [Hin|Hin].
  - subst h. rewrite Hk. apply fold_markOther_none.
    intros k' Hk'. assert (k' <> k) by (intro E; subst; contradiction).
    rewrite queueAt_marked_other by assumption.
    apply Hothers; [right; exact Hk' | assumption].
  - assert (Hh : h <> k) by (intro E; subst; contradiction).
    rewrite (Hothers h (or_introl eq_refl) Hh).
    apply IH; auto. intros k' Hk' Hne. apply Hothers; [right; exact Hk' | exact Hne].
Qed.

Lemma NoDup_app_disjoint : forall (A : Type) (l1 l2 : list A) x,
  NoDup (l1 ++ l2) -> In x l1 -> In x l2 -> False.
Proof.
  intros A l1 l2 x. induction l1 as [|y r IH]; simpl; intros ND H1 H2; [contradiction|].
  inversion ND as [|? ? Hnot ND']; subst.
  destruct H1 as [H1|H1].
  - subst y. apply Hnot. apply in_or_app. right. exact H2.
  - apply IH; assumption.
Qed.

(** An id of one queue is in no other queue when ids are distinct
    throughout. *)
Lemma distinct_queues : forall (qs1 qs2 : list UtteranceQueue) q u q',
  NoDup (map u_id (concat (qs1 ++ q :: qs2))) ->
  In u q -> In q' (qs1 ++ qs2) -> hasId (u_id u) q' = false.
Proof.
  intros qs1 qs2 q u q' ND Hu Hq'.
  destruct (hasId (u_id u) q') eqn:E; [|reflexivity]. exfalso.
  apply hasId_true_iff in E. destruct E as [v [Hv Ev]].
  rewrite concat_app, concat_cons, !map_app in ND.
  assert (Hmid : In (u_id u) (map u_id q ++ map u_id (concat qs2)))
    by (apply in_or_app; left; apply in_map, Hu).
  apply in_app_or in Hq'. destruct Hq' as [Hq'|Hq'].
  - apply (NoDup_app_disjoint _ _ _ (u_id u) ND); [|exact Hmid].
    rewrite <- Ev. apply in_map. apply in_concat. eauto.
  - apply NoDup_app_remove_l in ND.
    apply (NoDup_app_disjoint _ _ _ (u_id u) ND); [apply in_map, Hu|].
    rewrite <- Ev. apply in_map. apply in_concat. eauto.
Qed.

Lemma distinct_each_queue : forall st q,
  idsDistinctEverywhere st -> In q (allQueues st) -> uniqueIds q.
Proof.
  intros st q ND Hq. unfold idsDistinctEverywhere in ND.
  apply in_split in Hq. destruct Hq as [l1 [l2 Hq]]. rewrite Hq in ND.
  rewrite concat_app, concat_cons, !map_app in ND.
  apply NoDup_app_remove_l, NoDup_app_remove_r in ND. exact ND.
Qed.

Lemma allQueues_split : forall st m1 k s m2,
  sessions (sessionManager st) = m1 ++ (k, s) :: m2 ->
  allQueues st
  = map utteranceQueue (map snd m1)
    ++ utteranceQueue s :: (map utteranceQueue (map snd m2) ++ [queue st]).
Proof.
  intros st m1 k s m2 H. unfold allQueues, mapValues. rewrite H.
  rewrite !map_app. simpl. rewrite <- app_assoc. reflexivity.
Qed.

Lemma owner_session : forall X0 s u,
  registryWf (sessionManager X0) ->
  idsDistinctEverywhere X0 ->
  In s (mapValues (sessions (sessionManager X0))) ->
  In u (utteranceQueue s) ->
  hasId (u_id u) (queueAt (s_id s) X0) = true
  /\ (forall k', k' <> s_id s -> hasId (u_id u) (queueAt k' X0) = false)
  /\ hasId (u_id u) (queue X0) = false.
Proof.
  intros X0 s u Hwf ND Hs Hu.
  destruct (registryWf_value_key _ s Hwf Hs) as [Hks _].
  pose proof (In_mapGet _ _ _ (proj1 Hwf) Hks) as Hget.
  destruct (in_split _ _ Hks) as [m1 [m2 Hm]].
  pose proof (allQueues_split X0 m1 (s_id s) s m2 Hm) as Hall.
  unfold idsDistinctEverywhere in ND. rewrite Hall in ND.
  split; [|split].
  - unfold queueAt. rewrite Hget. apply hasId_true_iff. eauto.
  - intros k' Hne. unfold queueAt.
    destruct (mapGet k' (sessions (sessionManager X0))) as [s'|] eqn:G;
      [|reflexivity].
    apply (distinct_queues _ _ _ u _ ND Hu).
    apply mapGet_In in G. rewrite Hm in G.
    apply in_app_or in G. destruct G as [G|[G|G]].
    + apply in_or_app. left. apply in_map. apply (in_map snd) in G. exact G.
    + inversion G. congruence.
    + apply in_or_app. right. apply in_or_app. left.
      apply in_map. apply (in_map snd) in G. exact G.
  - apply (distinct_queues _ _ _ u _ ND Hu).
    apply in_or_app. right. apply in_or_app. right. left. reflexivity.
Qed.

Lemma owner_global : forall X0 u,
  idsDistinctEverywhere X0 ->
  In u (queue X0) ->
  hasId (u_id u) (queue X0) = true
  /\ forall k', hasId (u_id u) (queueAt k' X0) = false.
Proof.
  intros X0 u ND Hu. split; [apply hasId_true_iff; eauto|].
  intros k'. unfold queueAt.
  destruct (mapGet k' (sessions (sessionManager X0))) as [s'|] eqn:G; [|reflexivity].
  unfold idsDistinctEverywhere, allQueues in ND.
  apply (distinct_queues _ [] (queue X0) u _ ND Hu).
  rewrite app_nil_r. apply in_map. unfold mapValues.
  apply mapGet_In in G. apply (in_map snd) in G. exact G.
Qed.

Lemma waitOtherKeys_NoDup : forall sm,
  registryWf sm -> NoDup (waitOtherKeys sm).
Proof.
  intros sm [ND _]. unfold waitOtherKeys, getAllEntries.
  apply NoDup_filter_keys.
  apply (Permutation_NoDup
           (Permutation_map fst (Permutation_sym (jsSort_perm _ _ (sessions sm))))).
  exact ND.
Qed.

Lemma waitOtherKeys_In : forall sm k s,
  In (k, s) (sessions sm) ->
  notTheActive (getActiveSession sm) s = true ->
  In k (waitOtherKeys sm).
Proof.
  intros sm k s Hin Hn. unfold waitOtherKeys.
  apply in_map_iff. exists (k, s). split; [reflexivity|].
  apply filter_In. split; [|exact Hn].
  unfold getAllEntries. apply jsSort_In. exact Hin.
Qed.

Lemma waitActiveKey_Some : forall sm a,
  registryWf sm ->
  waitActiveKey sm = Some a ->
  exists act, getActiveSession sm = Some act /\ s_id act = a.
Proof.
  intros sm a Hwf H. unfold waitActiveKey in H.
  destruct (getActiveSession sm) as [act|] eqn:G; [|discriminate].
  exists act. split; [reflexivity|].
  unfold getActiveSession in G. rewrite H in G.
  destruct a as [|c k]; [discriminate|].
  apply mapGet_In in G. destruct Hwf as [_ F]. rewrite Forall_forall in F.
  apply (F _ G).
Qed.

Lemma waitActiveKey_None : forall sm,
  waitActiveKey sm = None -> getActiveSession sm = None.
Proof.
  intros sm H. unfold waitActiveKey in H.
  destruct (getActiveSession sm) as [act|] eqn:G; [|reflexivity].
  unfold getActiveSession in G. rewrite H in G. discriminate.
Qed.

(** Under distinct ids the marking of a found utterance is the marking of
    its entry in the queue that owns it. *)
Lemma markFound_owner : forall X0 X e,
  registryWf (sessionManager X0) ->
  idsDistinctEverywhere X0 ->
  idShape X = idShape X0 ->
  In e (collectPending X0) ->
  markFound (waitActiveKey (sessionManager X0)) (waitOtherKeys (sessionManager X0))
    X (utterance e)
  = markEntry X e.
Proof.
  intros X0 X e Hwf ND Hshape Hin.
  assert (T : forall i k, hasId i (queueAt k X) = hasId i (queueAt k X0)
                          /\ hasId i (queue X) = hasId i (queue X0))
    by (intros; apply shape_hasId, Hshape).
  rewrite markFound_unfold. cbv zeta.
  destruct (source e) eqn:Src.
  - (* the legacy queue owns the utterance *)
    assert (C : In e (collectPending X0) /\ source e = global) by auto.
    apply collectPending_global in C. destruct C as [u [Hu Ee]]. subst e.
    cbn [utterance]. apply withStatus_In in Hu. destruct Hu as [Hu _].
    destruct (owner_global X0 u ND Hu) as [Hq Hnone].
    assert (P1 : match waitActiveKey (sessionManager X0) with
                 | Some k => if hasId (u_id u) (queueAt k X)
                             then (markDeliveredInSession k (u_id u) X, true)
                             else (X, false)
                 | None => (X, false)
                 end = (X, false)).
    { destruct (waitActiveKey (sessionManager X0)) as [a|]; [|reflexivity].
      rewrite (proj1 (T (u_id u) a)), Hnone. reflexivity. }
    rewrite P1. cbn [fst snd].
    rewrite fold_markOther_none
      by (intros k _; rewrite (proj1 (T (u_id u) k)); apply Hnone).
    cbn [fst snd]. rewrite (proj2 (T (u_id u) [])), Hq. reflexivity.
  - (* a session owns the utterance *)
    assert (C : In e (collectPending X0) /\ source e = session) by auto.
    apply (collectPending_session X0 e Hwf) in C.
    destruct C as [s [u [Hs [Hu Ee]]]]. subst e. cbn [utterance].
    apply withStatus_In in Hu. destruct Hu as [Hu _].
    destruct (owner_session X0 s u Hwf ND Hs Hu) as [Hown [Hothers Hleg]].
    destruct (registryWf_value_key _ s Hwf Hs) as [Hks Hne].
    assert (M : markEntry X (mkEntry u session (Some (s_id s)))
                = markDeliveredInSession (s_id s) (u_id u) X).
    { unfold markEntry. simpl. destruct (s_id s); [contradiction | reflexivity]. }
    rewrite M.
    assert (Fold : notTheActive (getActiveSession (sessionManager X0)) s = true ->
                   fold_left (markOther (u_id u))
                     (waitOtherKeys (sessionManager X0)) (X, false)
                   = (markDeliveredInSession (s_id s) (u_id u) X, true)).
    { intro Hn. apply fold_markOther_one.
      - apply waitOtherKeys_NoDup, Hwf.
      - eapply waitOtherKeys_In; eauto.
      - rewrite (proj1 (T (u_id u) (s_id s))). exact Hown.
      - intros k' _ Hk'. rewrite (proj1 (T (u_id u) k')). apply Hothers, Hk'. }
    destruct (waitActiveKey (sessionManager X0)) as [a|] eqn:Ak.
    + destruct (waitActiveKey_Some _ _ Hwf Ak) as [act [Hact Hida]].
      destruct (jseqb a (s_id s)) eqn:E.
      * apply jseqb_eq in E. rewrite E.
        rewrite (proj1 (T (u_id u) (s_id s))), Hown. reflexivity.
      * apply jseqb_neq in E.
        rewrite (proj1 (T (u_id u) a)), (Hothers a E). cbn [fst snd].
        rewrite Fold; [reflexivity|].
        rewrite Hact. simpl. rewrite Hida. apply negb_true_iff, jseqb_neq.
        congruence.
    + cbn [fst snd]. rewrite Fold; [reflexivity|].
      rewrite (waitActiveKey_None _ Ak). reflexivity.
Qed.

Lemma fold_markFound : forall X0 es X,
  registryWf (sessionManager X0) ->
  idsDistinctEverywhere X0 ->
  idShape X = idShape X0 ->
  (forall e, In e es -> In e (collectPending X0)) ->
  fold_left (markFound (waitActiveKey (sessionManager X0))
               (waitOtherKeys (sessionManager X0)))
    (map utterance es) X
  = fold_left markEntry es X.
Proof.
  intros X0 es. induction es as [|e r IH]; intros X Hwf ND Hshape Hsub;
    [reflexivity|].
  simpl. rewrite (markFound_owner X0 X e Hwf ND Hshape (Hsub e (or_introl eq_refl))).
  apply IH; auto.
  - rewrite markEntry_shape. exact Hshape.
  - intros e' He'. apply Hsub. right. exact He'.
Qed.

(** X27.  When every utterance has an id of its own, a wait that finds
    pending utterances marks each of them delivered in the queue that holds
    it and changes nothing else in the queues or the registry: afterwards no
    queue holds a pending utterance, and the clients have been told that
    the wait started and that it ended. *)
Theorem wait_delivers_everywhere : forall startTime t rest st,
  registryWf (sessionManager st) ->
  idsDistinctEverywhere st ->
  voiceInputActive (voicePreferences st) = true ->
  allPending st <> [] ->
  t_test t - startTime < maxWaitMs ->
  exists r st',
    waitForUtteranceCore startTime (t :: rest) st = Some (r, st')
    /\ sessionManager st' = sessionManager (deliverEverywhere st)
    /\ queue st' = queue (deliverEverywhere st)
    /\ noPendingAnywhere st'
    /\ outbox st' = outbox st ++ [NWaitStatus true; NWaitStatus false].
Proof.
  intros startTime t rest st Hwf ND Hon Hsome Ht.
  set (X0 := notifyWaitStatus true st).
  assert (HwfX : stateWf X0).
  { split; [exact Hwf|]. apply Forall_forall. intros q Hq.
    apply (distinct_each_queue st); assumption. }
  assert (P : Permutation (collectPendingUtterances X0) (allPending st)).
  { change (collectPendingUtterances X0) with (collectPendingUtterances st).
    rewrite collectPendingUtterances_entries. apply collectPending_perm, Hwf. }
  assert (Hne : collectPendingUtterances X0 <> []).
  { intro E. rewrite E in P. apply Permutation_nil in P. contradiction. }
  assert (Sorted : jsSort oldestFirst (collectPendingUtterances X0)
                   = map utterance (jsSort entryOldestFirst (collectPending X0))).
  { rewrite collectPendingUtterances_entries. symmetry.
    apply (jsSort_map _ _ utterance oldestFirst). }
  assert (Fold : fold_left (markFound (waitActiveKey (sessionManager X0))
                              (waitOtherKeys (sessionManager X0)))
                   (jsSort oldestFirst (collectPendingUtterances X0)) X0
                 = deliverEverywhere X0).
  { rewrite Sorted. rewrite (fold_markFound X0); auto.
    - rewrite fold_markEntry by apply Hwf.
      apply markedState_collected; [exact HwfX | apply jsSort_perm].
    - intros e He. apply jsSort_In in He. exact He. }
  eexists. eexists. split.
  - unfold waitForUtteranceCore. rewrite Hon. simpl negb. cbv iota.
    fold X0. cbn [waitLoop]. apply Z.ltb_lt in Ht. rewrite Ht.
    change (voiceInputActive (voicePreferences X0))
      with (voiceInputActive (voicePreferences st)).
    rewrite Hon. simpl negb. cbv iota.
    apply len_pos_iff in Hne. rewrite Hne.
    fold (waitActiveKey (sessionManager X0)).
    fold (waitOtherKeys (sessionManager X0)).
    rewrite Fold. reflexivity.
  - split; [reflexivity|]. split; [reflexivity|]. split.
    + intros q u Hq Hu. apply (deliverEverywhere_noPending st q u); assumption.
    + simpl. rewrite <- app_assoc. reflexivity.
Qed.

Lemma pendingInTwoQueues_distinct : idsDistinctEverywhere pendingInTwoQueues.
Proof.
  unfold idsDistinctEverywhere, allQueues. simpl.
  repeat constructor; simpl; intuition discriminate.
Defined.

(** A wait over a session queue and the legacy queue, each with a pending
    utterance. *)
Lemma wait_delivers_everywhere_witness :
  exists r st',
    waitForUtteranceCore 0 [idleTick 5] pendingInTwoQueues = Some (r, st')
    /\ sessionManager st' = sessionManager (deliverEverywhere pendingInTwoQueues)
    /\ queue st' = queue (deliverEverywhere pendingInTwoQueues)
    /\ noPendingAnywhere st'
    /\ outbox st' = outbox pendingInTwoQueues ++ [NWaitStatus true; NWaitStatus false].
Proof.
  apply (wait_delivers_everywhere 0 (idleTick 5) [] pendingInTwoQueues).
  - apply pendingInTwoQueues_wf.
  - apply pendingInTwoQueues_distinct.
  - reflexivity.
  - vm_compute. discriminate.
  - vm_compute. reflexivity.
Defined.
